(** * go-shellquote: the word splitter of [unquote.go]

    A shallow embedding of [SplitWithOptions], [Split], [SplitN] and
    [splitWord], together with the parts of Go's [unicode/utf8], [unicode]
    and [strings] packages they call.

    Go strings are byte sequences ([list byte]); runes and [int]s are [Z].
    Loops whose cursor moves by a decoded rune width are written with a
    fuel argument and return [option]; the fuel the entry points supply is
    shown to be enough. *)

From Stdlib Require Import Strings.Byte Strings.String.
From Stdlib Require Import ZArith List Lia Bool.
Import ListNotations.
Local Open Scope Z_scope.

Definition gostring := list byte.
Definition rune := Z.

(** Numeric value of a byte. *)
Definition b2z (b : byte) : Z := Z.of_N (Byte.to_N b).

(** A Go string literal. *)
Definition gs (s : String.string) : gostring := list_byte_of_string s.

(** [s[n:]] and [s[:n]]. *)
Definition from (n : nat) (s : gostring) : gostring := skipn n s.
Definition upto (n : nat) (s : gostring) : gostring := firstn n s.

(** ** Package [unicode/utf8] *)
Module utf8.

Definition RuneError : rune := 0xFFFD.
Definition RuneSelf : Z := 0x80.
Definition MaxRune : rune := 0x10FFFF.
Definition UTFMax : nat := 4.

Definition surrogateMin : rune := 0xD800.
Definition surrogateMax : rune := 0xDFFF.

Definition maskx : Z := 0x3F.
Definition mask2 : Z := 0x1F.
Definition mask3 : Z := 0x0F.
Definition mask4 : Z := 0x07.

Definition locb : Z := 0x80.
Definition hicb : Z := 0xBF.

Definition xx : Z := 0xF1.
Definition as_ : Z := 0xF0.
Definition s1 : Z := 0x02.
Definition s2 : Z := 0x13.
Definition s3 : Z := 0x03.
Definition s4 : Z := 0x23.
Definition s5 : Z := 0x34.
Definition s6 : Z := 0x04.
Definition s7 : Z := 0x44.

(** The table [first]: information about the first byte of an encoding. *)
Definition first (b : Z) : Z :=
  if b <? 0x80 then as_
  else if b <? 0xC2 then xx
  else if b <? 0xE0 then s1
  else if b =? 0xE0 then s2
  else if b <? 0xED then s3
  else if b =? 0xED then s4
  else if b <? 0xF0 then s3
  else if b =? 0xF0 then s5
  else if b <? 0xF4 then s6
  else if b =? 0xF4 then s7
  else xx.

(** The table [acceptRanges]: bounds [(lo, hi)] on the second byte. *)
Definition acceptRanges (i : Z) : Z * Z :=
  if i =? 0 then (locb, hicb)
  else if i =? 1 then (0xA0, hicb)
  else if i =? 2 then (locb, 0x9F)
  else if i =? 3 then (0x90, hicb)
  else if i =? 4 then (locb, 0x8F)
  else (0, 0).

(** [s[i]] as a number; the callers stay in range. *)
Definition at_ (s : gostring) (i : nat) : Z := b2z (nth i s x00).

Definition DecodeRuneInString (s : gostring) : rune * nat :=
  let n := length s in
  if (n <? 1)%nat then (RuneError, 0%nat)
  else
    let s0 := at_ s 0 in
    let x := first s0 in
    if as_ <=? x then
      (* rune(x) << 31 >> 31 on int32: all ones when bit 0 of x is set *)
      let mask := if Z.testbit x 0 then (-1) else 0 in
      (Z.lor (Z.land s0 (Z.lnot mask)) (Z.land RuneError mask), 1%nat)
    else
      let sz := Z.to_nat (Z.land x 7) in
      let accept := acceptRanges (Z.shiftr x 4) in
      if (n <? sz)%nat then (RuneError, 1%nat)
      else
        let s1 := at_ s 1 in
        if (s1 <? fst accept) || (snd accept <? s1) then (RuneError, 1%nat)
        else if (sz <=? 2)%nat then
          (Z.lor (Z.shiftl (Z.land s0 mask2) 6) (Z.land s1 maskx), 2%nat)
        else
          let s2 := at_ s 2 in
          if (s2 <? locb) || (hicb <? s2) then (RuneError, 1%nat)
          else if (sz <=? 3)%nat then
            (Z.lor (Z.lor (Z.shiftl (Z.land s0 mask3) 12)
                          (Z.shiftl (Z.land s1 maskx) 6))
                   (Z.land s2 maskx), 3%nat)
          else
            let s3 := at_ s 3 in
            if (s3 <? locb) || (hicb <? s3) then (RuneError, 1%nat)
            else
              (Z.lor (Z.lor (Z.lor (Z.shiftl (Z.land s0 mask4) 18)
                                   (Z.shiftl (Z.land s1 maskx) 12))
                            (Z.shiftl (Z.land s2 maskx) 6))
                     (Z.land s3 maskx), 4%nat).

(** [RuneStart]: the byte is not a continuation byte. *)
Definition RuneStart (b : Z) : bool := negb (Z.land b 0xC0 =? 0x80).

(** The backwards search of [DecodeLastRuneInString] for a rune start:
    [start] runs down from [end-2] to [lim]; the result is the value of
    [start] after the loop, [-1] included. *)
Fixpoint lastStart (s : gostring) (lim : Z) (start : Z) (steps : nat) : Z :=
  match steps with
  | O => start
  | S k =>
      if start <? lim then start
      else if RuneStart (at_ s (Z.to_nat start)) then start
      else lastStart s lim (start - 1) k
  end.

Definition DecodeLastRuneInString (s : gostring) : rune * nat :=
  let end_ := Z.of_nat (length s) in
  if end_ =? 0 then (RuneError, 0%nat)
  else
    let start := end_ - 1 in
    let r := at_ s (Z.to_nat start) in
    if r <? RuneSelf then (r, 1%nat)
    else
      let lim := Z.max 0 (end_ - Z.of_nat UTFMax) in
      let start := lastStart s lim (start - 1) (S UTFMax) in
      let start := Z.max 0 start in
      let '(r, size) := DecodeRuneInString (from (Z.to_nat start) s) in
      if negb (start + Z.of_nat size =? end_) then (RuneError, 1%nat)
      else (r, size).

Definition ValidRune (r : rune) : bool :=
  ((0 <=? r) && (r <? surrogateMin)) || ((surrogateMax <? r) && (r <=? MaxRune)).

(** [string(r)] for a rune: its UTF-8 encoding, that of [RuneError] when
    the rune is not valid. *)
Definition byte_of (z : Z) : byte :=
  match Byte.of_N (Z.to_N (z mod 256)) with Some b => b | None => x00 end.

Definition EncodeRune (r : rune) : gostring :=
  if (0 <=? r) && (r <=? 0x7F) then [byte_of r]
  else if (0 <=? r) && (r <=? 0x7FF) then
    [byte_of (Z.lor 0xC0 (Z.shiftr r 6));
     byte_of (Z.lor 0x80 (Z.land r maskx))]
  else if negb (ValidRune r) then [xef; xbf; xbd]
  else if r <=? 0xFFFF then
    [byte_of (Z.lor 0xE0 (Z.shiftr r 12));
     byte_of (Z.lor 0x80 (Z.land (Z.shiftr r 6) maskx));
     byte_of (Z.lor 0x80 (Z.land r maskx))]
  else
    [byte_of (Z.lor 0xF0 (Z.shiftr r 18));
     byte_of (Z.lor 0x80 (Z.land (Z.shiftr r 12) maskx));
     byte_of (Z.lor 0x80 (Z.land (Z.shiftr r 6) maskx));
     byte_of (Z.lor 0x80 (Z.land r maskx))].

End utf8.

(** ** Package [unicode] *)
Module unicode.

Definition MaxLatin1 : rune := 0xFF.

(** [IsSpace]: the Latin-1 spaces, and beyond Latin-1 the ranges of the
    [White_Space] table. *)
Definition IsSpace (r : rune) : bool :=
  if (0 <=? r) && (r <=? MaxLatin1) then
    (r =? 9) || (r =? 10) || (r =? 11) || (r =? 12) || (r =? 13) ||
    (r =? 32) || (r =? 0x85) || (r =? 0xA0)
  else
    (r =? 0x1680) || ((0x2000 <=? r) && (r <=? 0x200A)) ||
    ((0x2028 <=? r) && (r <=? 0x2029)) || (r =? 0x202F) ||
    (r =? 0x205F) || (r =? 0x3000).

End unicode.

(** ** Package [strings] *)
Module strings.

(** [for i, r := range s]: the byte offset and value of each rune. *)
Fixpoint range_from (fuel : nat) (i : nat) (s : gostring) : list (nat * rune) :=
  match fuel with
  | O => []
  | S k =>
      match s with
      | [] => []
      | _ :: _ =>
          let '(r, l) := utf8.DecodeRuneInString s in
          (i, r) :: range_from k (i + l)%nat (from l s)
      end
  end.

Definition range (s : gostring) : list (nat * rune) :=
  range_from (length s) 0%nat s.

Fixpoint IndexByte (s : gostring) (c : Z) : Z :=
  match s with
  | [] => -1
  | b :: s' =>
      if b2z b =? c then 0
      else let i := IndexByte s' c in if i <? 0 then -1 else i + 1
  end.

Fixpoint HasPrefix (s prefix : gostring) : bool :=
  match prefix, s with
  | [], _ => true
  | p :: prefix', b :: s' => Byte.eqb p b && HasPrefix s' prefix'
  | _ :: _, [] => false
  end.

(** [Index]: offset of the first occurrence of [substr], or [-1]. *)
Fixpoint Index (s substr : gostring) : Z :=
  if HasPrefix s substr then 0
  else match s with
       | [] => -1
       | _ :: s' => let i := Index s' substr in if i <? 0 then -1 else i + 1
       end.

(** [indexFunc]: offset of the first rune [r] with [f r = truth]. *)
Fixpoint indexFunc_in (rs : list (nat * rune)) (f : rune -> bool) (truth : bool) : Z :=
  match rs with
  | [] => -1
  | (i, r) :: rs' =>
      if Bool.eqb (f r) truth then Z.of_nat i else indexFunc_in rs' f truth
  end.

Definition indexFunc (s : gostring) (f : rune -> bool) (truth : bool) : Z :=
  indexFunc_in (range s) f truth.

Definition IndexRune (s : gostring) (r : rune) : Z :=
  if (0 <=? r) && (r <? utf8.RuneSelf) then IndexByte s r
  else if r =? utf8.RuneError then
    indexFunc s (fun r' => r' =? utf8.RuneError) true
  else if negb (utf8.ValidRune r) then -1
  else Index s (utf8.EncodeRune r).

Definition ContainsRune (s : gostring) (r : rune) : bool :=
  0 <=? IndexRune s r.

(** [lastIndexFunc]: the loop [for i := len(s); i > 0;]. *)
Fixpoint lastIndexFunc_from (fuel : nat) (s : gostring) (i : nat)
    (f : rune -> bool) (truth : bool) : Z :=
  match fuel with
  | O => -1
  | S k =>
      if (0 <? i)%nat then
        let '(r, size) := utf8.DecodeLastRuneInString (upto i s) in
        let i := (i - size)%nat in
        if Bool.eqb (f r) truth then Z.of_nat i
        else lastIndexFunc_from k s i f truth
      else -1
  end.

Definition lastIndexFunc (s : gostring) (f : rune -> bool) (truth : bool) : Z :=
  lastIndexFunc_from (length s) s (length s) f truth.

Definition TrimLeftFunc (s : gostring) (f : rune -> bool) : gostring :=
  let i := indexFunc s f false in
  if i =? -1 then [] else from (Z.to_nat i) s.

Definition TrimRightFunc (s : gostring) (f : rune -> bool) : gostring :=
  let i := lastIndexFunc s f false in
  let i :=
    if (0 <=? i) && (utf8.RuneSelf <=? utf8.at_ s (Z.to_nat i)) then
      let '(_, wid) := utf8.DecodeRuneInString (from (Z.to_nat i) s) in
      i + Z.of_nat wid
    else i + 1 in
  upto (Z.to_nat i) s.

Definition TrimFunc (s : gostring) (f : rune -> bool) : gostring :=
  TrimRightFunc (TrimLeftFunc s f) f.

(** The table [asciiSpace]. *)
Definition asciiSpace (c : Z) : bool :=
  (c =? 9) || (c =? 10) || (c =? 11) || (c =? 12) || (c =? 13) || (c =? 32).

(** First loop of [TrimSpace]: [inl start] when it stops at an ASCII
    byte that is no space (or at the end), [inr start] when it meets a
    byte that is not ASCII and hands over to [TrimFunc]. *)
Fixpoint trimSpaceStart (s : gostring) (start : nat) : nat + nat :=
  match s with
  | [] => inl start
  | c :: s' =>
      if utf8.RuneSelf <=? b2z c then inr start
      else if asciiSpace (b2z c) then trimSpaceStart s' (S start)
      else inl start
  end.

(** Second loop of [TrimSpace], over the reversed bytes of [s[start:]]:
    [inl stop] or, at a byte that is not ASCII, [inr stop]. *)
Fixpoint trimSpaceStop (rev_s : gostring) (stop : nat) : nat + nat :=
  match rev_s with
  | [] => inl stop
  | c :: r' =>
      if utf8.RuneSelf <=? b2z c then inr stop
      else if asciiSpace (b2z c) then trimSpaceStop r' (stop - 1)%nat
      else inl stop
  end.

Definition TrimSpace (s : gostring) : gostring :=
  match trimSpaceStart s 0%nat with
  | inr start => TrimFunc (from start s) unicode.IsSpace
  | inl start =>
      match trimSpaceStop (rev (from start s)) (length s) with
      | inr stop => TrimRightFunc (from start (upto stop s)) unicode.IsSpace
      | inl stop => from start (upto stop s)
      end
  end.

(** [trimLeftUnicode].  [TrimLeft] reaches it directly or through
    [trimLeftByte] and [trimLeftASCII], which compute the same result for
    a cutset of ASCII bytes. *)
Fixpoint trimLeftUnicode (fuel : nat) (s cutset : gostring) : gostring :=
  match fuel with
  | O => s
  | S k =>
      match s with
      | [] => s
      | b :: _ =>
          let '(r, n) :=
            if utf8.RuneSelf <=? b2z b then utf8.DecodeRuneInString s
            else (b2z b, 1%nat) in
          if negb (ContainsRune cutset r) then s
          else trimLeftUnicode k (from n s) cutset
      end
  end.

Definition TrimLeft (s cutset : gostring) : gostring :=
  match s, cutset with
  | [], _ => s
  | _, [] => s
  | _, _ => trimLeftUnicode (length s) s cutset
  end.

Fixpoint trimRightUnicode (fuel : nat) (s cutset : gostring) : gostring :=
  match fuel with
  | O => s
  | S k =>
      match s with
      | [] => s
      | _ :: _ =>
          let last := utf8.at_ s (length s - 1) in
          let '(r, n) :=
            if utf8.RuneSelf <=? last then utf8.DecodeLastRuneInString s
            else (last, 1%nat) in
          if negb (ContainsRune cutset r) then s
          else trimRightUnicode k (upto (length s - n) s) cutset
      end
  end.

Definition TrimRight (s cutset : gostring) : gostring :=
  match s, cutset with
  | [], _ => s
  | _, [] => s
  | _, _ => trimRightUnicode (length s) s cutset
  end.

End strings.

(** ** Package [shellquote] *)

Inductive error : Set :=
| UnterminatedSingleQuoteError
| UnterminatedDoubleQuoteError
| UnterminatedEscapeError.

Definition DefaultSplitChars : gostring := [x20; x0a; x09].
Definition DefaultSingleChar : rune := 39.
Definition DefaultDoubleChar : rune := 34.
Definition DefaultEscapeChar : rune := 92.
Definition DefaultDoubleEscapeChars : gostring := [x24; x60; x22; x0a; x5c].

Record SplitOptions : Set := mkSplitOptions {
  SplitChars : gostring;
  SingleChar : rune;
  DoubleChar : rune;
  EscapeChar : rune;
  DoubleEscapeChars : gostring;
  Limit : Z
}.

Definition DefaultSplitOptions : SplitOptions :=
  {| SplitChars := DefaultSplitChars;
     SingleChar := DefaultSingleChar;
     DoubleChar := DefaultDoubleChar;
     EscapeChar := DefaultEscapeChar;
     DoubleEscapeChars := DefaultDoubleEscapeChars;
     Limit := -1 |}.

Definition with_EscapeChar (opts : SplitOptions) (c : rune) : SplitOptions :=
  {| SplitChars := SplitChars opts;
     SingleChar := SingleChar opts;
     DoubleChar := DoubleChar opts;
     EscapeChar := c;
     DoubleEscapeChars := DoubleEscapeChars opts;
     Limit := Limit opts |}.

Definition with_Limit (opts : SplitOptions) (n : Z) : SplitOptions :=
  {| SplitChars := SplitChars opts;
     SingleChar := SingleChar opts;
     DoubleChar := DoubleChar opts;
     EscapeChar := EscapeChar opts;
     DoubleEscapeChars := DoubleEscapeChars opts;
     Limit := n |}.

Definition with_SplitChars (opts : SplitOptions) (s : gostring) : SplitOptions :=
  {| SplitChars := s;
     SingleChar := SingleChar opts;
     DoubleChar := DoubleChar opts;
     EscapeChar := EscapeChar opts;
     DoubleEscapeChars := DoubleEscapeChars opts;
     Limit := Limit opts |}.

Definition NoEscapeSplitOptions : SplitOptions :=
  with_EscapeChar DefaultSplitOptions 0.

(** *** [splitWord]

    The labelled blocks of [splitWord] are the states of a machine over
    the buffer [buf] and the variable [input]; a block ends in a [goto]
    ([Goto]), in the return of a word and a remainder without error
    ([Word], which the block [done] is too) or in the return of an error
    with an empty word and an empty remainder ([Fail]). *)

Inductive label : Set := Lraw | Lescape | Lsingle | Ldouble.

Record wstate : Set := mkW { lbl : label; buf : gostring; inp : gostring }.

Inductive outcome : Set :=
| Goto (st : wstate)
| Word (word remainder : gostring)
| Fail (e : error).

(** The loop of block [raw]: [cur] runs over [input]. *)
Fixpoint raw_loop (fuel : nat) (opts : SplitOptions) (buf input cur : gostring)
    : option outcome :=
  match cur with
  | [] =>
      if (0 <? length input)%nat then Some (Word (buf ++ input) [])
      else Some (Word buf input)
  | _ :: _ =>
      match fuel with
      | O => None
      | S k =>
          let '(c, l) := utf8.DecodeRuneInString cur in
          let cur := from l cur in
          let pre := upto (length input - length cur - l) input in
          if c =? SingleChar opts then Some (Goto (mkW Lsingle (buf ++ pre) cur))
          else if c =? DoubleChar opts then Some (Goto (mkW Ldouble (buf ++ pre) cur))
          else if c =? EscapeChar opts then Some (Goto (mkW Lescape (buf ++ pre) cur))
          else if strings.ContainsRune (SplitChars opts) c then
            Some (Word (buf ++ pre) cur)
          else raw_loop k opts buf input cur
      end
  end.

Definition raw_block (opts : SplitOptions) (buf input : gostring) : option outcome :=
  raw_loop (length input) opts buf input input.

Definition escape_block (opts : SplitOptions) (buf input : gostring) : option outcome :=
  if (length input =? 0)%nat then Some (Fail UnterminatedEscapeError)
  else
    let '(c, l) := utf8.DecodeRuneInString input in
    let buf := if c =? 10 then buf else buf ++ upto l input in
    Some (Goto (mkW Lraw buf (from l input))).

Definition single_block (opts : SplitOptions) (buf input : gostring) : option outcome :=
  let i := strings.IndexRune input (SingleChar opts) in
  if i =? -1 then Some (Fail UnterminatedSingleQuoteError)
  else Some (Goto (mkW Lraw (buf ++ upto (Z.to_nat i) input)
                            (from (Z.to_nat (i + 1)) input))).

(** The loop of block [double]; [input] and [buf] change inside it. *)
Fixpoint double_loop (fuel : nat) (opts : SplitOptions) (buf input cur : gostring)
    : option outcome :=
  match cur with
  | [] => Some (Fail UnterminatedDoubleQuoteError)
  | _ :: _ =>
      match fuel with
      | O => None
      | S k =>
          let '(c, l) := utf8.DecodeRuneInString cur in
          let cur := from l cur in
          if c =? DoubleChar opts then
            Some (Goto (mkW Lraw
                          (buf ++ upto (length input - length cur - l) input) cur))
          else if c =? EscapeChar opts then
            let '(c2, l2) := utf8.DecodeRuneInString cur in
            let cur := from l2 cur in
            if strings.ContainsRune (DoubleEscapeChars opts) c2 then
              let buf := buf ++ upto (length input - length cur - l - l2) input in
              let buf := if c2 =? 10 then buf else buf ++ utf8.EncodeRune c2 in
              double_loop k opts buf cur cur
            else double_loop k opts buf input cur
          else double_loop k opts buf input cur
      end
  end.

Definition double_block (opts : SplitOptions) (buf input : gostring) : option outcome :=
  double_loop (length input) opts buf input input.

Definition block (opts : SplitOptions) (st : wstate) : option outcome :=
  match lbl st with
  | Lraw => raw_block opts (buf st) (inp st)
  | Lescape => escape_block opts (buf st) (inp st)
  | Lsingle => single_block opts (buf st) (inp st)
  | Ldouble => double_block opts (buf st) (inp st)
  end.

(** What [splitWord] returns: [(word, remainder, err)]. *)
Definition wresult : Set := (gostring * gostring * option error)%type.

Fixpoint run (fuel : nat) (opts : SplitOptions) (st : wstate) : option wresult :=
  match fuel with
  | O => None
  | S k =>
      match block opts st with
      | None => None
      | Some (Goto st') => run k opts st'
      | Some (Word w r) => Some (w, r, None)
      | Some (Fail e) => Some ([], [], Some e)
      end
  end.

Definition splitWord (input : gostring) (opts : SplitOptions) : option wresult :=
  run (S (length input)) opts (mkW Lraw [] input).

(** *** [SplitWithOptions]

    What the function returns: the named results [(words, err)]. *)
Definition result : Set := (list gostring * option error)%type.

(** The end of one turn of the main loop. *)
Inductive turn : Set :=
| Continue (words : list gostring) (input : gostring)
| Return (words : list gostring) (err : option error).

(** The test of line 92 and what follows it: the look-ahead for an
    escaped newline.  [None]: fall through to [splitWord]. *)
Definition lookahead (opts : SplitOptions) (words : list gostring)
    (input : gostring) (c : rune) (l : nat) : option turn :=
  if c =? EscapeChar opts then
    let next := from l input in
    if (length next =? 0)%nat then Some (Return words (Some UnterminatedEscapeError))
    else
      let '(c2, l2) := utf8.DecodeRuneInString next in
      if c2 =? 10 then Some (Continue words (from l2 next)) else None
  else None.

(** Lines 106 to 118: parse a word; on an error return, else append the
    word and check the limit. *)
Definition finish_word (opts : SplitOptions) (words : list gostring)
    (r : wresult) : turn :=
  match r with
  | (_, _, Some err) => Return words (Some err)
  | (word, input, None) =>
      let words := words ++ [word] in
      if Limit opts =? Z.of_nat (length words) + 1 then
        let input := strings.TrimSpace input in
        if (0 <? length input)%nat then Return (words ++ [input]) None
        else Return words None
      else Continue words input
  end.

Definition word_turn (opts : SplitOptions) (words : list gostring)
    (input : gostring) : option turn :=
  option_map (finish_word opts words) (splitWord input opts).

(** The body of [for len(input) > 0], entered with a non-empty [input]. *)
Definition loop_body (opts : SplitOptions) (splitChars : gostring)
    (words : list gostring) (input : gostring) : option turn :=
  let '(c, l) := utf8.DecodeRuneInString input in
  if strings.ContainsRune splitChars c then Some (Continue words (from l input))
  else
    match lookahead opts words input c l with
    | Some t => Some t
    | None => word_turn opts words input
    end.

Fixpoint main_loop (fuel : nat) (opts : SplitOptions) (splitChars : gostring)
    (words : list gostring) (input : gostring) : option result :=
  if (0 <? length input)%nat then
    match fuel with
    | O => None
    | S k =>
        match loop_body opts splitChars words input with
        | None => None
        | Some (Continue words input) => main_loop k opts splitChars words input
        | Some (Return words err) => Some (words, err)
        end
    end
  else Some (words, None).

(** [opts] is never [nil] here: a caller passing [nil] gets
    [DefaultSplitOptions ()]. *)
Definition SplitWithOptions (input : gostring) (opts : SplitOptions) : option result :=
  let splitChars := SplitChars opts in
  let splitChars :=
    if (length splitChars =? 0)%nat then DefaultSplitChars else splitChars in
  if Limit opts =? 0 then Some ([], None)
  else if Limit opts =? 1 then
    let input := strings.TrimLeft (strings.TrimRight input splitChars) splitChars in
    if (0 <? length input)%nat then Some ([input], None) else Some ([], None)
  else main_loop (length input) opts splitChars [] input.

Definition Split (input : gostring) : option result :=
  SplitWithOptions input DefaultSplitOptions.

Definition SplitN (input : gostring) (n : Z) : option result :=
  SplitWithOptions input (with_Limit DefaultSplitOptions n).

(** Some inputs. *)
Definition ex_foo_bar_baz : gostring := gs "foo bar  baz".
Definition ex_quoted : gostring := gs "foo 'bar baz'".
Definition ex_escaped : gostring := gs "foo\ bar".
Definition ex_unterminated : gostring := gs "foo 'unterminated".
Definition ex_abcd : gostring := gs "a b c d".


Definition ex_run : gostring := [x20; x09].
Definition ex_before : gostring := gs "foo 'a  b'".
Definition ex_behind : gostring := gs "bar\ baz".
Definition ex_mixed : gostring := ex_before ++ ex_run ++ ex_behind.

(** ** Notions the statements use *)

(** The runes of a string, as the decoder reads them one after the
    other. *)
Fixpoint runes_from (fuel : nat) (s : gostring) : list rune :=
  match fuel with
  | O => []
  | S k =>
      match s with
      | [] => []
      | _ :: _ =>
          let '(r, l) := utf8.DecodeRuneInString s in
          r :: runes_from k (from l s)
      end
  end.

Definition runes (s : gostring) : list rune := runes_from (length s) s.

(** The runes that open a quoted span or an escape. *)
Definition is_quote (opts : SplitOptions) (c : rune) : bool :=
  (c =? SingleChar opts) || (c =? DoubleChar opts) || (c =? EscapeChar opts).

(** The runes the block [raw] reacts to. *)
Definition is_special (opts : SplitOptions) (c : rune) : bool :=
  is_quote opts c || strings.ContainsRune (SplitChars opts) c.

(** No rune of [s] opens a quoted span or an escape. *)
Definition unquoted (opts : SplitOptions) (s : gostring) : bool :=
  forallb (fun c => negb (is_quote opts c)) (runes s).

(** No rune of [s] is special: [s] is literal text of one word. *)
Definition plain (opts : SplitOptions) (s : gostring) : bool :=
  forallb (fun c => negb (is_special opts c)) (runes s).

(** [s] is empty or starts with an ASCII byte. *)
Definition ascii_head (s : gostring) : Prop :=
  forall y s', s = y :: s' -> b2z y < 0x80.

(** The states [splitWord] goes through. *)
Inductive reaches (opts : SplitOptions) : wstate -> wstate -> Prop :=
| reaches_refl st : reaches opts st st
| reaches_goto st st' st'' :
    block opts st = Some (Goto st') -> reaches opts st' st'' ->
    reaches opts st st''.

(** The values of [(words, input)] at the head of the main loop. *)
Inductive advances (opts : SplitOptions) (splitChars : gostring)
    : list gostring -> gostring -> list gostring -> gostring -> Prop :=
| advances_refl words input : advances opts splitChars words input words input
| advances_turn words input words' input' words'' input'' :
    input <> [] ->
    loop_body opts splitChars words input = Some (Continue words' input') ->
    advances opts splitChars words' input' words'' input'' ->
    advances opts splitChars words input words'' input''.

(** [splitWord] from a state on, and the main loop from given
    [(words, input)] on, with fuel for the whole of the input. *)
Definition exec (opts : SplitOptions) (st : wstate) : option wresult :=
  run (S (length (inp st))) opts st.

Definition loop (opts : SplitOptions) (splitChars : gostring)
    (words : list gostring) (input : gostring) : option result :=
  main_loop (length input) opts splitChars words input.

(** What follows a turn of the main loop. *)
Definition after (opts : SplitOptions) (splitChars : gostring) (t : turn)
    : option result :=
  match t with
  | Continue words input => loop opts splitChars words input
  | Return words err => Some (words, err)
  end.

(** A state of [splitWord] with more input after its own. *)
Definition extend (st : wstate) (x : gostring) : wstate :=
  mkW (lbl st) (buf st) (inp st ++ x).

(** The split characters [SplitWithOptions] works with. *)
Definition resolved (opts : SplitOptions) : gostring :=
  if (length (SplitChars opts) =? 0)%nat then DefaultSplitChars else SplitChars opts.





(** The byte is a default split character. *)
Definition is_sep (y : byte) : bool := existsb (Byte.eqb y) DefaultSplitChars.

(** Words joined by single spaces. *)
Fixpoint join_words (ws : list gostring) : gostring :=
  match ws with
  | [] => []
  | w :: ws' =>
      match ws' with
      | [] => w
      | _ :: _ => w ++ [x20] ++ join_words ws'
      end
  end.

(* ================================================================= *)
(** * The model at work *)

Example decode_euro :
  utf8.DecodeRuneInString [xe2; x82; xac; x41] = (0x20AC, 3%nat).
Proof. reflexivity. Qed.

Example decode_surrogate :
  utf8.DecodeRuneInString [xed; xa0; x80] = (utf8.RuneError, 1%nat).
Proof. reflexivity. Qed.

Example decode_last_truncated :
  utf8.DecodeLastRuneInString [x41; x82; xac] = (utf8.RuneError, 1%nat).
Proof. reflexivity. Qed.

Example encode_euro : utf8.EncodeRune 0x20AC = [xe2; x82; xac].
Proof. reflexivity. Qed.

Example split_words :
  Split ex_foo_bar_baz = Some ([gs "foo"; gs "bar"; gs "baz"], None).
Proof. vm_compute. reflexivity. Qed.

Example split_double_quoted :
  Split (gs "foo " ++ [x22] ++ gs "bar baz" ++ [x22]) =
  Some ([gs "foo"; gs "bar baz"], None).
Proof. vm_compute. reflexivity. Qed.

Example split_single_quoted :
  Split (gs "foo 'bar " ++ [x22] ++ gs "qux" ++ [x22] ++ gs " baz'") =
  Some ([gs "foo"; gs "bar " ++ [x22] ++ gs "qux" ++ [x22] ++ gs " baz"], None).
Proof. vm_compute. reflexivity. Qed.

Example split_double_escapes :
  Split ([x22] ++ gs "a\$b\" ++ [x0a] ++ gs "c\xd" ++ [x22]) =
  Some ([gs "a$bc\xd"], None).
Proof. vm_compute. reflexivity. Qed.

Example split_limit_2 :
  SplitN ex_abcd 2 = Some ([gs "a"; gs "b c d"], None).
Proof. vm_compute. reflexivity. Qed.

Example split_limit_1 :
  SplitN (gs "   'a b'   c") 1 = Some ([gs "'a b'   c"], None).
Proof. vm_compute. reflexivity. Qed.

Example split_no_escape :
  SplitWithOptions ex_escaped NoEscapeSplitOptions =
  Some ([gs "foo\"; gs "bar"], None).
Proof. vm_compute. reflexivity. Qed.

(* ================================================================= *)
(** * Facts about the UTF-8 decoder *)

Lemma b2z_range (b : byte) : 0 <= b2z b < 256.
Proof.
  unfold b2z. pose proof (Byte.to_N_bounded b). lia.
Qed.

Lemma b2z_inj (a b : byte) : b2z a = b2z b -> a = b.
Proof.
  unfold b2z. intros H. apply N2Z.inj in H.
  pose proof (Byte.of_to_N a) as Ha. pose proof (Byte.of_to_N b) as Hb.
  rewrite H in Ha. congruence.
Qed.

Lemma lor_lower (a b : Z) : 0 <= b -> a <= Z.lor a b.
Proof.
  intros Hb. pose proof (Z.sub_lor_l_same_l b a) as H.
  assert (0 <= Z.land b (Z.lnot a)) by (apply Z.land_nonneg; lia).
  lia.
Qed.

Lemma decode_nil : utf8.DecodeRuneInString [] = (utf8.RuneError, 0%nat).
Proof. reflexivity. Qed.

Lemma first_cases (z : Z) :
  0 <= z < 256 ->
  (z < 0x80 /\ utf8.first z = utf8.as_) \/
  ((0x80 <= z < 0xC2 \/ 0xF5 <= z) /\ utf8.first z = utf8.xx) \/
  (0xC2 <= z < 0xE0 /\ utf8.first z = utf8.s1) \/
  (z = 0xE0 /\ utf8.first z = utf8.s2) \/
  ((0xE1 <= z < 0xED \/ 0xEE <= z < 0xF0) /\ utf8.first z = utf8.s3) \/
  (z = 0xED /\ utf8.first z = utf8.s4) \/
  (z = 0xF0 /\ utf8.first z = utf8.s5) \/
  (0xF1 <= z < 0xF4 /\ utf8.first z = utf8.s6) \/
  (z = 0xF4 /\ utf8.first z = utf8.s7).
Proof.
  intros Hz. unfold utf8.first.
  repeat match goal with
         | |- context [?a <? ?b] => destruct (Z.ltb_spec a b)
         | |- context [?a =? ?b] => destruct (Z.eqb_spec a b)
         end; try lia; intuition lia.
Qed.

Lemma decode_ascii (b : byte) (s : gostring) :
  b2z b < 0x80 -> utf8.DecodeRuneInString (b :: s) = (b2z b, 1%nat).
Proof.
  intros Hb. pose proof (b2z_range b) as Hr.
  unfold utf8.DecodeRuneInString, utf8.at_. cbn [length nth Nat.ltb Nat.leb].
  destruct (first_cases (b2z b) Hr) as [[_ E]|H]; [|lia].
  rewrite E. cbn. now rewrite Z.land_m1_r, Z.lor_0_r.
Qed.

Arguments b2z : simpl never.

Ltac first_split b :=
  let Hr := fresh "Hr" in
  let E := fresh "E" in
  pose proof (b2z_range b) as Hr;
  destruct (first_cases _ Hr)
    as [[? E]|[[? E]|[[? E]|[[? E]|[[? E]|[[? E]|[[? E]|[[? E]|[? E]]]]]]]]];
  rewrite E; clear E.

Ltac eval_closed :=
  repeat match goal with
  | |- context [Z.to_nat (Z.land ?x 7)] =>
      let v := eval vm_compute in (Z.to_nat (Z.land x 7)) in
      change (Z.to_nat (Z.land x 7)) with v
  | |- context [utf8.acceptRanges ?i] =>
      let v := eval vm_compute in (utf8.acceptRanges i) in
      change (utf8.acceptRanges i) with v
  | |- context [utf8.as_ <=? ?x] =>
      let v := eval vm_compute in (utf8.as_ <=? x) in
      change (utf8.as_ <=? x) with v
  | |- context [Z.testbit ?x 0] =>
      let v := eval vm_compute in (Z.testbit x 0) in
      change (Z.testbit x 0) with v
  end;
  cbv beta iota; cbn [fst snd];
  unfold utf8.locb, utf8.hicb, utf8.mask2, utf8.mask3, utf8.mask4, utf8.maskx,
    utf8.RuneError.

Ltac decode_open b :=
  unfold utf8.DecodeRuneInString, utf8.at_; cbv zeta;
  cbn [nth length app]; first_split b; eval_closed.

Ltac if_split :=
  repeat match goal with
         | |- context [if ?c then _ else _] => destruct c eqn:?
         end.

Lemma land_low (z : Z) (n : Z) : 0 <= n -> Z.land z (Z.ones n) = z mod 2 ^ n.
Proof. intros. now apply Z.land_ones. Qed.

Lemma lor_lower_r (a b : Z) : 0 <= a -> b <= Z.lor a b.
Proof. intros. rewrite Z.lor_comm. now apply lor_lower. Qed.

Ltac pair_inv :=
  let E := fresh "E" in
  intros E; apply pair_equal_spec in E; destruct E as [<- <-].

Ltac bits_arith :=
  change 31 with (Z.ones 5); change 15 with (Z.ones 4);
  change 7 with (Z.ones 3); change 63 with (Z.ones 6);
  rewrite ?land_low by lia; rewrite ?Z.shiftl_mul_pow2 by lia.

Ltac bool_hyps :=
  repeat match goal with
         | H : _ || _ = false |- _ => apply orb_false_elim in H; destruct H
         | H : _ || _ = true |- _ => apply orb_true_iff in H
         | H : (_ <? _) = false |- _ => apply Z.ltb_ge in H
         | H : (_ <? _) = true |- _ => apply Z.ltb_lt in H
         | H : (_ <? _)%nat = false |- _ => apply Nat.ltb_ge in H
         | H : (_ <? _)%nat = true |- _ => apply Nat.ltb_lt in H
         end.

Lemma lor2_lower (a b : Z) : 0 <= a -> 0 <= b -> a <= Z.lor a b /\ b <= Z.lor a b.
Proof. split; [now apply lor_lower | now apply lor_lower_r]. Qed.

Lemma lor3_lower (a b c : Z) :
  0 <= a -> 0 <= b -> 0 <= c ->
  a <= Z.lor (Z.lor a b) c /\ b <= Z.lor (Z.lor a b) c.
Proof.
  intros. destruct (lor2_lower a b) as [? ?]; try assumption.
  assert (Z.lor a b <= Z.lor (Z.lor a b) c) by now apply lor_lower. lia.
Qed.

Lemma lor4_lower (a b c d : Z) :
  0 <= a -> 0 <= b -> 0 <= c -> 0 <= d ->
  a <= Z.lor (Z.lor (Z.lor a b) c) d /\ b <= Z.lor (Z.lor (Z.lor a b) c) d.
Proof.
  intros. destruct (lor3_lower a b c) as [? ?]; try assumption.
  assert (Z.lor (Z.lor a b) c <= Z.lor (Z.lor (Z.lor a b) c) d)
    by now apply lor_lower. lia.
Qed.

Ltac lor_bound :=
  match goal with
  | |- context [Z.lor (Z.lor (Z.lor ?a ?b) ?c) ?d] =>
      pose proof (lor4_lower a b c d)
  | |- context [Z.lor (Z.lor ?a ?b) ?c] => pose proof (lor3_lower a b c)
  | |- context [Z.lor ?a ?b] => pose proof (lor2_lower a b)
  end.

Lemma invalid_value (z : Z) :
  Z.lor (Z.land z (Z.lnot (-1))) (Z.land 65533 (-1)) = 65533.
Proof. change (Z.lnot (-1)) with 0. now rewrite Z.land_0_r. Qed.

Lemma decode_nonascii b s c l :
  0x80 <= b2z b -> utf8.DecodeRuneInString (b :: s) = (c, l) -> 0x80 <= c.
Proof.
  intros Hb. decode_open b; try lia.
  all: cbn [Nat.leb]; if_split; bool_hyps.
  all: rewrite ?invalid_value; pair_inv; try lia.
  all: cbn [fst snd] in *.
  all: pose proof (b2z_range (nth 0 s x00)); pose proof (b2z_range (nth 1 s x00)); pose proof (b2z_range (nth 2 s x00)); bits_arith; lor_bound; Z.div_mod_to_equations; lia.
Qed.

Lemma decode_width s c l :
  s <> [] -> utf8.DecodeRuneInString s = (c, l) ->
  (1 <= l <= length s)%nat /\ (l <= 4)%nat.
Proof.
  destruct s as [|b s]; [congruence|]. intros _.
  decode_open b.
  all: cbn [Nat.leb]; if_split; bool_hyps.
  all: pair_inv; cbn [length]; lia.
Qed.

Lemma decode_app (a x : gostring) :
  a <> [] -> (forall y x', x = y :: x' -> b2z y < 0x80) ->
  utf8.DecodeRuneInString (a ++ x) = utf8.DecodeRuneInString a.
Proof.
  destruct a as [|b s]; [congruence|]. intros _ Hx.
  destruct x as [|y x]; [now rewrite app_nil_r|].
  specialize (Hx y x eq_refl). pose proof (b2z_range y).
  decode_open b.
  all: try reflexivity.
  all: destruct s as [|b1 [|b2 [|b3 s]]]; cbn [app length nth Nat.leb Nat.ltb fst snd].
  all: try reflexivity.
  all: if_split; bool_hyps; try reflexivity; try lia.
Qed.


(** A rune below [RuneSelf] is decoded only from the byte of that value. *)
Lemma decode_ascii_inv (b : byte) (s : gostring) c l :
  utf8.DecodeRuneInString (b :: s) = (c, l) -> c < 0x80 -> b2z b = c /\ l = 1%nat.
Proof.
  intros H Hc. destruct (Z.ltb_spec (b2z b) 0x80) as [Hb|Hb].
  - rewrite decode_ascii in H by assumption. injection H as <- <-. auto.
  - apply decode_nonascii in H; lia.
Qed.

(* ================================================================= *)
(** * Slices *)

Lemma from_length (l : nat) (s : gostring) : length (from l s) = (length s - l)%nat.
Proof. unfold from. apply length_skipn. Qed.

Lemma upto_from (l : nat) (s : gostring) : upto l s ++ from l s = s.
Proof. unfold upto, from. apply firstn_skipn. Qed.

Lemma upto_app (p s : gostring) : upto (length p) (p ++ s) = p.
Proof.
  unfold upto. rewrite firstn_app, Nat.sub_diag, firstn_all. cbn.
  apply app_nil_r.
Qed.

Lemma from_app (p s : gostring) : from (length p) (p ++ s) = s.
Proof.
  unfold from. rewrite skipn_app, Nat.sub_diag, skipn_all. reflexivity.
Qed.

Lemma from_app_le (l : nat) (a x : gostring) :
  (l <= length a)%nat -> from l (a ++ x) = from l a ++ x.
Proof.
  intros H. unfold from. rewrite skipn_app.
  replace (l - length a)%nat with 0%nat by lia. reflexivity.
Qed.

Lemma upto_app_le (l : nat) (a x : gostring) :
  (l <= length a)%nat -> upto l (a ++ x) = upto l a.
Proof.
  intros H. unfold upto. rewrite firstn_app.
  replace (l - length a)%nat with 0%nat by lia. cbn. apply app_nil_r.
Qed.

(** The slice bound [len(input)-len(cur)-l] of the blocks [raw] and
    [double], when [cur] is what is left of [input] after the prefix [p]
    and the rune of width [l]. *)
Lemma scanned_prefix (p cur : gostring) (l : nat) :
  (l <= length cur)%nat ->
  upto (length (p ++ cur) - length (from l cur) - l) (p ++ cur) = p.
Proof.
  intros H. rewrite from_length, length_app.
  replace (length p + length cur - (length cur - l) - l)%nat with (length p) by lia.
  apply upto_app.
Qed.

(* ================================================================= *)
(** * The loops never run out of fuel *)

Lemma decode_step (cur : gostring) c l :
  cur <> [] -> utf8.DecodeRuneInString cur = (c, l) ->
  (length (from l cur) < length cur)%nat.
Proof.
  intros Hne H. apply decode_width in H; [|assumption].
  rewrite from_length. destruct cur; [congruence|]. cbn [length] in *. lia.
Qed.

Lemma raw_loop_fuel (opts : SplitOptions) (f1 f2 : nat) (buf input cur : gostring) :
  (length cur <= f1)%nat -> (length cur <= f2)%nat ->
  raw_loop f1 opts buf input cur = raw_loop f2 opts buf input cur.
Proof.
  revert f2 cur. induction f1 as [|f1 IH]; intros f2 cur H1 H2.
  - destruct cur; [|cbn in H1; lia]. destruct f2; reflexivity.
  - destruct cur as [|b cur]; [destruct f2; reflexivity|].
    destruct f2 as [|f2]; [cbn in H2; lia|].
    cbn [raw_loop].
    destruct (utf8.DecodeRuneInString (b :: cur)) as [c l] eqn:E.
    apply decode_step in E; [|discriminate].
    repeat match goal with |- context [if ?c then _ else _] => destruct c end;
      try reflexivity.
    apply IH; cbn [length] in *; lia.
Qed.

Lemma raw_loop_some (opts : SplitOptions) (f : nat) (buf input cur : gostring) :
  (length cur <= f)%nat -> raw_loop f opts buf input cur <> None.
Proof.
  revert cur. induction f as [|f IH]; intros cur H.
  - destruct cur; [|cbn in H; lia]. cbn [raw_loop].
    destruct (0 <? length input)%nat; discriminate.
  - destruct cur as [|b cur];
      [cbn [raw_loop]; destruct (0 <? length input)%nat; discriminate|].
    cbn [raw_loop].
    destruct (utf8.DecodeRuneInString (b :: cur)) as [c l] eqn:E.
    apply decode_step in E; [|discriminate].
    repeat match goal with |- context [if ?c then _ else _] => destruct c end;
      try discriminate.
    apply IH; cbn [length] in *; lia.
Qed.

Lemma double_loop_fuel (opts : SplitOptions) (f1 f2 : nat) (buf input cur : gostring) :
  (length cur <= f1)%nat -> (length cur <= f2)%nat ->
  double_loop f1 opts buf input cur = double_loop f2 opts buf input cur.
Proof.
  revert f2 buf input cur. induction f1 as [|f1 IH]; intros f2 buf input cur H1 H2.
  - destruct cur; [|cbn in H1; lia]. destruct f2; reflexivity.
  - destruct cur as [|b cur]; [destruct f2; reflexivity|].
    destruct f2 as [|f2]; [cbn in H2; lia|].
    cbn [double_loop].
    destruct (utf8.DecodeRuneInString (b :: cur)) as [c l] eqn:E.
    apply decode_step in E; [|discriminate].
    destruct (utf8.DecodeRuneInString (from l (b :: cur))) as [c2 l2] eqn:E2.
    assert (length (from l2 (from l (b :: cur))) <= length (from l (b :: cur)))%nat
      by (rewrite (from_length l2); lia).
    repeat match goal with |- context [if ?c then _ else _] => destruct c end;
      try reflexivity; apply IH; cbn [length] in *; lia.
Qed.

Lemma double_loop_some (opts : SplitOptions) (f : nat) (buf input cur : gostring) :
  (length cur <= f)%nat -> double_loop f opts buf input cur <> None.
Proof.
  revert buf input cur. induction f as [|f IH]; intros buf input cur H.
  - destruct cur; [|cbn in H; lia]. discriminate.
  - destruct cur as [|b cur]; [discriminate|].
    cbn [double_loop].
    destruct (utf8.DecodeRuneInString (b :: cur)) as [c l] eqn:E.
    apply decode_step in E; [|discriminate].
    destruct (utf8.DecodeRuneInString (from l (b :: cur))) as [c2 l2] eqn:E2.
    assert (length (from l2 (from l (b :: cur))) <= length (from l (b :: cur)))%nat
      by (rewrite (from_length l2); lia).
    repeat match goal with |- context [if ?c then _ else _] => destruct c end;
      try discriminate; apply IH; cbn [length] in *; lia.
Qed.

Ltac if_goal :=
  repeat match goal with |- context [if ?c then _ else _] => destruct c eqn:? end.

Lemma raw_loop_goto (opts : SplitOptions) (f : nat) (buf input cur : gostring) st :
  raw_loop f opts buf input cur = Some (Goto st) ->
  (length (inp st) < length cur)%nat.
Proof.
  revert cur. induction f as [|f IH]; intros cur.
  - destruct cur; cbn [raw_loop]; [if_goal|]; discriminate.
  - destruct cur as [|b cur]; [cbn [raw_loop]; if_goal; discriminate|].
    cbn [raw_loop].
    destruct (utf8.DecodeRuneInString (b :: cur)) as [c l] eqn:E.
    apply decode_step in E; [|discriminate].
    if_goal; intros H; try discriminate;
      try (injection H as <-; cbn [inp]; assumption).
    apply IH in H. lia.
Qed.

Lemma raw_loop_word (opts : SplitOptions) (f : nat) (buf input cur : gostring) w r :
  raw_loop f opts buf input cur = Some (Word w r) ->
  (length r <= length cur)%nat /\ (cur <> [] -> (length r < length cur)%nat).
Proof.
  revert cur. induction f as [|f IH]; intros cur.
  - destruct cur; cbn [raw_loop]; [|discriminate].
    if_goal; intros [= <- <-]; cbn [length]; try (split; [lia|congruence]).
    apply Nat.ltb_ge in Heqb. split; [lia|congruence].
  - destruct cur as [|b cur].
    + cbn [raw_loop]. if_goal; intros [= <- <-]; cbn [length];
        try (split; [lia|congruence]).
      apply Nat.ltb_ge in Heqb. split; [lia|congruence].
    + cbn [raw_loop].
      destruct (utf8.DecodeRuneInString (b :: cur)) as [c l] eqn:E.
      apply decode_step in E; [|discriminate].
      if_goal; intros H; try discriminate.
      * injection H as <- <-. split; intros; lia.
      * apply IH in H. destruct H. split; intros; lia.
Qed.

Lemma double_loop_goto (opts : SplitOptions) (f : nat) (buf input cur : gostring) st :
  double_loop f opts buf input cur = Some (Goto st) ->
  (length (inp st) < length cur)%nat.
Proof.
  revert buf input cur. induction f as [|f IH]; intros buf input cur.
  - destruct cur; cbn [double_loop]; discriminate.
  - destruct cur as [|b cur]; [cbn [double_loop]; discriminate|].
    cbn [double_loop].
    destruct (utf8.DecodeRuneInString (b :: cur)) as [c l] eqn:E.
    apply decode_step in E; [|discriminate].
    destruct (utf8.DecodeRuneInString (from l (b :: cur))) as [c2 l2] eqn:E2.
    assert (length (from l2 (from l (b :: cur))) <= length (from l (b :: cur)))%nat
      by (rewrite (from_length l2); lia).
    if_goal; intros H'; try discriminate;
      try (injection H' as <-; cbn [inp]; assumption);
      apply IH in H'; lia.
Qed.

Lemma double_loop_not_word (opts : SplitOptions) (f : nat) (buf input cur : gostring) w r :
  double_loop f opts buf input cur <> Some (Word w r).
Proof.
  revert buf input cur. induction f as [|f IH]; intros buf input cur.
  - destruct cur; cbn [double_loop]; discriminate.
  - destruct cur as [|b cur]; [cbn [double_loop]; discriminate|].
    cbn [double_loop].
    destruct (utf8.DecodeRuneInString (b :: cur)) as [c l].
    destruct (utf8.DecodeRuneInString (from l (b :: cur))) as [c2 l2].
    if_goal; try discriminate; apply IH.
Qed.

(** ** [strings.IndexRune] *)

Lemma IndexByte_range (s : gostring) (c : Z) :
  -1 <= strings.IndexByte s c < Z.of_nat (length s) \/
  (s = [] /\ strings.IndexByte s c = -1).
Proof.
  induction s as [|b s IH]; [right; auto|left].
  cbn [strings.IndexByte length]. if_goal; lia.
Qed.

Lemma HasPrefix_nil (sub : gostring) : sub <> [] -> strings.HasPrefix [] sub = false.
Proof. destruct sub; [congruence|reflexivity]. Qed.

Lemma Index_lower (s sub : gostring) : -1 <= strings.Index s sub.
Proof.
  induction s as [|b s IH]; cbn [strings.Index]; if_goal; lia.
Qed.

Lemma indexFunc_in_lower rs f t : -1 <= strings.indexFunc_in rs f t.
Proof.
  induction rs as [|[i r] rs IH]; cbn [strings.indexFunc_in]; if_goal; lia.
Qed.

Lemma IndexRune_lower (s : gostring) (r : rune) : -1 <= strings.IndexRune s r.
Proof.
  unfold strings.IndexRune. if_goal; try lia.
  - destruct (IndexByte_range s r) as [H|[_ H]]; lia.
  - apply indexFunc_in_lower.
  - apply Index_lower.
Qed.

Lemma EncodeRune_nonempty (r : rune) : utf8.EncodeRune r <> [].
Proof. unfold utf8.EncodeRune. if_goal; discriminate. Qed.

Lemma IndexRune_nil (r : rune) : strings.IndexRune [] r = -1.
Proof.
  unfold strings.IndexRune. if_goal; try reflexivity.
  cbn [strings.Index]. now rewrite HasPrefix_nil by apply EncodeRune_nonempty.
Qed.

Lemma ContainsRune_nil (r : rune) : strings.ContainsRune [] r = false.
Proof. unfold strings.ContainsRune. now rewrite IndexRune_nil. Qed.

(** ** The blocks of [splitWord] *)

Lemma block_some (opts : SplitOptions) (st : wstate) : block opts st <> None.
Proof.
  unfold block. destruct (lbl st).
  - apply raw_loop_some. lia.
  - unfold escape_block. destruct (utf8.DecodeRuneInString (inp st)).
    if_goal; discriminate.
  - unfold single_block. if_goal; discriminate.
  - apply double_loop_some. lia.
Qed.

Lemma block_goto (opts : SplitOptions) (st st' : wstate) :
  block opts st = Some (Goto st') -> (length (inp st') < length (inp st))%nat.
Proof.
  unfold block. destruct (lbl st).
  - apply raw_loop_goto.
  - unfold escape_block.
    destruct (utf8.DecodeRuneInString (inp st)) as [c l] eqn:E.
    destruct (length (inp st) =? 0)%nat eqn:E0; [discriminate|].
    intros [= <-]. cbn [inp]. apply decode_step with (c := c); [|assumption].
    intros Hn. rewrite Hn in E0. discriminate.
  - unfold single_block.
    destruct (strings.IndexRune (inp st) (SingleChar opts) =? -1) eqn:E;
      [discriminate|].
    intros [= <-]. cbn [inp]. apply Z.eqb_neq in E.
    pose proof (IndexRune_lower (inp st) (SingleChar opts)).
    destruct (inp st) as [|b s] eqn:Ei; [now rewrite IndexRune_nil in E|].
    rewrite from_length. cbn [length]. lia.
  - apply double_loop_goto.
Qed.

Lemma block_word (opts : SplitOptions) (st : wstate) w r :
  block opts st = Some (Word w r) ->
  lbl st = Lraw /\ (length r <= length (inp st))%nat /\
  (inp st <> [] -> (length r < length (inp st))%nat).
Proof.
  unfold block. destruct (lbl st).
  - intros H. split; [reflexivity|]. eapply raw_loop_word, H.
  - unfold escape_block. destruct (utf8.DecodeRuneInString (inp st)).
    if_goal; discriminate.
  - unfold single_block. if_goal; discriminate.
  - intros H. now apply double_loop_not_word in H.
Qed.

Lemma run_fuel (opts : SplitOptions) (f1 f2 : nat) (st : wstate) :
  (length (inp st) < f1)%nat -> (length (inp st) < f2)%nat ->
  run f1 opts st = run f2 opts st.
Proof.
  revert f2 st. induction f1 as [|f1 IH]; intros f2 st H1 H2; [lia|].
  destruct f2 as [|f2]; [lia|]. cbn [run].
  destruct (block opts st) as [[st'|w r|e]|] eqn:E; try reflexivity.
  apply block_goto in E. apply IH; lia.
Qed.

Lemma run_some (opts : SplitOptions) (f : nat) (st : wstate) :
  (length (inp st) < f)%nat -> run f opts st <> None.
Proof.
  revert st. induction f as [|f IH]; intros st H; [lia|]. cbn [run].
  destruct (block opts st) as [[st'|w r|e]|] eqn:E; try discriminate.
  - apply block_goto in E. apply IH; lia.
  - now apply block_some in E.
Qed.

Lemma run_remainder (opts : SplitOptions) (f : nat) (st : wstate) w r e :
  run f opts st = Some (w, r, e) ->
  (length r <= length (inp st))%nat /\
  (lbl st = Lraw -> inp st <> [] -> (length r < length (inp st))%nat).
Proof.
  revert st. induction f as [|f IH]; intros st; [discriminate|]. cbn [run].
  destruct (block opts st) as [[st'|w' r'|e']|] eqn:E; try discriminate.
  - intros H. apply IH in H. apply block_goto in E. destruct H. split; intros; lia.
  - intros [= <- <- <-]. apply block_word in E. tauto.
  - intros [= <- <- <-]. cbn [length]. split; intros; [lia|].
    destruct (inp st); [congruence|cbn [length]; lia].
Qed.

Lemma splitWord_some (input : gostring) (opts : SplitOptions) :
  splitWord input opts <> None.
Proof. apply run_some. cbn [inp]. lia. Qed.

Lemma splitWord_remainder (input : gostring) (opts : SplitOptions) w r e :
  input <> [] -> splitWord input opts = Some (w, r, e) ->
  (length r < length input)%nat.
Proof.
  intros Hne H. apply run_remainder in H. cbn [lbl inp] in H. now apply H.
Qed.

(** ** The main loop *)

Lemma lookahead_continue (opts : SplitOptions) words input c l words' input' :
  lookahead opts words input c l = Some (Continue words' input') ->
  words' = words /\ (length input' < length (from l input))%nat.
Proof.
  unfold lookahead.
  destruct (c =? EscapeChar opts); [|discriminate].
  destruct (length (from l input) =? 0)%nat eqn:E0; [discriminate|].
  destruct (utf8.DecodeRuneInString (from l input)) as [c2 l2] eqn:E2.
  destruct (c2 =? 10); [|discriminate].
  intros [= <- <-]. split; [reflexivity|].
  apply decode_step with (c := c2); [|assumption].
  intros Hn. rewrite Hn in E0. discriminate.
Qed.

Lemma finish_word_continue (opts : SplitOptions) words r words' input' :
  finish_word opts words r = Continue words' input' ->
  exists w, r = (w, input', None) /\ words' = words ++ [w].
Proof.
  destruct r as [[w rem] [e|]]; cbn [finish_word]; [discriminate|].
  if_goal; try discriminate. intros [= <- <-]. eauto.
Qed.

Lemma loop_body_continue (opts : SplitOptions) sc words input words' input' :
  input <> [] ->
  loop_body opts sc words input = Some (Continue words' input') ->
  (length input' < length input)%nat.
Proof.
  intros Hne. unfold loop_body.
  destruct (utf8.DecodeRuneInString input) as [c l] eqn:E.
  pose proof (decode_step _ _ _ Hne E) as Hl.
  destruct (strings.ContainsRune sc c).
  - intros [= <- <-]. assumption.
  - destruct (lookahead opts words input c l) as [t|] eqn:El.
    + intros [= ->]. apply lookahead_continue in El. lia.
    + unfold word_turn. destruct (splitWord input opts) as [r|] eqn:Es;
        [|discriminate].
      cbn [option_map]. intros [= H]. apply finish_word_continue in H.
      destruct H as [w [-> _]]. eapply splitWord_remainder; eassumption.
Qed.

Lemma loop_body_some (opts : SplitOptions) sc words input :
  loop_body opts sc words input <> None.
Proof.
  unfold loop_body. destruct (utf8.DecodeRuneInString input) as [c l].
  destruct (strings.ContainsRune sc c); [discriminate|].
  destruct (lookahead opts words input c l); [discriminate|].
  unfold word_turn. pose proof (splitWord_some input opts).
  destruct (splitWord input opts); [discriminate|congruence].
Qed.

Lemma main_loop_fuel (opts : SplitOptions) sc (f1 f2 : nat) words input :
  (length input <= f1)%nat -> (length input <= f2)%nat ->
  main_loop f1 opts sc words input = main_loop f2 opts sc words input.
Proof.
  revert f2 words input. induction f1 as [|f1 IH]; intros f2 words input H1 H2.
  - destruct input; [|cbn in H1; lia]. destruct f2; reflexivity.
  - destruct input as [|b input]; [destruct f2; reflexivity|].
    destruct f2 as [|f2]; [cbn in H2; lia|].
    cbn [main_loop length Nat.ltb Nat.leb].
    destruct (loop_body opts sc words (b :: input)) as [[ws i|ws e]|] eqn:E;
      try reflexivity.
    apply loop_body_continue in E; [|discriminate].
    apply IH; cbn [length] in *; lia.
Qed.

Lemma main_loop_some (opts : SplitOptions) sc (f : nat) words input :
  (length input <= f)%nat -> main_loop f opts sc words input <> None.
Proof.
  revert words input. induction f as [|f IH]; intros words input H.
  - destruct input; [discriminate|cbn in H; lia].
  - destruct input as [|b input]; [discriminate|].
    cbn [main_loop length Nat.ltb Nat.leb].
    destruct (loop_body opts sc words (b :: input)) as [[ws i|ws e]|] eqn:E;
      try discriminate.
    + apply loop_body_continue in E; [|discriminate].
      apply IH; cbn [length] in *; lia.
    + now apply loop_body_some in E.
Qed.

(** [SplitWithOptions] returns on every input. *)
Lemma SplitWithOptions_some (input : gostring) (opts : SplitOptions) :
  SplitWithOptions input opts <> None.
Proof.
  unfold SplitWithOptions. if_goal; try discriminate; apply main_loop_some; lia.
Qed.

Lemma SplitWithOptions_returns (input : gostring) (opts : SplitOptions) :
  exists words err, SplitWithOptions input opts = Some (words, err).
Proof.
  pose proof (SplitWithOptions_some input opts) as H.
  destruct (SplitWithOptions input opts) as [[ws e]|]; [eauto|congruence].
Qed.

(* ================================================================= *)
(** * The loops of [strings] never run out of fuel *)

Lemma range_from_fuel (f1 f2 i : nat) (s : gostring) :
  (length s <= f1)%nat -> (length s <= f2)%nat ->
  strings.range_from f1 i s = strings.range_from f2 i s.
Proof.
  revert f2 i s. induction f1 as [|f1 IH]; intros f2 i s H1 H2.
  - destruct s; [|cbn in H1; lia]. destruct f2; reflexivity.
  - destruct s as [|b s]; [destruct f2; reflexivity|].
    destruct f2 as [|f2]; [cbn in H2; lia|]. cbn [strings.range_from].
    destruct (utf8.DecodeRuneInString (b :: s)) as [c l] eqn:E.
    apply decode_step in E; [|discriminate].
    f_equal. apply IH; cbn [length] in *; lia.
Qed.

Lemma trimLeftUnicode_fuel (f1 f2 : nat) (s cutset : gostring) :
  (length s <= f1)%nat -> (length s <= f2)%nat ->
  strings.trimLeftUnicode f1 s cutset = strings.trimLeftUnicode f2 s cutset.
Proof.
  revert f2 s. induction f1 as [|f1 IH]; intros f2 s H1 H2.
  - destruct s; [|cbn in H1; lia]. destruct f2; reflexivity.
  - destruct s as [|b s]; [destruct f2; reflexivity|].
    destruct f2 as [|f2]; [cbn in H2; lia|]. cbn [strings.trimLeftUnicode].
    assert (Hn : forall r n,
               (if utf8.RuneSelf <=? b2z b then utf8.DecodeRuneInString (b :: s)
                else (b2z b, 1%nat)) = (r, n) ->
               (length (from n (b :: s)) < length (b :: s))%nat).
    { intros r n. destruct (utf8.RuneSelf <=? b2z b).
      - apply decode_step. discriminate.
      - intros [= _ <-]. cbn [from skipn length]. lia. }
    destruct (if utf8.RuneSelf <=? b2z b then _ else _) as [r n].
    specialize (Hn r n eq_refl).
    destruct (negb (strings.ContainsRune cutset r)); [reflexivity|].
    apply IH; cbn [length] in *; lia.
Qed.

Lemma lastStart_le (s : gostring) (lim start : Z) (k : nat) :
  utf8.lastStart s lim start k <= start.
Proof.
  revert start. induction k as [|k IH]; intros start; cbn [utf8.lastStart]; [lia|].
  if_goal; try lia. specialize (IH (start - 1)). lia.
Qed.

(** The width [DecodeLastRuneInString] returns. *)
Lemma decode_last_width (s : gostring) r n :
  s <> [] -> utf8.DecodeLastRuneInString s = (r, n) -> (1 <= n <= length s)%nat.
Proof.
  intros Hne. unfold utf8.DecodeLastRuneInString.
  assert (Hl : (0 < length s)%nat) by (destruct s; [congruence|cbn; lia]).
  destruct (Z.eqb_spec (Z.of_nat (length s)) 0); [lia|].
  destruct (utf8.at_ s _ <? utf8.RuneSelf); [intros [= _ <-]; lia|].
  match goal with
  | |- context [utf8.lastStart ?a ?b ?c ?d] =>
      pose proof (lastStart_le a b c d) as Hls
  end.
  set (start := Z.max 0 (utf8.lastStart _ _ _ _)) in *.
  destruct (utf8.DecodeRuneInString (from (Z.to_nat start) s)) as [r' n'] eqn:E.
  destruct (Z.eqb_spec (start + Z.of_nat n') (Z.of_nat (length s)));
    cbn [negb]; intros Hp; apply pair_equal_spec in Hp; destruct Hp as [_ <-];
    [|lia].
  assert (0 <= start < Z.of_nat (length s)) by (unfold start; lia).
  destruct (from (Z.to_nat start) s) eqn:Ef.
  - rewrite decode_nil in E. injection E as _ <-.
    assert (length (from (Z.to_nat start) s) = 0%nat) as Hf by now rewrite Ef.
    rewrite from_length in Hf. lia.
  - rewrite <- Ef in E. apply decode_width in E; [|rewrite Ef; discriminate].
    rewrite from_length in E. lia.
Qed.

Lemma upto_length (i : nat) (s : gostring) :
  (i <= length s)%nat -> length (upto i s) = i.
Proof. intros H. unfold upto. rewrite length_firstn. lia. Qed.

Lemma lastIndexFunc_from_fuel (f1 f2 : nat) (s : gostring) (i : nat) g t :
  (i <= length s)%nat -> (i <= f1)%nat -> (i <= f2)%nat ->
  strings.lastIndexFunc_from f1 s i g t = strings.lastIndexFunc_from f2 s i g t.
Proof.
  revert f2 i. induction f1 as [|f1 IH]; intros f2 i Hi H1 H2.
  - replace i with 0%nat by lia. destruct f2; reflexivity.
  - destruct f2 as [|f2]; [replace i with 0%nat by lia; reflexivity|].
    cbn [strings.lastIndexFunc_from]. destruct (Nat.ltb_spec 0 i); [|reflexivity].
    destruct (utf8.DecodeLastRuneInString (upto i s)) as [r n] eqn:E.
    apply decode_last_width in E.
    + rewrite upto_length in E by assumption.
      destruct (Bool.eqb (g r) t); [reflexivity|]. apply IH; lia.
    + intros Hn. apply (f_equal (@length byte)) in Hn.
      rewrite upto_length in Hn by assumption. cbn in Hn. lia.
Qed.

Lemma trimRightUnicode_fuel (f1 f2 : nat) (s cutset : gostring) :
  (length s <= f1)%nat -> (length s <= f2)%nat ->
  strings.trimRightUnicode f1 s cutset = strings.trimRightUnicode f2 s cutset.
Proof.
  revert f2 s. induction f1 as [|f1 IH]; intros f2 s H1 H2.
  - destruct s; [|cbn in H1; lia]. destruct f2; reflexivity.
  - destruct s as [|b s]; [destruct f2; reflexivity|].
    destruct f2 as [|f2]; [cbn in H2; lia|]. cbn [strings.trimRightUnicode].
    set (last := utf8.at_ (b :: s) (length (b :: s) - 1)).
    assert (Hn : forall r n,
               (if utf8.RuneSelf <=? last then utf8.DecodeLastRuneInString (b :: s)
                else (last, 1%nat)) = (r, n) ->
               (1 <= n <= length (b :: s))%nat).
    { intros r n. destruct (utf8.RuneSelf <=? last).
      - apply decode_last_width. discriminate.
      - intros [= _ <-]. cbn [length]. lia. }
    destruct (if utf8.RuneSelf <=? last then _ else _) as [r n].
    specialize (Hn r n eq_refl).
    destruct (negb (strings.ContainsRune cutset r)); [reflexivity|].
    apply IH; rewrite upto_length by lia; cbn [length] in *; lia.
Qed.

(* ================================================================= *)
(** * The length bound *)

Lemma lookahead_return (opts : SplitOptions) words input c l ws e :
  lookahead opts words input c l = Some (Return ws e) ->
  ws = words /\ e = Some UnterminatedEscapeError.
Proof.
  unfold lookahead. destruct (utf8.DecodeRuneInString (from l input)).
  if_goal; try discriminate. intros [= <- <-]. auto.
Qed.

Lemma loop_body_words (opts : SplitOptions) sc words input t :
  loop_body opts sc words input = Some t ->
  match t with
  | Continue ws _ =>
      ws = words \/
      exists w, ws = words ++ [w] /\ Limit opts <> Z.of_nat (length ws) + 1
  | Return ws e =>
      (ws = words /\ e <> None) \/
      exists w, Limit opts = Z.of_nat (length (words ++ [w])) + 1 /\ e = None /\
                (ws = words ++ [w] \/ exists tl, ws = (words ++ [w]) ++ [tl])
  end.
Proof.
  unfold loop_body. destruct (utf8.DecodeRuneInString input) as [c l].
  destruct (strings.ContainsRune sc c); [intros [= <-]; now left|].
  destruct (lookahead opts words input c l) as [[ws i|ws e]|] eqn:El.
  - intros [= <-]. apply lookahead_continue in El. left. tauto.
  - intros [= <-]. apply lookahead_return in El. left.
    destruct El as [-> ->]. split; [reflexivity|discriminate].
  - unfold word_turn. destruct (splitWord input opts) as [[[w r] [e|]]|];
      cbn [option_map finish_word]; try discriminate.
    + intros [= <-]. left. split; [reflexivity|discriminate].
    + destruct (Z.eqb_spec (Limit opts) (Z.of_nat (length (words ++ [w])) + 1)).
      * destruct (0 <? length (strings.TrimSpace r))%nat; intros [= <-]; right;
          exists w; eauto 6.
      * intros [= <-]. right. eauto.
Qed.

Lemma main_loop_bound (opts : SplitOptions) sc (f : nat) words input ws e :
  Z.of_nat (length words) + 2 <= Limit opts ->
  main_loop f opts sc words input = Some (ws, e) ->
  Z.of_nat (length ws) <= Limit opts.
Proof.
  revert words input. induction f as [|f IH]; intros words input Hw.
  - destruct input; cbn; [|discriminate]. intros [= <- <-]. lia.
  - cbn [main_loop]. destruct (0 <? length input)%nat; [|intros [= <- <-]; lia].
    destruct (loop_body opts sc words input) as [[ws' i|ws' e']|] eqn:E;
      [| |discriminate]; apply loop_body_words in E.
    + apply IH. destruct E as [->|[w [-> Hn]]]; [assumption|].
      rewrite length_app in *. cbn [length] in *. lia.
    + intros [= <- <-]. destruct E as [[-> _]|[w [Hl [_ [->|[tl ->]]]]]];
        rewrite ?length_app in *; cbn [length] in *; lia.
Qed.

(** C6: when [limit >= 0] the call returns, and what it returns has at
    most [limit] words. *)
Theorem C6_length_bound (input : gostring) (opts : SplitOptions) :
  0 <= Limit opts ->
  exists words err,
    SplitWithOptions input opts = Some (words, err) /\
    Z.of_nat (length words) <= Limit opts.
Proof.
  intros Hl. destruct (SplitWithOptions_returns input opts) as [ws [e H]].
  exists ws, e. split; [assumption|]. revert H. unfold SplitWithOptions.
  destruct (Z.eqb_spec (Limit opts) 0); [intros [= <- <-]; cbn; lia|].
  destruct (Z.eqb_spec (Limit opts) 1).
  - if_goal; intros [= <- <-]; cbn [length]; lia.
  - apply main_loop_bound. cbn [length]. lia.
Qed.

Lemma C6_length_bound_witness :
  0 <= Limit (with_Limit DefaultSplitOptions 2) /\
  exists words err,
    SplitWithOptions ex_abcd (with_Limit DefaultSplitOptions 2) = Some (words, err) /\
    Z.of_nat (length words) <= Limit (with_Limit DefaultSplitOptions 2).
Proof.
  split; [cbn; lia|]. apply (C6_length_bound ex_abcd (with_Limit DefaultSplitOptions 2)).
  cbn; lia.
Defined.

(* ================================================================= *)
(** * Single quotes *)

Lemma IndexByte_first (p t : gostring) (q : byte) (c : Z) :
  Forall (fun y => b2z y <> c) p -> b2z q = c ->
  strings.IndexByte (p ++ q :: t) c = Z.of_nat (length p).
Proof.
  intros Hp Hq. induction Hp as [|y p Hy Hp IH]; cbn [app strings.IndexByte length].
  - now rewrite Hq, Z.eqb_refl.
  - apply Z.eqb_neq in Hy. rewrite Hy, IH.
    destruct (Z.ltb_spec (Z.of_nat (length p)) 0); lia.
Qed.

Lemma IndexByte_none (p : gostring) (c : Z) :
  Forall (fun y => b2z y <> c) p -> strings.IndexByte p c = -1.
Proof.
  intros Hp. induction Hp as [|y p Hy Hp IH]; cbn [strings.IndexByte]; [reflexivity|].
  apply Z.eqb_neq in Hy. now rewrite Hy, IH.
Qed.

Lemma not_In_b2z (q : byte) (p : gostring) :
  ~ In q p -> Forall (fun y => b2z y <> b2z q) p.
Proof.
  intros H. apply Forall_forall. intros y Hy E. apply b2z_inj in E. now subst.
Qed.

Lemma not_quote (p : gostring) :
  ~ In x27 p -> Forall (fun y => b2z y <> 39) p.
Proof. apply (not_In_b2z x27). Qed.

(** The block [single] under the default options: the body up to the
    next quote goes to the buffer. *)
Lemma single_block_default (buf body rest : gostring) :
  ~ In x27 body ->
  single_block DefaultSplitOptions buf (body ++ x27 :: rest) =
  Some (Goto (mkW Lraw (buf ++ body) rest)).
Proof.
  intros H. unfold single_block, strings.IndexRune.
  cbn [SingleChar DefaultSplitOptions]. unfold DefaultSingleChar.
  change ((0 <=? 39) && (39 <? utf8.RuneSelf)) with true. cbv iota.
  rewrite (IndexByte_first body rest x27 39 (not_quote _ H) eq_refl).
  destruct (Z.eqb_spec (Z.of_nat (length body)) (-1)); [lia|].
  replace (Z.to_nat (Z.of_nat (length body) + 1)) with (length (body ++ [x27]))
    by (rewrite length_app; cbn [length]; lia).
  rewrite Nat2Z.id, upto_app.
  change (body ++ x27 :: rest) with (body ++ [x27] ++ rest).
  now rewrite app_assoc, from_app.
Qed.

Lemma single_block_unterminated (buf body : gostring) :
  ~ In x27 body ->
  single_block DefaultSplitOptions buf body = Some (Fail UnterminatedSingleQuoteError).
Proof.
  intros H. unfold single_block, strings.IndexRune.
  cbn [SingleChar DefaultSplitOptions]. unfold DefaultSingleChar.
  change ((0 <=? 39) && (39 <? utf8.RuneSelf)) with true. cbv iota.
  now rewrite (IndexByte_none body 39 (not_quote _ H)).
Qed.

(** The block [raw] entered at a quote under the default options. *)
Lemma raw_block_quote (buf rest : gostring) :
  raw_block DefaultSplitOptions buf (x27 :: rest) =
  Some (Goto (mkW Lsingle buf rest)).
Proof.
  unfold raw_block. cbn [length raw_loop].
  rewrite decode_ascii by (vm_compute; reflexivity).
  change (b2z x27 =? SingleChar DefaultSplitOptions) with true. cbv iota.
  unfold from. cbn [skipn length].
  replace (S (length rest) - length rest - 1)%nat with 0%nat by lia.
  unfold upto. cbn [firstn]. now rewrite app_nil_r.
Qed.

(** C7: under the default options a single-quoted body without a quote
    in it comes back as the one word, byte for byte. *)
Theorem C7_quote_transparency (b : gostring) :
  ~ In x27 b -> Split ([x27] ++ b ++ [x27]) = Some ([b], None).
Proof.
  intros Hb. unfold Split, SplitWithOptions.
  cbn [Limit SplitChars DefaultSplitOptions]. cbn [app length].
  change (-1 =? 0) with false. change (-1 =? 1) with false.
  change (length DefaultSplitChars =? 0)%nat with false. cbv iota.
  cbn [main_loop Nat.ltb Nat.leb]. unfold loop_body.
  rewrite decode_ascii by (vm_compute; reflexivity).
  change (strings.ContainsRune DefaultSplitChars (b2z x27)) with false. cbv iota.
  change (lookahead DefaultSplitOptions [] (x27 :: b ++ [x27]) (b2z x27) 1) with (@None turn).
  cbv iota. unfold word_turn, splitWord. cbn [length run block lbl buf inp].
  rewrite raw_block_quote. cbn [run block lbl buf inp].
  rewrite length_app. cbn [length].
  replace (length b + 1)%nat with (S (length b)) by lia. cbn [run block lbl buf inp].
  rewrite single_block_default by assumption.
  cbn [run block lbl buf inp app option_map finish_word Limit DefaultSplitOptions length].
  unfold raw_block. cbn [length raw_loop Nat.ltb Nat.leb].
  change (-1 =? Z.of_nat (length ([] ++ [b])) + 1) with false.
  cbv iota. cbn [app]. destruct (length b); reflexivity.
Qed.

Lemma C7_quote_transparency_witness :
  ~ In x27 (gs "a b\c") /\
  Split ([x27] ++ gs "a b\c" ++ [x27]) = Some ([gs "a b\c"], None).
Proof.
  assert (H : ~ In x27 (gs "a b\c")) by (cbn; intuition discriminate).
  split; [exact H|]. exact (C7_quote_transparency (gs "a b\c") H).
Defined.

(* ================================================================= *)
(** * Literal text in the block [raw] *)

Lemma runes_from_fuel (f1 f2 : nat) (s : gostring) :
  (length s <= f1)%nat -> (length s <= f2)%nat -> runes_from f1 s = runes_from f2 s.
Proof.
  revert f2 s. induction f1 as [|f1 IH]; intros f2 s H1 H2.
  - destruct s; [|cbn in H1; lia]. destruct f2; reflexivity.
  - destruct s as [|b s]; [destruct f2; reflexivity|].
    destruct f2 as [|f2]; [cbn in H2; lia|]. cbn [runes_from].
    destruct (utf8.DecodeRuneInString (b :: s)) as [c l] eqn:E.
    apply decode_step in E; [|discriminate].
    f_equal. apply IH; cbn [length] in *; lia.
Qed.

Lemma runes_cons (s : gostring) c l :
  s <> [] -> utf8.DecodeRuneInString s = (c, l) -> runes s = c :: runes (from l s).
Proof.
  intros Hne E. unfold runes. destruct s as [|b s]; [congruence|].
  cbn [length runes_from]. rewrite E. f_equal.
  apply decode_step in E; [|discriminate].
  apply runes_from_fuel; cbn [length] in *; lia.
Qed.

Lemma ascii_head_nil : ascii_head [].
Proof. intros y s' H. discriminate. Qed.

Lemma ascii_head_cons (y : byte) (s : gostring) : b2z y < 0x80 -> ascii_head (y :: s).
Proof. intros H y' s' [= <- <-]. assumption. Qed.

Lemma raw_loop_nil (opts : SplitOptions) (f : nat) (buf input : gostring) :
  raw_loop f opts buf input [] = Some (Word (buf ++ input) []).
Proof.
  destruct f; cbn [raw_loop]; destruct input; cbn; now rewrite ?app_nil_r.
Qed.

(** One turn of the loop of [raw] at a rune that is not special. *)
Lemma raw_loop_step (opts : SplitOptions) (f : nat) (buf input cur : gostring) c l :
  cur <> [] -> utf8.DecodeRuneInString cur = (c, l) -> is_special opts c = false ->
  raw_loop (S f) opts buf input cur = raw_loop f opts buf input (from l cur).
Proof.
  intros Hne E Hc. destruct cur as [|b cur]; [congruence|]. cbn [raw_loop].
  rewrite E. unfold is_special, is_quote in Hc.
  repeat (apply orb_false_elim in Hc; destruct Hc as [Hc ?]).
  now rewrite Hc, H, H0, H1.
Qed.

(** The loop of [raw] runs over literal text [u]. *)
Lemma raw_loop_plain (opts : SplitOptions) (u : gostring) :
  forall (f : nat) (buf input rest : gostring),
    plain opts u = true -> ascii_head rest -> (length (u ++ rest) <= f)%nat ->
    raw_loop f opts buf input (u ++ rest) =
    raw_loop (length rest) opts buf input rest.
Proof.
  remember (length u) as n eqn:Hn. revert u Hn.
  induction n as [n IH] using lt_wf_ind. intros u Hn f buf input rest Hu Hr Hf.
  destruct u as [|b u].
  - cbn [app] in *. apply raw_loop_fuel; lia.
  - destruct (utf8.DecodeRuneInString (b :: u)) as [c l] eqn:E.
    assert (Hne : b :: u <> []) by discriminate.
    pose proof (decode_width _ _ _ Hne E) as [Hl _].
    unfold plain in Hu. rewrite (runes_cons _ _ _ Hne E) in Hu.
    cbn [forallb] in Hu. apply andb_true_iff in Hu. destruct Hu as [Hc Hu].
    apply negb_true_iff in Hc.
    destruct f as [|f]; [cbn in Hf; lia|].
    rewrite (raw_loop_step opts f buf input ((b :: u) ++ rest) c l);
      [|discriminate|now rewrite decode_app|assumption].
    rewrite from_app_le by lia.
    apply (IH (length (from l (b :: u)))); try assumption; try reflexivity.
    + rewrite from_length. subst n. cbn [length] in *. lia.
    + rewrite length_app, from_length. rewrite length_app in Hf.
      cbn [length] in *. lia.
Qed.

(* ================================================================= *)
(** * Unfolding [splitWord] and the main loop *)

Lemma splitWord_exec (input : gostring) (opts : SplitOptions) :
  splitWord input opts = exec opts (mkW Lraw [] input).
Proof. reflexivity. Qed.

Lemma exec_goto (opts : SplitOptions) (st st' : wstate) :
  block opts st = Some (Goto st') -> exec opts st = exec opts st'.
Proof.
  intros H. unfold exec. change (run (S (length (inp st))) opts st) with
    (match block opts st with
     | None => None
     | Some (Goto st') => run (length (inp st)) opts st'
     | Some (Word w r) => Some (w, r, None)
     | Some (Fail e) => Some ([], [], Some e)
     end).
  rewrite H. apply block_goto in H. apply run_fuel; lia.
Qed.

Lemma exec_word (opts : SplitOptions) (st : wstate) w r :
  block opts st = Some (Word w r) -> exec opts st = Some (w, r, None).
Proof. intros H. unfold exec. cbn [run]. now rewrite H. Qed.

Lemma exec_fail (opts : SplitOptions) (st : wstate) e :
  block opts st = Some (Fail e) -> exec opts st = Some ([], [], Some e).
Proof. intros H. unfold exec. cbn [run]. now rewrite H. Qed.

Lemma loop_nil (opts : SplitOptions) sc words : loop opts sc words [] = Some (words, None).
Proof. reflexivity. Qed.

Lemma loop_turn (opts : SplitOptions) sc words input t :
  input <> [] -> loop_body opts sc words input = Some t ->
  loop opts sc words input = after opts sc t.
Proof.
  intros Hne H. unfold loop. destruct input as [|b input]; [congruence|].
  cbn [length main_loop Nat.ltb Nat.leb]. rewrite H.
  destruct t as [ws i|ws e]; cbn [after]; [|reflexivity].
  apply loop_body_continue in H; [|discriminate].
  apply main_loop_fuel; cbn [length] in *; lia.
Qed.

Lemma SplitWithOptions_loop (input : gostring) (opts : SplitOptions) :
  Limit opts <> 0 -> Limit opts <> 1 ->
  SplitWithOptions input opts = loop opts (resolved opts) [] input.
Proof.
  intros H0 H1. unfold SplitWithOptions.
  apply Z.eqb_neq in H0, H1. now rewrite H0, H1.
Qed.

Lemma Split_loop (input : gostring) :
  Split input = loop DefaultSplitOptions DefaultSplitChars [] input.
Proof. reflexivity. Qed.

(* ================================================================= *)
(** * Backslash escapes inside a word *)

Lemma raw_loop_at_escape (f : nat) (buf p rest : gostring) :
  raw_loop (S f) DefaultSplitOptions buf (p ++ x5c :: rest) (x5c :: rest) =
  Some (Goto (mkW Lescape (buf ++ p) rest)).
Proof.
  cbn [raw_loop]. rewrite decode_ascii by (vm_compute; reflexivity).
  change (b2z x5c =? SingleChar DefaultSplitOptions) with false.
  change (b2z x5c =? DoubleChar DefaultSplitOptions) with false.
  change (b2z x5c =? EscapeChar DefaultSplitOptions) with true. cbv iota.
  rewrite scanned_prefix by (cbn [length]; lia). reflexivity.
Qed.

Lemma plain_head (opts : SplitOptions) (b : byte) (u rest : gostring) c l :
  plain opts (b :: u) = true -> ascii_head rest ->
  utf8.DecodeRuneInString ((b :: u) ++ rest) = (c, l) ->
  is_special opts c = false.
Proof.
  intros Hu Hr E. rewrite decode_app in E by (discriminate || assumption).
  unfold plain in Hu. rewrite (runes_cons _ c l) in Hu by (discriminate || assumption).
  cbn [forallb] in Hu. apply andb_true_iff in Hu. now apply negb_true_iff.
Qed.

Lemma is_special_false (opts : SplitOptions) c :
  is_special opts c = false ->
  (c =? SingleChar opts) = false /\ (c =? DoubleChar opts) = false /\
  (c =? EscapeChar opts) = false /\ strings.ContainsRune (SplitChars opts) c = false.
Proof.
  unfold is_special, is_quote. intros H.
  repeat (apply orb_false_elim in H; destruct H as [H ?]). auto.
Qed.

(** The block [escape] on one code point [cp]: a newline is dropped,
    another code point goes to the buffer as it is. *)
Lemma escape_block_code_point (opts : SplitOptions) (acc cp v : gostring) (r : rune) :
  cp <> [] -> utf8.DecodeRuneInString (cp ++ v) = (r, length cp) ->
  block opts (mkW Lescape acc (cp ++ v)) =
  Some (Goto (mkW Lraw (if r =? 10 then acc else acc ++ cp) v)).
Proof.
  intros Hcp Hr. unfold block; cbn [lbl buf inp]. unfold escape_block. rewrite Hr.
  destruct (length (cp ++ v) =? 0)%nat eqn:E0.
  - apply Nat.eqb_eq in E0. rewrite length_app in E0.
    destruct cp; [congruence|cbn in E0; lia].
  - now rewrite upto_app, from_app.
Qed.

(** C8: in the block [escape], under every configuration, a newline
    adds nothing to the word and another code point, the bytes [cp], adds
    exactly [cp].  Under the default options, in a word that begins with
    literal text [u], a backslash and the code point that follows it
    split accordingly with the backslash dropped: with [u] the text foo,
    [cp] a space and [v] the text bar the result is the one word
    [foo bar]. *)
Theorem C8_escape_in_word (u cp v : gostring) (r : rune) :
  u <> [] -> plain DefaultSplitOptions u = true ->
  plain DefaultSplitOptions v = true ->
  cp <> [] -> utf8.DecodeRuneInString (cp ++ v) = (r, length cp) ->
  (forall opts acc,
     block opts (mkW Lescape acc (cp ++ v)) =
     Some (Goto (mkW Lraw (if r =? 10 then acc else acc ++ cp) v))) /\
  Split (u ++ [x5c] ++ cp ++ v) =
  Some ([if r =? 10 then u ++ v else u ++ cp ++ v], None).
Proof.
  intros Hne Hu Hv Hcp Hr.
  split; [intros opts acc; now apply escape_block_code_point|].
  rewrite Split_loop.
  assert (Ha : ascii_head ([x5c] ++ cp ++ v))
    by (apply ascii_head_cons; vm_compute; reflexivity).
  destruct u as [|b u]; [congruence|].
  destruct (utf8.DecodeRuneInString ((b :: u) ++ [x5c] ++ cp ++ v)) as [c l] eqn:E.
  pose proof (plain_head _ _ _ _ _ _ Hu Ha E) as Hc.
  apply is_special_false in Hc. destruct Hc as (_ & _ & Hesc & Hsep).
  assert (Hw : splitWord ((b :: u) ++ [x5c] ++ cp ++ v) DefaultSplitOptions =
               Some ((if r =? 10 then (b :: u) ++ v else (b :: u) ++ cp ++ v), [], None)).
  { rewrite splitWord_exec.
    erewrite exec_goto with (st' := mkW Lescape (b :: u) (cp ++ v)).
    2:{ unfold block; cbn [lbl buf inp]. unfold raw_block.
        rewrite raw_loop_plain by (assumption || lia).
        cbn [app length]. apply (raw_loop_at_escape _ [] (b :: u)). }
    rewrite (exec_goto _ _ _
               (escape_block_code_point DefaultSplitOptions (b :: u) cp v r Hcp Hr)).
    apply exec_word. unfold block; cbn [lbl buf inp]. unfold raw_block.
    rewrite <- (app_nil_r v) at 3.
    rewrite raw_loop_plain by (rewrite ?app_nil_r; auto using ascii_head_nil).
    rewrite raw_loop_nil. destruct (r =? 10); now rewrite <- ?app_assoc. }
  erewrite loop_turn; [|discriminate|].
  2:{ unfold loop_body. rewrite E. cbn [SplitChars DefaultSplitOptions] in Hsep.
      rewrite Hsep. unfold lookahead. rewrite Hesc. unfold word_turn.
      rewrite Hw. cbn [option_map finish_word]. reflexivity. }
  reflexivity.
Qed.

Lemma C8_escape_in_word_witness :
  (gs "foo" <> [] /\ plain DefaultSplitOptions (gs "foo") = true /\
   plain DefaultSplitOptions (gs "bar") = true /\ [x20] <> [] /\
   utf8.DecodeRuneInString ([x20] ++ gs "bar") = (32, length [x20])) /\
  (forall opts acc,
     block opts (mkW Lescape acc ([x20] ++ gs "bar")) =
     Some (Goto (mkW Lraw (acc ++ [x20]) (gs "bar")))) /\
  Split ex_escaped = Some ([gs "foo bar"], None).
Proof.
  assert (H1 : gs "foo" <> []) by discriminate.
  assert (H2 : [x20] <> []) by discriminate.
  split; [repeat split; assumption|].
  exact (C8_escape_in_word (gs "foo") [x20] (gs "bar") 32
           H1 eq_refl eq_refl H2 eq_refl).
Defined.

(* ================================================================= *)
(** * Empty [SplitChars] *)

(** C1: with an empty [SplitChars] the main loop uses the default split
    characters but [splitWord] reads [opts.SplitChars], which is still
    empty, and does not end the word at a space: the two calls differ. *)
Theorem C1_empty_split_chars_differs :
  SplitWithOptions (gs "a b") (with_SplitChars DefaultSplitOptions []) =
    Some ([gs "a b"], None) /\
  SplitWithOptions (gs "a b") DefaultSplitOptions = Some ([gs "a"; gs "b"], None).
Proof. split; vm_compute; reflexivity. Qed.

(* ================================================================= *)
(** * Words returned with an error *)

Lemma loop_body_continue_word (opts : SplitOptions) sc words input words' input' :
  loop_body opts sc words input = Some (Continue words' input') ->
  words' = words \/
  exists w, splitWord input opts = Some (w, input', None) /\ words' = words ++ [w].
Proof.
  unfold loop_body. destruct (utf8.DecodeRuneInString input) as [c l].
  destruct (strings.ContainsRune sc c); [intros [= <- _]; now left|].
  destruct (lookahead opts words input c l) as [t|] eqn:El.
  - intros [= ->]. apply lookahead_continue in El. left. tauto.
  - unfold word_turn. destruct (splitWord input opts) as [r|]; [|discriminate].
    cbn [option_map]. intros [= H]. apply finish_word_continue in H.
    destruct H as [w [-> ->]]. right. eauto.
Qed.

Lemma loop_body_error (opts : SplitOptions) sc words input ws e :
  loop_body opts sc words input = Some (Return ws (Some e)) -> ws = words.
Proof.
  intros H. apply loop_body_words in H.
  destruct H as [[-> _]|[w [_ [H _]]]]; [reflexivity|discriminate].
Qed.

Lemma main_loop_error (opts : SplitOptions) sc (f : nat) words input ws e :
  main_loop f opts sc words input = Some (ws, Some e) ->
  exists rest,
    advances opts sc words input ws rest /\ rest <> [] /\
    loop_body opts sc ws rest = Some (Return ws (Some e)).
Proof.
  revert words input. induction f as [|f IH]; intros words input.
  - destruct input; cbn; discriminate.
  - cbn [main_loop]. destruct input as [|b input]; [discriminate|].
    cbn [length Nat.ltb Nat.leb].
    destruct (loop_body opts sc words (b :: input)) as [[ws' i|ws' e']|] eqn:E;
      [| |discriminate].
    + intros H. apply IH in H. destruct H as [rest [Ha Hr]].
      exists rest. split; [|assumption].
      eapply advances_turn; [discriminate|eassumption|assumption].
    + intros [= -> ->]. pose proof (loop_body_error _ _ _ _ _ _ E) as ->.
      exists (b :: input). split; [constructor|]. split; [discriminate|assumption].
Qed.

(** C10: when [SplitWithOptions] returns an error, the words it returns
    with it are the words of the turns of the main loop that went well
    before, in their order: the loop went from [([], input)] to
    [(words, rest)], each turn keeping the words or appending the word
    [splitWord] returned, and the turn at [rest] failed and returned
    [words] as they were. *)
Theorem C10_partial_words_on_error (input : gostring) (opts : SplitOptions)
    (words : list gostring) (e : error) :
  SplitWithOptions input opts = Some (words, Some e) ->
  (exists rest,
     advances opts (resolved opts) [] input words rest /\ rest <> [] /\
     loop_body opts (resolved opts) words rest = Some (Return words (Some e))) /\
  (forall ws i ws' i',
     loop_body opts (resolved opts) ws i = Some (Continue ws' i') ->
     ws' = ws \/
     exists w, splitWord i opts = Some (w, i', None) /\ ws' = ws ++ [w]).
Proof.
  intros H. split; [|intros ws i ws' i'; apply loop_body_continue_word].
  unfold SplitWithOptions in H. fold (resolved opts) in H.
  destruct (Limit opts =? 0); [discriminate|].
  destruct (Limit opts =? 1).
  - destruct (0 <? length _)%nat; discriminate.
  - eapply main_loop_error, H.
Qed.

Lemma C10_partial_words_on_error_witness :
  Split (gs "foo 'bar") = Some ([gs "foo"], Some UnterminatedSingleQuoteError) /\
  (exists rest,
     advances DefaultSplitOptions DefaultSplitChars [] (gs "foo 'bar") [gs "foo"] rest /\
     rest <> [] /\
     loop_body DefaultSplitOptions DefaultSplitChars [gs "foo"] rest =
       Some (Return [gs "foo"] (Some UnterminatedSingleQuoteError))).
Proof.
  assert (H : Split (gs "foo 'bar") =
              Some ([gs "foo"], Some UnterminatedSingleQuoteError))
    by (vm_compute; reflexivity).
  split; [exact H|].
  exact (proj1 (C10_partial_words_on_error (gs "foo 'bar") DefaultSplitOptions
                  [gs "foo"] UnterminatedSingleQuoteError H)).
Defined.

(* ================================================================= *)
(** * Empty words *)

Lemma unquoted_cons (opts : SplitOptions) (s : gostring) c l :
  s <> [] -> utf8.DecodeRuneInString s = (c, l) -> unquoted opts s = true ->
  is_quote opts c = false /\ unquoted opts (from l s) = true.
Proof.
  intros Hne E H. unfold unquoted in *. rewrite (runes_cons _ _ _ Hne E) in H.
  cbn [forallb] in H. apply andb_true_iff in H. destruct H as [Hc H].
  apply negb_true_iff in Hc. auto.
Qed.

Lemma is_quote_false (opts : SplitOptions) c :
  is_quote opts c = false ->
  (c =? SingleChar opts) = false /\ (c =? DoubleChar opts) = false /\
  (c =? EscapeChar opts) = false.
Proof.
  unfold is_quote. intros H.
  repeat (apply orb_false_elim in H; destruct H as [H ?]). auto.
Qed.

(** On text without quotes and escapes the loop of [raw] returns a
    word that starts with the buffer and the scanned prefix. *)
Lemma raw_loop_unquoted (opts : SplitOptions) (f : nat) :
  forall (cur buf p : gostring),
    unquoted opts cur = true -> (length cur <= f)%nat ->
    exists q r,
      raw_loop f opts buf (p ++ cur) cur = Some (Word (buf ++ p ++ q) r) /\
      unquoted opts r = true.
Proof.
  induction f as [|f IH]; intros cur buf p Hu Hf.
  - destruct cur; [|cbn in Hf; lia]. exists [], []. now rewrite raw_loop_nil.
  - destruct cur as [|b cur]; [exists [], []; now rewrite raw_loop_nil|].
    destruct (utf8.DecodeRuneInString (b :: cur)) as [c l] eqn:E.
    assert (Hne : b :: cur <> []) by discriminate.
    pose proof (decode_width _ _ _ Hne E) as [Hl _].
    pose proof (decode_step _ _ _ Hne E) as Hs.
    destruct (unquoted_cons _ _ _ _ Hne E Hu) as [Hc Hu'].
    destruct (is_quote_false _ _ Hc) as (H1 & H2 & H3).
    cbn [raw_loop]. rewrite E, H1, H2, H3.
    destruct (strings.ContainsRune (SplitChars opts) c).
    + exists [], (from l (b :: cur)). rewrite scanned_prefix by lia.
      now rewrite app_nil_r.
    + destruct (IH (from l (b :: cur)) buf (p ++ upto l (b :: cur)) Hu')
        as (q & r & Hq & Hr); [cbn [length] in *; lia|].
      rewrite <- app_assoc, upto_from in Hq. rewrite Hq.
      exists (upto l (b :: cur) ++ q), r. now rewrite <- !app_assoc.
Qed.

Lemma upto_nonempty (l : nat) (s : gostring) :
  (1 <= l)%nat -> s <> [] -> upto l s <> [].
Proof. destruct l, s; cbn; intros; (lia || congruence). Qed.

Lemma splitWord_unquoted (opts : SplitOptions) (input : gostring) c l :
  input <> [] -> utf8.DecodeRuneInString input = (c, l) ->
  unquoted opts input = true ->
  strings.ContainsRune (SplitChars opts) c = false ->
  exists w r, splitWord input opts = Some (w, r, None) /\ w <> [] /\
              unquoted opts r = true.
Proof.
  intros Hne E Hu Hsep.
  pose proof (decode_width _ _ _ Hne E) as [Hl _].
  pose proof (decode_step _ _ _ Hne E) as Hs.
  destruct (unquoted_cons _ _ _ _ Hne E Hu) as [Hc Hu'].
  destruct (raw_loop_unquoted opts (pred (length input)) (from l input) []
              (upto l input) Hu') as (q & r & Hq & Hr); [lia|].
  exists ([] ++ upto l input ++ q), r. split; [|split; [|assumption]].
  - rewrite splitWord_exec. apply exec_word. unfold block; cbn [lbl buf inp].
    unfold raw_block. destruct input as [|b input]; [congruence|].
    cbn [length pred] in *. rewrite (raw_loop_step opts _ _ _ _ c l); try assumption.
    + now rewrite upto_from in Hq.
    + unfold is_special. now rewrite Hc, Hsep.
  - cbn [app]. intros H. apply app_eq_nil in H. destruct H as [H _].
    revert H. apply upto_nonempty; [lia|assumption].
Qed.

Lemma resolved_contains (opts : SplitOptions) c :
  strings.ContainsRune (resolved opts) c = false ->
  strings.ContainsRune (SplitChars opts) c = false.
Proof.
  unfold resolved. destruct (SplitChars opts) as [|y s] eqn:E; cbn [length Nat.eqb].
  - intros _. apply ContainsRune_nil.
  - auto.
Qed.







(* ================================================================= *)
(** * The disabled escape character *)

Lemma from_from (n m : nat) (s : gostring) : from n (from m s) = from (m + n) s.
Proof. unfold from. now rewrite skipn_skipn, Nat.add_comm. Qed.

Lemma In_from (y : byte) (n : nat) (s : gostring) : In y (from n s) -> In y s.
Proof.
  intros H. rewrite <- (upto_from n s). apply in_or_app. now right.
Qed.

Lemma raw_loop_from (opts : SplitOptions) (f : nat) :
  forall (buf input cur : gostring) o,
    raw_loop f opts buf input cur = Some o ->
    match o with
    | Goto st =>
        exists n c l,
          from n cur <> [] /\ utf8.DecodeRuneInString (from n cur) = (c, l) /\
          inp st = from (n + l) cur /\
          (lbl st = Lescape -> c = EscapeChar opts)
    | Word _ r => exists n, r = from n cur
    | Fail _ => False
    end.
Proof.
  induction f as [|f IH]; intros buf input cur o.
  - destruct cur; cbn [raw_loop]; [|discriminate].
    if_goal; intros [= <-]; exists 0%nat; rewrite ?length_zero_iff_nil in *; auto.
    apply Nat.ltb_ge in Heqb. destruct input; [reflexivity|cbn in Heqb; lia].
  - destruct cur as [|b cur].
    + cbn [raw_loop]. if_goal; intros [= <-]; exists 0%nat; auto.
      apply Nat.ltb_ge in Heqb. destruct input; [reflexivity|cbn in Heqb; lia].
    + cbn [raw_loop].
      destruct (utf8.DecodeRuneInString (b :: cur)) as [c l] eqn:E.
      destruct (c =? SingleChar opts);
        [intros [= <-]; exists 0%nat, c, l; cbn [inp lbl from skipn];
         repeat split;
         first [discriminate | assumption | reflexivity | intros; assumption]|].
      destruct (c =? DoubleChar opts);
        [intros [= <-]; exists 0%nat, c, l; cbn [inp lbl from skipn];
         repeat split;
         first [discriminate | assumption | reflexivity | intros; assumption]|].
      destruct (Z.eqb_spec c (EscapeChar opts));
        [intros [= <-]; exists 0%nat, c, l; cbn [inp lbl from skipn];
         repeat split;
         first [discriminate | assumption | reflexivity | intros; assumption]|].
      destruct (strings.ContainsRune (SplitChars opts) c);
        [intros [= <-]; now exists l|].
      intros H. apply IH in H. destruct o as [st|w r|e]; [| |assumption].
      * destruct H as (k & c' & l' & H1 & H2 & H3 & H4).
        rewrite from_from in H1, H2. rewrite from_from in H3.
        exists (l + k)%nat, c', l'. repeat split; try assumption.
        rewrite H3. f_equal. lia.
      * destruct H as [k ->]. exists (l + k)%nat. apply from_from.
Qed.

Lemma double_loop_from (opts : SplitOptions) (f : nat) :
  forall (buf input cur : gostring) st,
    double_loop f opts buf input cur = Some (Goto st) ->
    lbl st = Lraw /\ exists n, inp st = from n cur.
Proof.
  induction f as [|f IH]; intros buf input cur st.
  - destruct cur; cbn [double_loop]; discriminate.
  - destruct cur as [|b cur]; [cbn [double_loop]; discriminate|].
    cbn [double_loop].
    destruct (utf8.DecodeRuneInString (b :: cur)) as [c l].
    destruct (utf8.DecodeRuneInString (from l (b :: cur))) as [c2 l2].
    if_goal; intros H; try (injection H as <-; cbn [lbl inp]; eauto);
      apply IH in H; destruct H as [Hl [n ->]]; split; try assumption;
      rewrite ?from_from; eauto.
Qed.

(** A [goto] leaves a suffix of the input, and goes to [escape] only
    from [raw], at a rune that is the escape character. *)
Lemma block_goto_from (opts : SplitOptions) (st st' : wstate) :
  block opts st = Some (Goto st') ->
  (exists n, inp st' = from n (inp st)) /\
  (lbl st' = Lescape ->
   exists n c l, from n (inp st) <> [] /\
                 utf8.DecodeRuneInString (from n (inp st)) = (c, l) /\
                 c = EscapeChar opts).
Proof.
  unfold block. destruct (lbl st).
  - intros H. apply raw_loop_from in H.
    destruct H as (n & c & l & H1 & H2 & H3 & H4). split; [eauto|].
    intros Hl. exists n, c, l. auto.
  - unfold escape_block. destruct (utf8.DecodeRuneInString (inp st)) as [c l].
    if_goal; intros [= <-]; cbn [inp lbl]; (split; [eauto|discriminate]).
  - unfold single_block. if_goal; intros [= <-]; cbn [inp lbl].
    split; [eauto|discriminate].
  - intros H. apply double_loop_from in H. destruct H as [Hl Hn].
    split; [assumption|]. rewrite Hl. discriminate.
Qed.

Lemma block_word_from (opts : SplitOptions) (st : wstate) w r :
  block opts st = Some (Word w r) -> exists n, r = from n (inp st).
Proof.
  unfold block. destruct (lbl st).
  - intros H. now apply raw_loop_from in H.
  - unfold escape_block. destruct (utf8.DecodeRuneInString (inp st)).
    if_goal; discriminate.
  - unfold single_block. if_goal; discriminate.
  - intros H. now apply double_loop_not_word in H.
Qed.

Lemma run_from (opts : SplitOptions) (f : nat) (st : wstate) w r :
  run f opts st = Some (w, r, None) -> exists n, r = from n (inp st).
Proof.
  revert st. induction f as [|f IH]; intros st; [discriminate|]. cbn [run].
  destruct (block opts st) as [[st'|w' r'|e']|] eqn:E; try discriminate.
  - intros H. apply IH in H. destruct H as [n ->].
    apply block_goto_from in E. destruct E as [[m ->] _].
    rewrite from_from. eauto.
  - intros [= <- <-]. eapply block_word_from, E.
Qed.



Lemma reaches_from (opts : SplitOptions) (st st' : wstate) :
  reaches opts st st' -> exists n, inp st' = from n (inp st).
Proof.
  induction 1 as [|st st' st'' Hb Hr [n ->]]; [now exists 0%nat|].
  apply block_goto_from in Hb. destruct Hb as [[m ->] _].
  rewrite from_from. eauto.
Qed.


Lemma not_In_from (y : byte) (n : nat) (s : gostring) : ~ In y s -> ~ In y (from n s).
Proof. intros H Hi. now apply In_from in Hi. Qed.


Section NoEscape.

Variable opts : SplitOptions.
Hypothesis escape_zero : EscapeChar opts = 0.










End NoEscape.




(* ================================================================= *)
(** * The tail at the word limit *)









(* ================================================================= *)
(** * More input after a parsed prefix *)

Section Append.

Variable opts : SplitOptions.
Variable x : gostring.
Hypothesis x_ascii : ascii_head x.

(** The loop of [raw] on [cur ++ x]: it stops where it stopped on
    [cur], or, where it ran to the end of [cur], it goes on into [x]. *)
Lemma raw_loop_app (f : nat) :
  forall (cur p buf input : gostring) (o : outcome),
    input = p ++ cur -> (length cur <= f)%nat ->
    raw_loop f opts buf input cur = Some o ->
    (exists st, o = Goto st /\
       raw_loop (f + length x) opts buf (input ++ x) (cur ++ x) =
       Some (Goto (extend st x))) \/
    (exists w r, o = Word w r /\
       raw_loop (f + length x) opts buf (input ++ x) (cur ++ x) =
       Some (Word w (r ++ x))) \/
    (o = Word (buf ++ input) [] /\
       raw_loop (f + length x) opts buf (input ++ x) (cur ++ x) =
       raw_loop (length x) opts buf (input ++ x) x).
Proof.
  induction f as [|f IH]; intros cur p buf input o Hi Hf.
  - destruct cur; [|cbn in Hf; lia]. rewrite raw_loop_nil. intros [= <-].
    right. right. split; [reflexivity|]. cbn [app]. apply raw_loop_fuel; lia.
  - destruct cur as [|b cur].
    + rewrite raw_loop_nil. intros [= <-]. right. right. split; [reflexivity|].
      cbn [app]. apply raw_loop_fuel; lia.
    + assert (Hne : b :: cur <> []) by discriminate.
      destruct (utf8.DecodeRuneInString (b :: cur)) as [c l] eqn:E.
      pose proof (decode_width _ _ _ Hne E) as [Hl _].
      pose proof (decode_step _ _ _ Hne E) as Hs.
      change (S f + length x)%nat with (S (f + length x)).
      cbn [raw_loop app]. change (b :: cur ++ x) with ((b :: cur) ++ x).
      rewrite (decode_app (b :: cur) x Hne x_ascii), E.
      rewrite (from_app_le l (b :: cur) x) by lia.
      assert (Hp : upto (length input - length (from l (b :: cur)) - l) input = p)
        by (subst input; apply scanned_prefix; lia).
      assert (Hp' : upto (length (input ++ x) - length (from l (b :: cur) ++ x) - l)
                      (input ++ x) = p).
      { subst input. rewrite <- app_assoc, <- (from_app_le l (b :: cur) x) by lia.
        apply scanned_prefix. rewrite length_app. lia. }
      rewrite Hp, Hp'.
      destruct (c =? SingleChar opts); [intros [= <-]; left; eauto|].
      destruct (c =? DoubleChar opts); [intros [= <-]; left; eauto|].
      destruct (c =? EscapeChar opts); [intros [= <-]; left; eauto|].
      destruct (strings.ContainsRune (SplitChars opts) c);
        [intros [= <-]; right; left; eauto|].
      apply (IH (from l (b :: cur)) (p ++ upto l (b :: cur))).
      * now rewrite <- app_assoc, upto_from.
      * cbn [length] in *. lia.
Qed.

(** A scanned prefix [a] of the input of [raw] may as well be in the
    buffer. *)
Lemma raw_loop_shift (f : nat) :
  forall (cur a q buf : gostring),
    raw_loop f opts buf (a ++ q ++ cur) cur =
    raw_loop f opts (buf ++ a) (q ++ cur) cur.
Proof.
  induction f as [|f IH]; intros cur a q buf.
  - destruct cur; [|reflexivity]. rewrite !raw_loop_nil.
    now rewrite <- !app_assoc.
  - destruct cur as [|b cur]; [rewrite !raw_loop_nil; now rewrite <- !app_assoc|].
    assert (Hne : b :: cur <> []) by discriminate.
    destruct (utf8.DecodeRuneInString (b :: cur)) as [c l] eqn:E.
    pose proof (decode_width _ _ _ Hne E) as [Hl _].
    cbn [raw_loop]. rewrite E.
    rewrite (app_assoc a q (b :: cur)), !scanned_prefix by lia.
    rewrite <- !app_assoc.
    repeat match goal with |- context [if ?c then _ else _] => destruct c end;
      try reflexivity.
    rewrite <- (upto_from l (b :: cur)) at 1 3.
    rewrite !(app_assoc q). apply IH.
Qed.

Lemma raw_block_continue (buf a : gostring) :
  raw_loop (length x) opts buf (a ++ x) x = raw_block opts (buf ++ a) x.
Proof. apply (raw_loop_shift (length x) x a []). Qed.

Lemma escape_block_app (buf input : gostring) (st : wstate) :
  escape_block opts buf input = Some (Goto st) ->
  escape_block opts buf (input ++ x) = Some (Goto (extend st x)).
Proof.
  unfold escape_block. destruct input as [|b input];
    [cbn [length Nat.eqb]; intros H; discriminate H|].
  assert (Hne : b :: input <> []) by discriminate.
  cbn [length app Nat.eqb]. change (b :: input ++ x) with ((b :: input) ++ x).
  rewrite (decode_app _ _ Hne x_ascii).
  destruct (utf8.DecodeRuneInString (b :: input)) as [c l] eqn:E.
  pose proof (decode_width _ _ _ Hne E) as [Hl _].
  intros [= <-]. unfold extend. rewrite upto_app_le, from_app_le by lia. reflexivity.
Qed.

(** The loop of [double] on [cur ++ x] when it found the closing quote
    in [cur]. *)
Lemma double_loop_app (f : nat) :
  forall (cur p buf input : gostring) (st : wstate),
    input = p ++ cur -> (length cur <= f)%nat ->
    double_loop f opts buf input cur = Some (Goto st) ->
    double_loop (f + length x) opts buf (input ++ x) (cur ++ x) =
    Some (Goto (extend st x)).
Proof.
  induction f as [|f IH]; intros cur p buf input st Hi Hf.
  - destruct cur; cbn [double_loop]; discriminate.
  - destruct cur as [|b cur]; [cbn [double_loop]; discriminate|].
    assert (Hne : b :: cur <> []) by discriminate.
    destruct (utf8.DecodeRuneInString (b :: cur)) as [c l] eqn:E.
    pose proof (decode_width _ _ _ Hne E) as [Hl _].
    pose proof (decode_step _ _ _ Hne E) as Hs.
    change (S f + length x)%nat with (S (f + length x)).
    cbn [double_loop app]. change (b :: cur ++ x) with ((b :: cur) ++ x).
    rewrite (decode_app (b :: cur) x Hne x_ascii), E.
    rewrite (from_app_le l (b :: cur) x) by lia.
    assert (Hp : upto (length input - length (from l (b :: cur)) - l) input = p)
      by (subst input; apply scanned_prefix; lia).
    assert (Hp' : upto (length (input ++ x) - length (from l (b :: cur) ++ x) - l)
                    (input ++ x) = p).
    { subst input. rewrite <- app_assoc, <- (from_app_le l (b :: cur) x) by lia.
      apply scanned_prefix. rewrite length_app. lia. }
    rewrite Hp, Hp'.
    destruct (c =? DoubleChar opts); [intros [= <-]; reflexivity|].
    destruct (from l (b :: cur)) as [|b' cur'] eqn:Ec.
    { (* the escape character was the last rune: no closing quote *)
      rewrite decode_nil. cbn [from skipn].
      destruct f; if_goal; cbn [double_loop]; discriminate. }
    assert (Hne' : b' :: cur' <> []) by discriminate.
    rewrite (decode_app (b' :: cur') x Hne' x_ascii).
    destruct (utf8.DecodeRuneInString (b' :: cur')) as [c2 l2] eqn:E2.
    pose proof (decode_width _ _ _ Hne' E2) as [Hl2 _].
    rewrite (from_app_le l2 (b' :: cur') x) by lia.
    assert (Hs2 : (length (from l2 (b' :: cur')) <= f)%nat).
    { rewrite from_length. rewrite <- Ec, from_length. cbn [length] in *. lia. }
    destruct (c =? EscapeChar opts).
    + destruct (strings.ContainsRune (DoubleEscapeChars opts) c2).
      * assert (Hq : upto (length input - length (from l2 (b' :: cur')) - l - l2)
                       input = p).
        { subst input. rewrite length_app, from_length.
          assert (length (b' :: cur') = length (b :: cur) - l)%nat
            by (rewrite <- Ec; apply from_length).
          replace (length p + length (b :: cur) - (length (b' :: cur') - l2) - l - l2)%nat
            with (length p) by lia. apply upto_app. }
        assert (Hq' : upto (length (input ++ x) -
                            length (from l2 (b' :: cur') ++ x) - l - l2)
                        (input ++ x) = p).
        { subst input. rewrite !length_app, from_length.
          assert (length (b' :: cur') = length (b :: cur) - l)%nat
            by (rewrite <- Ec; apply from_length).
          replace (length p + length (b :: cur) + length x -
                   (length (b' :: cur') - l2 + length x) - l - l2)%nat
            with (length p) by lia.
          rewrite <- app_assoc. apply upto_app. }
        rewrite Hq, Hq'. apply (IH _ []); [reflexivity|assumption].
      * apply (IH _ (p ++ upto l (b :: cur) ++ upto l2 (b' :: cur')));
          [|assumption].
        subst input. rewrite <- !app_assoc. rewrite upto_from.
        now rewrite <- Ec, upto_from.
    + apply (IH _ (p ++ upto l (b :: cur))).
      * subst input. rewrite <- app_assoc. now rewrite <- Ec, upto_from.
      * cbn [length] in *. lia.
Qed.


Hypothesis single_ascii : 0 <= SingleChar opts < 0x80.

Lemma IndexByte_app_found (a : gostring) (c : Z) :
  strings.IndexByte a c <> -1 ->
  strings.IndexByte (a ++ x) c = strings.IndexByte a c /\
  0 <= strings.IndexByte a c < Z.of_nat (length a).
Proof.
  induction a as [|b a IH]; cbn [strings.IndexByte app length]; [congruence|].
  destruct (b2z b =? c); [lia|].
  destruct (Z.ltb_spec (strings.IndexByte a c) 0) as [Hlt|Hge]; [congruence|].
  intros _. destruct IH as [-> IH]; [lia|].
  destruct (Z.ltb_spec (strings.IndexByte a c) 0); lia.
Qed.

Lemma single_block_app (buf input : gostring) (st : wstate) :
  single_block opts buf input = Some (Goto st) ->
  single_block opts buf (input ++ x) = Some (Goto (extend st x)).
Proof.
  unfold single_block, strings.IndexRune.
  replace ((0 <=? SingleChar opts) && (SingleChar opts <? utf8.RuneSelf))
    with true by (unfold utf8.RuneSelf; symmetry; apply andb_true_iff; lia).
  destruct (Z.eqb_spec (strings.IndexByte input (SingleChar opts)) (-1)) as [|Hn];
    [discriminate|].
  destruct (IndexByte_app_found input _ Hn) as [-> Hr].
  apply Z.eqb_neq in Hn. rewrite Hn. intros [= <-].
  unfold extend. rewrite upto_app_le, from_app_le by lia. reflexivity.
Qed.

Lemma block_app (st st' : wstate) :
  block opts st = Some (Goto st') ->
  block opts (extend st x) = Some (Goto (extend st' x)).
Proof.
  unfold block, extend. cbn [lbl buf inp]. destruct (lbl st).
  - unfold raw_block. intros H. rewrite length_app.
    destruct (raw_loop_app _ (inp st) [] (buf st) (inp st) _ eq_refl (Nat.le_refl _) H)
      as [(s & [= <-] & ->)|[(w & r & [=] & _)|([=] & _)]].
    reflexivity.
  - apply escape_block_app.
  - apply single_block_app.
  - unfold double_block. intros H. rewrite length_app.
    now apply (double_loop_app _ (inp st) []).
Qed.

Lemma exec_same_block (st1 st2 : wstate) :
  block opts st1 = block opts st2 -> exec opts st1 = exec opts st2.
Proof.
  intros H. unfold exec.
  change (run (S (length (inp st1))) opts st1) with
    (match block opts st1 with
     | None => None
     | Some (Goto st') => run (length (inp st1)) opts st'
     | Some (Word w r) => Some (w, r, None)
     | Some (Fail e) => Some ([], [], Some e)
     end).
  change (run (S (length (inp st2))) opts st2) with
    (match block opts st2 with
     | None => None
     | Some (Goto st') => run (length (inp st2)) opts st'
     | Some (Word w r) => Some (w, r, None)
     | Some (Fail e) => Some ([], [], Some e)
     end).
  destruct (block opts st1) as [o|] eqn:E1; rewrite <- H; [|reflexivity].
  symmetry in H. destruct o as [st'|w r|e]; try reflexivity.
  apply block_goto in E1, H. apply run_fuel; lia.
Qed.

(** [splitWord] on more input: the word ends where it ended, or, where
    it ended with the input, goes on in [raw] with the word as buffer. *)
Lemma exec_app (n : nat) :
  forall (st : wstate) (w r : gostring),
    (length (inp st) <= n)%nat ->
    exec opts st = Some (w, r, None) ->
    exec opts (extend st x) = Some (w, r ++ x, None) \/
    (r = [] /\ exec opts (extend st x) = exec opts (mkW Lraw w x)).
Proof.
  induction n as [|n IH]; intros st w r Hn H.
  - destruct (block opts st) as [[st'|w' r'|e]|] eqn:E.
    + apply block_goto in E. lia.
    + rewrite (exec_word _ _ _ _ E) in H. injection H as <- <-.
      revert E. unfold block. destruct (lbl st) eqn:El.
      * unfold raw_block. destruct (inp st) eqn:Ei; [|cbn in Hn; lia].
        cbn [length raw_loop Nat.ltb Nat.leb]. intros [= <- <-]. right.
        split; [reflexivity|]. apply exec_same_block.
        unfold block, extend. cbn [lbl buf inp]. rewrite El, Ei. reflexivity.
      * unfold escape_block. destruct (utf8.DecodeRuneInString (inp st)).
        if_goal; discriminate.
      * unfold single_block. if_goal; discriminate.
      * intros E. now apply double_loop_not_word in E.
    + rewrite (exec_fail _ _ _ E) in H. discriminate.
    + now apply block_some in E.
  - destruct (block opts st) as [[st'|w' r'|e]|] eqn:E.
    + rewrite (exec_goto _ _ _ E) in H. pose proof (block_goto _ _ _ E).
      rewrite (exec_goto _ _ _ (block_app _ _ E)). apply IH; [lia|assumption].
    + rewrite (exec_word _ _ _ _ E) in H. injection H as <- <-.
      revert E. unfold block. destruct (lbl st) eqn:El.
      * unfold raw_block. intros E.
        destruct (raw_loop_app _ (inp st) [] (buf st) (inp st) _ eq_refl (Nat.le_refl _) E)
          as [(s & [=] & _)|[(w0 & r0 & [= <- <-] & Hw)|([= -> ->] & Hw)]].
        -- left. apply exec_word. unfold block, extend. cbn [lbl buf inp].
           rewrite El. unfold raw_block. now rewrite length_app.
        -- right. split; [reflexivity|]. apply exec_same_block.
           unfold block, extend. cbn [lbl buf inp]. rewrite El.
           unfold raw_block at 1. rewrite length_app, Hw.
           apply raw_block_continue.
      * unfold escape_block. destruct (utf8.DecodeRuneInString (inp st)).
        if_goal; discriminate.
      * unfold single_block. if_goal; discriminate.
      * intros E. now apply double_loop_not_word in E.
    + rewrite (exec_fail _ _ _ E) in H. discriminate.
    + now apply block_some in E.
Qed.

Hypothesis no_limit : Limit opts < 0.

Lemma finish_word_no_limit (words : list gostring) (w r : gostring) :
  finish_word opts words (w, r, None) = Continue (words ++ [w]) r.
Proof.
  cbn [finish_word]. destruct (Z.eqb_spec (Limit opts)
    (Z.of_nat (length (words ++ [w])) + 1)); [lia|reflexivity].
Qed.

Lemma loop_unfold (sc : gostring) (words : list gostring) (input : gostring) :
  input <> [] ->
  loop opts sc words input =
  match loop_body opts sc words input with
  | Some t => after opts sc t
  | None => None
  end.
Proof.
  intros Hne. destruct (loop_body opts sc words input) as [t|] eqn:E.
  - now apply loop_turn.
  - now apply loop_body_some in E.
Qed.

(** The main loop on [a ++ x] when it succeeds on [a]: it reaches the
    head of a turn with the words of [a] and the input [x], or it is in
    the last word of [a], in the block [raw], when [x] begins. *)
Lemma loop_app (sc : gostring) (n : nat) :
  forall (a : gostring) (words ws : list gostring),
    (length a <= n)%nat ->
    loop opts sc words a = Some (ws, None) ->
    loop opts sc words (a ++ x) = loop opts sc ws x \/
    exists ws0 w,
      ws = ws0 ++ [w] /\
      loop opts sc words (a ++ x) =
      match exec opts (mkW Lraw w x) with
      | Some r => after opts sc (finish_word opts ws0 r)
      | None => None
      end.
Proof.
  induction n as [|n IH]; intros a words ws Hn H.
  - destruct a; [|cbn in Hn; lia]. rewrite loop_nil in H. injection H as <-.
    now left.
  - destruct a as [|b a]; [rewrite loop_nil in H; injection H as <-; now left|].
    assert (Hne : b :: a <> []) by discriminate.
    rewrite loop_unfold in H by assumption.
    rewrite (loop_unfold sc words ((b :: a) ++ x)) by discriminate.
    unfold loop_body in *.
    rewrite (decode_app (b :: a) x Hne x_ascii).
    destruct (utf8.DecodeRuneInString (b :: a)) as [c l] eqn:E.
    pose proof (decode_width _ _ _ Hne E) as [Hl _].
    pose proof (decode_step _ _ _ Hne E) as Hs.
    rewrite (from_app_le l (b :: a) x) by lia.
    destruct (strings.ContainsRune sc c).
    { cbn [after] in *. apply IH; [cbn [length] in *; lia|assumption]. }
    assert (Hword :
      match word_turn opts words (b :: a) with
      | Some t => after opts sc t
      | None => None
      end = Some (ws, None) ->
      match word_turn opts words ((b :: a) ++ x) with
      | Some t => after opts sc t
      | None => None
      end = loop opts sc ws x \/
      exists ws0 w,
        ws = ws0 ++ [w] /\
        match word_turn opts words ((b :: a) ++ x) with
        | Some t => after opts sc t
        | None => None
        end =
        match exec opts (mkW Lraw w x) with
        | Some r => after opts sc (finish_word opts ws0 r)
        | None => None
        end).
    { unfold word_turn.
      destruct (splitWord (b :: a) opts) as [[[w r] [e|]]|] eqn:Ew;
        cbn [option_map]; try discriminate.
      rewrite finish_word_no_limit. cbn [after]. intros H'.
      pose proof (splitWord_remainder _ _ _ _ _ Hne Ew) as Hr.
      rewrite splitWord_exec in Ew.
      destruct (exec_app (length (b :: a)) (mkW Lraw [] (b :: a)) _ _
                  (Nat.le_refl _) Ew)
        as [Ex|[-> Ex]]; unfold extend in Ex; cbn [lbl buf inp] in Ex;
        rewrite splitWord_exec, Ex.
      - cbn [option_map]. rewrite finish_word_no_limit. cbn [after].
        apply IH; [cbn [length] in *; lia|assumption].
      - rewrite loop_nil in H'. injection H' as <-. right. exists words, w.
        split; [reflexivity|]. now destruct (exec opts (mkW Lraw w x)). }
    unfold lookahead in *. destruct (c =? EscapeChar opts); [|exact (Hword H)].
    rewrite !(from_app_le l (b :: a) x) by lia.
    destruct (Nat.eqb_spec (length (from l (b :: a))) 0) as [|Hz]; [discriminate|].
    assert (Hne' : from l (b :: a) <> []) by (intros Hc; now rewrite Hc in Hz).
    replace (length (from l (b :: a) ++ x) =? 0)%nat with false
      by (symmetry; apply Nat.eqb_neq; rewrite length_app; lia).
    rewrite (decode_app _ x Hne' x_ascii).
    destruct (utf8.DecodeRuneInString (from l (b :: a))) as [c2 l2] eqn:E2.
    pose proof (decode_width _ _ _ Hne' E2) as [Hl2 _].
    pose proof (decode_step _ _ _ Hne' E2) as Hs2.
    destruct (c2 =? 10); [|exact (Hword H)].
    cbn [after] in *. rewrite (from_app_le l2 _ x) by lia.
    apply IH; [cbn [length] in *; lia|assumption].
Qed.

End Append.

(* ================================================================= *)
(** * Separators under the default options *)

Lemma default_sep (s : byte) (t : gostring) :
  In s DefaultSplitChars ->
  b2z s < 0x80 /\
  utf8.DecodeRuneInString (s :: t) = (b2z s, 1%nat) /\
  strings.ContainsRune DefaultSplitChars (b2z s) = true /\
  is_quote DefaultSplitOptions (b2z s) = false.
Proof.
  intros [<-|[<-|[<-|[]]]];
    (split; [vm_compute; reflexivity|]);
    (split; [apply decode_ascii; vm_compute; reflexivity|]);
    split; reflexivity.
Qed.

Lemma default_sep_ascii (r t : gostring) :
  Forall (fun y => In y DefaultSplitChars) r -> ascii_head t -> ascii_head (r ++ t).
Proof.
  intros Hr Ht. destruct Hr as [|s r Hs Hr]; [assumption|].
  apply ascii_head_cons. now apply (default_sep s []).
Qed.

Lemma loop_skip_sep (ws : list gostring) (s : byte) (t : gostring) :
  In s DefaultSplitChars ->
  loop DefaultSplitOptions DefaultSplitChars ws (s :: t) =
  loop DefaultSplitOptions DefaultSplitChars ws t.
Proof.
  intros Hs. destruct (default_sep s t Hs) as (_ & Hd & Hc & _).
  rewrite (loop_turn _ _ _ _ (Continue ws t)); [reflexivity|discriminate|].
  unfold loop_body. now rewrite Hd, Hc.
Qed.

Lemma loop_skip_seps (ws : list gostring) (r t : gostring) :
  Forall (fun y => In y DefaultSplitChars) r ->
  loop DefaultSplitOptions DefaultSplitChars ws (r ++ t) =
  loop DefaultSplitOptions DefaultSplitChars ws t.
Proof.
  induction 1 as [|s r Hs Hr IH]; [reflexivity|].
  cbn [app]. now rewrite loop_skip_sep.
Qed.

(** In the block [raw] a separator ends the word. *)
Lemma exec_raw_sep (w : gostring) (s : byte) (t : gostring) :
  In s DefaultSplitChars ->
  exec DefaultSplitOptions (mkW Lraw w (s :: t)) = Some (w, t, None).
Proof.
  intros Hs. destruct (default_sep s t Hs) as (_ & Hd & Hc & Hq).
  apply is_quote_false in Hq. destruct Hq as (H1 & H2 & H3).
  apply exec_word. unfold block, raw_block. cbn [lbl buf inp length raw_loop].
  rewrite Hd, H1, H2, H3. cbn [SplitChars DefaultSplitOptions]. rewrite Hc.
  cbn [from skipn]. replace (S (length t) - length t - 1)%nat with 0%nat by lia.
  unfold upto. cbn [firstn]. now rewrite app_nil_r.
Qed.

Lemma default_single_ascii : 0 <= SingleChar DefaultSplitOptions < 0x80.
Proof. cbn. unfold DefaultSingleChar. lia. Qed.

Lemma default_no_limit : Limit DefaultSplitOptions < 0.
Proof. cbn. lia. Qed.

(** After a prefix [a] that splits into [ws], a separator leads to the
    head of a turn with the words [ws]. *)
Lemma loop_app_sep (a : gostring) (words ws : list gostring) (s : byte) (t : gostring) :
  loop DefaultSplitOptions DefaultSplitChars words a = Some (ws, None) ->
  In s DefaultSplitChars ->
  loop DefaultSplitOptions DefaultSplitChars words (a ++ s :: t) =
  loop DefaultSplitOptions DefaultSplitChars ws t.
Proof.
  intros H Hs.
  assert (Ha : ascii_head (s :: t))
    by (apply ascii_head_cons; now apply (default_sep s t)).
  destruct (loop_app DefaultSplitOptions (s :: t) Ha default_single_ascii
              default_no_limit DefaultSplitChars (length a) a words ws
              (Nat.le_refl _) H) as [->|(ws0 & w & -> & ->)].
  - now apply loop_skip_sep.
  - rewrite exec_raw_sep by assumption.
    now rewrite (finish_word_no_limit DefaultSplitOptions default_no_limit).
Qed.

Lemma loop_app_seps (a : gostring) (words ws : list gostring) (r t : gostring) :
  loop DefaultSplitOptions DefaultSplitChars words a = Some (ws, None) ->
  Forall (fun y => In y DefaultSplitChars) r -> r <> [] ->
  loop DefaultSplitOptions DefaultSplitChars words (a ++ r ++ t) =
  loop DefaultSplitOptions DefaultSplitChars ws t.
Proof.
  intros H Hr Hne. destruct Hr as [|s r Hs Hr]; [congruence|].
  cbn [app]. rewrite (loop_app_sep a words ws s (r ++ t) H Hs).
  now apply loop_skip_seps.
Qed.

(* ================================================================= *)
(** * Unterminated single quotes *)

Lemma exec_raw_quote (w q : gostring) :
  ~ In x27 q ->
  exec DefaultSplitOptions (mkW Lraw w (x27 :: q)) =
  Some ([], [], Some UnterminatedSingleQuoteError).
Proof.
  intros Hq.
  rewrite (exec_goto _ _ (mkW Lsingle w q)) by apply raw_block_quote.
  apply exec_fail. now apply single_block_unterminated.
Qed.

Lemma loop_at_quote (ws : list gostring) (q : gostring) :
  ~ In x27 q ->
  loop DefaultSplitOptions DefaultSplitChars ws (x27 :: q) =
  Some (ws, Some UnterminatedSingleQuoteError).
Proof.
  intros Hq.
  rewrite (loop_turn _ _ _ _ (Return ws (Some UnterminatedSingleQuoteError)));
    [reflexivity|discriminate|].
  unfold loop_body. rewrite decode_ascii by (vm_compute; reflexivity).
  change (strings.ContainsRune DefaultSplitChars (b2z x27)) with false.
  change (lookahead DefaultSplitOptions ws (x27 :: q) (b2z x27) 1)
    with (@None turn).
  cbv iota. unfold word_turn. rewrite splitWord_exec.
  now rewrite exec_raw_quote.
Qed.

(** C9: under the default options, when the part [p] of the input
    before a single quote splits without error, so that the quote opens a
    quoted span, and no single quote follows, the split ends with
    [UnterminatedSingleQuoteError], whatever the words of [p]; the words
    returned with it are those of [p], but for a last word of [p] that
    the quote continues. *)
Theorem C9_unterminated_single_quote (p q : gostring) (ws : list gostring) :
  Split p = Some (ws, None) -> ~ In x27 q ->
  exists ws',
    Split (p ++ [x27] ++ q) = Some (ws', Some UnterminatedSingleQuoteError) /\
    (ws' = ws \/ exists w, ws = ws' ++ [w]).
Proof.
  intros H Hq. rewrite Split_loop in *.
  assert (Ha : ascii_head ([x27] ++ q))
    by (apply ascii_head_cons; vm_compute; reflexivity).
  destruct (loop_app DefaultSplitOptions ([x27] ++ q) Ha default_single_ascii
              default_no_limit DefaultSplitChars (length p) p [] ws
              (Nat.le_refl _) H) as [->|(ws0 & w & -> & ->)].
  - exists ws. split; [now apply loop_at_quote|now left].
  - exists ws0. split; [|right; eauto]. cbn [app].
    now rewrite exec_raw_quote.
Qed.

Lemma C9_unterminated_single_quote_witness :
  (Split (gs "foo ") = Some ([gs "foo"], None) /\ ~ In x27 (gs "unterminated")) /\
  exists ws',
    Split ex_unterminated = Some (ws', Some UnterminatedSingleQuoteError) /\
    (ws' = [gs "foo"] \/ exists w, [gs "foo"] = ws' ++ [w]).
Proof.
  assert (H : Split (gs "foo ") = Some ([gs "foo"], None))
    by (vm_compute; reflexivity).
  assert (Hq : ~ In x27 (gs "unterminated")) by (cbn; intuition discriminate).
  split; [split; [exact H|exact Hq]|].
  exact (C9_unterminated_single_quote (gs "foo ") (gs "unterminated") _ H Hq).
Defined.

(* ================================================================= *)
(** * Separators after an unterminated quote *)

Lemma seps_ascii (x : gostring) :
  Forall (fun y => In y DefaultSplitChars) x -> ascii_head x.
Proof.
  intros H. rewrite <- (app_nil_r x). apply default_sep_ascii; [assumption|].
  apply ascii_head_nil.
Qed.

Lemma seps_no_quote (x : gostring) :
  Forall (fun y => In y DefaultSplitChars) x -> Forall (fun y => b2z y <> 39) x.
Proof.
  apply Forall_impl. intros y [<-|[<-|[<-|[]]]]; vm_compute; discriminate.
Qed.

(** The loop of [double] over separators finds no closing quote. *)
Lemma double_loop_seps (f : nat) :
  forall (x buf input : gostring),
    Forall (fun y => In y DefaultSplitChars) x -> (length x <= f)%nat ->
    double_loop f DefaultSplitOptions buf input x =
    Some (Fail UnterminatedDoubleQuoteError).
Proof.
  induction f as [|f IH]; intros x buf input Hx Hf.
  - destruct x; [reflexivity|cbn in Hf; lia].
  - destruct Hx as [|s x Hs Hx]; [reflexivity|]. cbn [double_loop].
    destruct (default_sep s x Hs) as (_ & -> & _ & Hq).
    apply is_quote_false in Hq. destruct Hq as (_ & -> & ->).
    apply IH; [assumption|cbn [length] in Hf; cbn [from skipn]; lia].
Qed.

Section Unterminated.

Variable x : gostring.
Hypothesis x_seps : Forall (fun y => In y DefaultSplitChars) x.

Let D : SplitOptions := DefaultSplitOptions.

(** Where the loop of [double] fails on [cur] it fails on [cur ++ x];
    the buffer and [input] play no part in that. *)
Lemma double_loop_app_fail (f : nat) :
  forall (cur buf input buf' input' : gostring) (e : error),
    (length cur <= f)%nat ->
    double_loop f D buf input cur = Some (Fail e) ->
    double_loop (f + length x) D buf' input' (cur ++ x) = Some (Fail e).
Proof.
  pose proof (seps_ascii x x_seps) as x_ascii.
  induction f as [|f IH]; intros cur buf input buf' input' e Hf.
  - destruct cur; [|cbn in Hf; lia]. cbn [double_loop app]. intros [= <-].
    now apply double_loop_seps.
  - destruct cur as [|b cur].
    { cbn [double_loop app]. intros [= <-]. apply double_loop_seps; [assumption|lia]. }
    assert (Hne : b :: cur <> []) by discriminate.
    destruct (utf8.DecodeRuneInString (b :: cur)) as [c l] eqn:E.
    pose proof (decode_width _ _ _ Hne E) as [Hl _].
    pose proof (decode_step _ _ _ Hne E) as Hs.
    change (S f + length x)%nat with (S (f + length x)).
    cbn [double_loop app]. change (b :: cur ++ x) with ((b :: cur) ++ x).
    rewrite (decode_app (b :: cur) x Hne x_ascii), E.
    rewrite (from_app_le l (b :: cur) x) by lia.
    destruct (c =? DoubleChar D); [discriminate|].
    destruct (from l (b :: cur)) as [|b' cur'] eqn:Ec.
    { (* the escape character is the last rune of [cur] *)
      rewrite decode_nil. cbn [from skipn app].
      assert (He : forall bf i, double_loop f D bf i [] = Some (Fail e) ->
                                e = UnterminatedDoubleQuoteError)
        by (intros bf i; destruct f; cbn [double_loop]; congruence).
      intros H.
      assert (e = UnterminatedDoubleQuoteError) as ->
        by (revert H; if_goal; apply He).
      destruct x_seps as [|s x' Hs' Hx'];
        [cbn [length]; rewrite Nat.add_0_r, decode_nil; cbn [from skipn];
         if_goal; destruct f; reflexivity|].
      destruct (default_sep s x' Hs') as (_ & -> & _ & _). cbn [from skipn].
      cbn [length] in *.
      if_goal; apply double_loop_seps; try assumption;
        try (constructor; assumption); cbn [length]; lia. }
    assert (Hne' : b' :: cur' <> []) by discriminate.
    rewrite (decode_app (b' :: cur') x Hne' x_ascii).
    destruct (utf8.DecodeRuneInString (b' :: cur')) as [c2 l2] eqn:E2.
    pose proof (decode_width _ _ _ Hne' E2) as [Hl2 _].
    rewrite (from_app_le l2 (b' :: cur') x) by lia.
    assert (Hs2 : (length (from l2 (b' :: cur')) <= f)%nat)
      by (rewrite from_length; cbn [length] in *; lia).
    if_goal; apply IH; cbn [length] in *; lia.
Qed.

Lemma single_block_app_fail (buf input : gostring) (e : error) :
  single_block D buf input = Some (Fail e) ->
  single_block D buf (input ++ x) = Some (Fail e).
Proof.
  unfold single_block, strings.IndexRune.
  change ((0 <=? SingleChar D) && (SingleChar D <? utf8.RuneSelf)) with true.
  cbv iota. change (SingleChar D) with 39.
  destruct (Z.eqb_spec (strings.IndexByte input 39) (-1)) as [Hi|]; [|discriminate].
  intros [= <-].
  assert (strings.IndexByte (input ++ x) 39 = -1) as ->; [|reflexivity].
  pose proof (seps_no_quote x x_seps) as Hx. clear x_seps.
  induction input as [|b input IH]; cbn [app strings.IndexByte] in *.
  - now apply IndexByte_none.
  - destruct (b2z b =? 39); [discriminate|].
    destruct (Z.ltb_spec (strings.IndexByte input 39) 0) as [Hlt|Hge].
    + pose proof (IndexByte_range input 39). rewrite IH by lia. reflexivity.
    + lia.
Qed.

(** An unterminated quote stays unterminated when separators follow. *)
Lemma exec_app_fail (n : nat) :
  forall (st : wstate) (e : error),
    (length (inp st) <= n)%nat -> e <> UnterminatedEscapeError ->
    exec D st = Some ([], [], Some e) ->
    exec D (extend st x) = Some ([], [], Some e).
Proof.
  pose proof (seps_ascii x x_seps) as x_ascii.
  induction n as [|n IH]; intros st e Hn He H;
    destruct (block D st) as [[st'|w' r'|e']|] eqn:E;
    try (now apply block_some in E);
    try (rewrite (exec_word _ _ _ _ E) in H; discriminate).
  1,3: rewrite (exec_goto _ _ _ E) in H; pose proof (block_goto _ _ _ E);
       try lia;
       rewrite (exec_goto _ _ _
                  (block_app D x x_ascii default_single_ascii _ _ E));
       apply IH; (lia || assumption).
  all: rewrite (exec_fail _ _ _ E) in H; injection H as ->;
    apply exec_fail; revert E; unfold block, extend; cbn [lbl buf inp];
    destruct (lbl st).
  all: try (intros E; apply raw_loop_from in E; contradiction).
  all: try (unfold escape_block;
            destruct (utf8.DecodeRuneInString (inp st));
            if_goal; intros [= <-]; congruence).
  all: try apply single_block_app_fail.
  all: unfold double_block; rewrite length_app; apply double_loop_app_fail; lia.
Qed.

(** The main loop on [a ++ x] when it fails on [a] for an unterminated
    quote. *)
Lemma loop_app_fail (n : nat) :
  forall (a : gostring) (words ws : list gostring) (e : error),
    (length a <= n)%nat -> e <> UnterminatedEscapeError ->
    loop D DefaultSplitChars words a = Some (ws, Some e) ->
    loop D DefaultSplitChars words (a ++ x) = Some (ws, Some e).
Proof.
  pose proof (seps_ascii x x_seps) as x_ascii.
  induction n as [|n IH]; intros a words ws e Hn He H.
  - destruct a; [|cbn in Hn; lia]. rewrite loop_nil in H. discriminate.
  - destruct a as [|b a]; [rewrite loop_nil in H; discriminate|].
    assert (Hne : b :: a <> []) by discriminate.
    rewrite (loop_unfold D) in H by assumption.
    rewrite (loop_unfold D _ words ((b :: a) ++ x)) by discriminate.
    unfold loop_body in *.
    rewrite (decode_app (b :: a) x Hne x_ascii).
    destruct (utf8.DecodeRuneInString (b :: a)) as [c l] eqn:E.
    pose proof (decode_width _ _ _ Hne E) as [Hl _].
    pose proof (decode_step _ _ _ Hne E) as Hs.
    destruct (strings.ContainsRune DefaultSplitChars c).
    { cbn [after] in *. rewrite (from_app_le l (b :: a) x) by lia.
      apply IH; [cbn [length] in *; lia|assumption|assumption]. }
    assert (Hword :
      match word_turn D words (b :: a) with
      | Some t => after D DefaultSplitChars t
      | None => None
      end = Some (ws, Some e) ->
      match word_turn D words ((b :: a) ++ x) with
      | Some t => after D DefaultSplitChars t
      | None => None
      end = Some (ws, Some e)).
    { unfold word_turn.
      destruct (splitWord (b :: a) D) as [[[w r] [e'|]]|] eqn:Ew;
        cbn [option_map]; try discriminate.
      - cbn [finish_word after]. intros [= <- <-].
        pose proof (run_remainder _ _ _ _ _ _ Ew) as [Hr0 _]. cbn [inp] in Hr0.
        assert (exec D (mkW Lraw [] (b :: a)) = Some ([], [], Some e')) as Ex.
        { rewrite <- splitWord_exec, Ew.
          (* the word and the remainder that come with an error are empty *)
          clear - Ew. unfold splitWord in Ew.
          revert Ew. generalize (S (length (b :: a))) (mkW Lraw [] (b :: a)).
          intros f. induction f as [|f IHf]; intros st; [discriminate|].
          cbn [run]. destruct (block D st) as [[st'|w' r'|e'']|];
            try discriminate; [apply IHf|now intros [= <- <- <-]]. }
        pose proof (exec_app_fail (length (b :: a)) (mkW Lraw [] (b :: a)) e'
                      (Nat.le_refl _) He Ex) as Ex'.
        unfold extend in Ex'. cbn [lbl buf inp] in Ex'.
        now rewrite splitWord_exec, Ex'.
      - rewrite (finish_word_no_limit D default_no_limit). cbn [after]. intros H'.
        pose proof (splitWord_remainder _ _ _ _ _ Hne Ew) as Hr.
        rewrite splitWord_exec in Ew.
        destruct (exec_app D x x_ascii default_single_ascii (length (b :: a))
                    (mkW Lraw [] (b :: a)) _ _ (Nat.le_refl _) Ew)
          as [Ex|[-> Ex]]; unfold extend in Ex; cbn [lbl buf inp] in Ex.
        + rewrite splitWord_exec, Ex. cbn [option_map].
          rewrite (finish_word_no_limit D default_no_limit). cbn [after].
          apply IH; [cbn [length] in *; lia|assumption|assumption].
        + rewrite loop_nil in H'. discriminate. }
    unfold lookahead in *. destruct (c =? EscapeChar D); [|exact (Hword H)].
    rewrite !(from_app_le l (b :: a) x) by lia.
    destruct (Nat.eqb_spec (length (from l (b :: a))) 0) as [|Hz];
      [cbn [after] in H; congruence|].
    assert (Hne' : from l (b :: a) <> []) by (intros Hc; now rewrite Hc in Hz).
    replace (length (from l (b :: a) ++ x) =? 0)%nat with false
      by (symmetry; apply Nat.eqb_neq; rewrite length_app; lia).
    rewrite (decode_app _ x Hne' x_ascii).
    destruct (utf8.DecodeRuneInString (from l (b :: a))) as [c2 l2] eqn:E2.
    pose proof (decode_width _ _ _ Hne' E2) as [Hl2 _].
    pose proof (decode_step _ _ _ Hne' E2) as Hs2.
    destruct (c2 =? 10); [|exact (Hword H)].
    cbn [after] in *. rewrite (from_app_le l2 _ x) by lia.
    apply IH; [cbn [length] in *; lia|assumption|assumption].
Qed.

End Unterminated.

(** C4, as it holds under the default options, for a run [r] of split
    characters: a leading run changes nothing; a trailing run changes
    nothing either unless the split of [s] fails for an unterminated
    escape, where the run follows a backslash; and a non-empty run that
    follows a part [a] of the input whose split succeeds, that is a run
    outside of quotes and not escaped, may be replaced by any other
    non-empty run. *)
Theorem C4_separator_runs (s r : gostring) :
  Forall (fun y => In y DefaultSplitChars) r ->
  Split (r ++ s) = Split s /\
  ((forall ws, Split s <> Some (ws, Some UnterminatedEscapeError)) ->
   Split (r ++ s ++ r) = Split s) /\
  (forall a b r' ws,
     s = a ++ r ++ b -> r <> [] ->
     Forall (fun y => In y DefaultSplitChars) r' -> r' <> [] ->
     Split a = Some (ws, None) ->
     Split (a ++ r' ++ b) = Split s).
Proof.
  intros Hr. split; [rewrite !Split_loop; now apply loop_skip_seps|]. split.
  - intros Hs. rewrite (Split_loop (r ++ s ++ r)), loop_skip_seps by assumption.
    destruct (SplitWithOptions_returns s DefaultSplitOptions) as (ws & e & H).
    fold (Split s) in H. rewrite H. rewrite Split_loop in H.
    destruct e as [e|].
    + apply (loop_app_fail r Hr (length s)); [lia| |assumption].
      intros ->. apply (Hs ws). now rewrite Split_loop.
    + destruct r as [|y r]; [now rewrite app_nil_r|].
      assert (Hne : y :: r <> []) by discriminate.
      pose proof (loop_app_seps s [] ws (y :: r) [] H Hr Hne) as E.
      rewrite app_nil_r in E. now rewrite E.
  - intros a b r' ws -> Hne Hr' Hne' H.
    rewrite (Split_loop a) in H.
    rewrite (Split_loop (a ++ r' ++ b)), (Split_loop (a ++ r ++ b)).
    rewrite (loop_app_seps a [] ws r' b H Hr' Hne').
    now rewrite (loop_app_seps a [] ws r b H Hr Hne).
Qed.

Lemma C4_separator_runs_witness :
  Forall (fun y => In y DefaultSplitChars) ex_run /\
  Split ex_mixed = Some ([gs "foo"; gs "a  b"; gs "bar baz"], None) /\
  Split (ex_run ++ ex_mixed) = Split ex_mixed /\
  Split (ex_run ++ ex_mixed ++ ex_run) = Split ex_mixed /\
  Split (ex_before ++ [x0a] ++ ex_behind) = Split ex_mixed.
Proof.
  assert (H : Forall (fun y => In y DefaultSplitChars) ex_run)
    by (repeat constructor; cbn; tauto).
  assert (H' : Forall (fun y => In y DefaultSplitChars) [x0a])
    by (repeat constructor; cbn; tauto).
  assert (Hs : Split ex_mixed = Some ([gs "foo"; gs "a  b"; gs "bar baz"], None))
    by (vm_compute; reflexivity).
  assert (Hs' : forall ws, Split ex_mixed <> Some (ws, Some UnterminatedEscapeError))
    by (intros ws; rewrite Hs; discriminate).
  assert (Ha : Split ex_before = Some ([gs "foo"; gs "a  b"], None))
    by (vm_compute; reflexivity).
  assert (Hr : ex_run <> []) by discriminate.
  assert (Hr' : [x0a] <> []) by discriminate.
  destruct (C4_separator_runs ex_mixed ex_run H) as (H1 & H2 & H3).
  split; [exact H|]. split; [exact Hs|]. split; [exact H1|].
  split; [exact (H2 Hs')|].
  exact (H3 ex_before ex_behind [x0a] _ eq_refl Hr H' Hr' Ha).
Defined.

(** C4 as stated fails: a trailing separator after a backslash is
    escaped, and a run of separators in quotes is text. *)
Lemma C4_counterexample :
  Split (gs "foo\") = Some ([], Some UnterminatedEscapeError) /\
  Split ([x20] ++ gs "foo\" ++ [x20]) = Some ([gs "foo "], None) /\
  Split ([x20] ++ gs "foo\" ++ [x20]) <> Split (gs "foo\") /\
  Split (gs "'a  b'") = Some ([gs "a  b"], None) /\
  Split (gs "'a b'") = Some ([gs "a b"], None) /\
  Split (gs "'a  b'") <> Split (gs "'a b'").
Proof.
  repeat split; try (vm_compute; reflexivity); vm_compute; discriminate.
Qed.


(* ================================================================= *)
(** * The word limit *)

(** [splitWord] and the look-ahead read the five character fields of
    the options only. *)
Section SameChars.

Variables o1 o2 : SplitOptions.
Hypothesis same_split : SplitChars o1 = SplitChars o2.
Hypothesis same_single : SingleChar o1 = SingleChar o2.
Hypothesis same_double : DoubleChar o1 = DoubleChar o2.
Hypothesis same_escape : EscapeChar o1 = EscapeChar o2.
Hypothesis same_double_escape : DoubleEscapeChars o1 = DoubleEscapeChars o2.

Lemma raw_loop_same (f : nat) (acc input cur : gostring) :
  raw_loop f o1 acc input cur = raw_loop f o2 acc input cur.
Proof.
  revert cur. induction f as [|f IH]; intros cur; [destruct cur; reflexivity|].
  destruct cur as [|b cur]; [reflexivity|]. cbn [raw_loop].
  destruct (utf8.DecodeRuneInString (b :: cur)) as [c l].
  now rewrite same_split, same_single, same_double, same_escape, IH.
Qed.

Lemma double_loop_same (f : nat) (acc input cur : gostring) :
  double_loop f o1 acc input cur = double_loop f o2 acc input cur.
Proof.
  revert acc input cur. induction f as [|f IH]; intros acc input cur;
    [destruct cur; reflexivity|].
  destruct cur as [|b cur]; [reflexivity|]. cbn [double_loop].
  destruct (utf8.DecodeRuneInString (b :: cur)) as [c l].
  destruct (utf8.DecodeRuneInString (from l (b :: cur))) as [c2 l2].
  now rewrite same_double, same_escape, same_double_escape, !IH.
Qed.

Lemma block_same (st : wstate) : block o1 st = block o2 st.
Proof.
  unfold block. destruct (lbl st).
  - apply raw_loop_same.
  - reflexivity.
  - unfold single_block. now rewrite same_single.
  - apply double_loop_same.
Qed.

Lemma run_same (f : nat) (st : wstate) : run f o1 st = run f o2 st.
Proof.
  revert st. induction f as [|f IH]; intros st; [reflexivity|]. cbn [run].
  rewrite block_same. destruct (block o2 st) as [[st'|w r|e]|]; auto.
Qed.

Lemma splitWord_same (input : gostring) : splitWord input o1 = splitWord input o2.
Proof. apply run_same. Qed.

Lemma lookahead_same (words : list gostring) (input : gostring) c l :
  lookahead o1 words input c l = lookahead o2 words input c l.
Proof. unfold lookahead. now rewrite same_escape. Qed.

End SameChars.

Lemma splitWord_with_Limit (opts : SplitOptions) (n : Z) (input : gostring) :
  splitWord input (with_Limit opts n) = splitWord input opts.
Proof. now apply splitWord_same. Qed.

Lemma loop_body_with_Limit (opts : SplitOptions) (n : Z) sc words input :
  loop_body (with_Limit opts n) sc words input =
  let '(c, l) := utf8.DecodeRuneInString input in
  if strings.ContainsRune sc c then Some (Continue words (from l input))
  else
    match lookahead opts words input c l with
    | Some t => Some t
    | None => option_map (finish_word (with_Limit opts n) words)
                (splitWord input opts)
    end.
Proof.
  unfold loop_body, word_turn. rewrite splitWord_with_Limit.
  destruct (utf8.DecodeRuneInString input) as [c l].
  now rewrite (lookahead_same (with_Limit opts n) opts eq_refl).
Qed.

(** Without a limit the main loop only appends to its words. *)
Lemma main_loop_grows (opts : SplitOptions) sc (f : nat) :
  Limit opts < 0 ->
  forall words input ws e,
    main_loop f opts sc words input = Some (ws, e) -> exists tl, ws = words ++ tl.
Proof.
  intros Hl. induction f as [|f IH]; intros words input ws e.
  - destruct input; cbn; [|discriminate]. intros [= <- _]. exists [].
    now rewrite app_nil_r.
  - cbn [main_loop]. destruct (0 <? length input)%nat;
      [|intros [= <- _]; exists []; now rewrite app_nil_r].
    destruct (loop_body opts sc words input) as [[ws' i|ws' e']|] eqn:E;
      [| |discriminate].
    + intros H. apply IH in H. destruct H as [tl ->].
      apply loop_body_continue_word in E.
      destruct E as [->|(w & _ & ->)]; [eauto|].
      exists ([w] ++ tl). now rewrite app_assoc.
    + intros [= <- <-]. apply loop_body_words in E.
      destruct E as [[-> _]|(w & Hw & _)];
        [exists []; now rewrite app_nil_r|].
      rewrite length_app in Hw. cbn [length] in Hw. lia.
Qed.

(** One turn under a limit [n] that the words do not reach yet, against
    the same turn without limit. *)
Lemma loop_body_limit (opts : SplitOptions) (n : Z) sc words input :
  Limit opts < 0 ->
  match loop_body opts sc words input with
  | Some (Continue ws i) =>
      loop_body (with_Limit opts n) sc words input = Some (Continue ws i) \/
      (ws <> words /\ n = Z.of_nat (length ws) + 1 /\
       exists tl, loop_body (with_Limit opts n) sc words input =
                  Some (Return (ws ++ tl) None))
  | Some (Return ws e) =>
      loop_body (with_Limit opts n) sc words input = Some (Return ws e)
  | None => True
  end.
Proof.
  intros Hl. rewrite loop_body_with_Limit. unfold loop_body, word_turn.
  destruct (utf8.DecodeRuneInString input) as [c l].
  destruct (strings.ContainsRune sc c); [now left|].
  destruct (lookahead opts words input c l) as [[ws i|ws e]|];
    [now left|reflexivity|].
  destruct (splitWord input opts) as [[[w r] [e|]]|]; cbn [option_map];
    [reflexivity| |exact I].
  rewrite (finish_word_no_limit opts Hl). cbn [finish_word with_Limit Limit].
  destruct (Z.eqb_spec n (Z.of_nat (length (words ++ [w])) + 1)) as [Hn|Hn];
    [|now left].
  right. split; [|split; [assumption|]].
  - intros H. apply (f_equal (@length gostring)) in H.
    rewrite length_app in H. cbn in H. lia.
  - destruct (0 <? length (strings.TrimSpace r))%nat; [eauto|].
    exists []. now rewrite app_nil_r.
Qed.

(** The main loop under a limit [n] against the main loop without
    limit: the same result, or the limit was reached at words [pre] that
    the loop without limit goes on from. *)
Lemma main_loop_limit (opts : SplitOptions) (n : Z) sc (f : nat) :
  Limit opts < 0 ->
  forall words input ws e,
    main_loop f opts sc words input = Some (ws, e) ->
    main_loop f (with_Limit opts n) sc words input = Some (ws, e) \/
    exists pre tlN tl,
      Z.of_nat (length pre) + 1 = n /\ ws = pre ++ tl /\
      main_loop f (with_Limit opts n) sc words input = Some (pre ++ tlN, None).
Proof.
  intros Hl. induction f as [|f IH]; intros words input ws e.
  - destruct input; cbn; [|discriminate]. intros [= <- <-]. now left.
  - cbn [main_loop]. destruct (0 <? length input)%nat; [|now left].
    pose proof (loop_body_limit opts n sc words input Hl) as Hb.
    destruct (loop_body opts sc words input) as [[ws' i|ws' e']|];
      [| |discriminate].
    + intros H. destruct Hb as [->|(_ & Hn & tl & ->)]; [now apply IH|].
      right. apply (main_loop_grows _ _ _ Hl) in H. destruct H as [tl' ->].
      exists ws', tl, tl'. repeat split. lia.
    + rewrite Hb. now left.
Qed.

(** Every negative limit is no limit. *)
Theorem negative_limit_is_unlimited (input : gostring) (opts : SplitOptions) (n : Z) :
  Limit opts < 0 -> n < 0 ->
  SplitWithOptions input (with_Limit opts n) = SplitWithOptions input opts.
Proof.
  intros Hl Hn.
  destruct (SplitWithOptions_returns input opts) as (ws & e & H). rewrite H.
  revert H. unfold SplitWithOptions. cbn [with_Limit Limit SplitChars].
  destruct (Z.eqb_spec (Limit opts) 0); [lia|].
  destruct (Z.eqb_spec (Limit opts) 1); [lia|].
  destruct (Z.eqb_spec n 0); [lia|]. destruct (Z.eqb_spec n 1); [lia|].
  intros H. destruct (main_loop_limit opts n _ _ Hl _ _ _ _ H)
    as [E|(pre & tlN & tl & Hp & _)]; [exact E|lia].
Qed.

Lemma negative_limit_is_unlimited_witness :
  (Limit DefaultSplitOptions < 0 /\ -7 < 0) /\
  SplitWithOptions ex_abcd (with_Limit DefaultSplitOptions (-7)) = Split ex_abcd.
Proof.
  assert (H1 : Limit DefaultSplitOptions < 0) by (cbn; lia).
  assert (H2 : -7 < 0) by lia.
  split; [split; assumption|].
  exact (negative_limit_is_unlimited ex_abcd DefaultSplitOptions (-7) H1 H2).
Defined.

(** A limit of at least two more than the number of words that the
    split without limit returns changes nothing, error included. *)
Theorem limit_beyond_words (input : gostring) (opts : SplitOptions) (n : Z)
    (ws : list gostring) (e : option error) :
  Limit opts < 0 -> SplitWithOptions input opts = Some (ws, e) ->
  Z.of_nat (length ws) + 2 <= n ->
  SplitWithOptions input (with_Limit opts n) = Some (ws, e).
Proof.
  intros Hl H Hn. revert H. unfold SplitWithOptions.
  cbn [with_Limit Limit SplitChars].
  destruct (Z.eqb_spec (Limit opts) 0); [lia|].
  destruct (Z.eqb_spec (Limit opts) 1); [lia|].
  destruct (Z.eqb_spec n 0); [lia|]. destruct (Z.eqb_spec n 1); [lia|].
  intros H. destruct (main_loop_limit opts n _ _ Hl _ _ _ _ H)
    as [E|(pre & tlN & tl & Hp & -> & _)]; [exact E|].
  rewrite length_app in Hn. lia.
Qed.

Lemma limit_beyond_words_witness :
  (Limit DefaultSplitOptions < 0 /\
   Split ex_unterminated = Some ([gs "foo"], Some UnterminatedSingleQuoteError) /\
   Z.of_nat (length [gs "foo"]) + 2 <= 3) /\
  SplitN ex_unterminated 3 = Some ([gs "foo"], Some UnterminatedSingleQuoteError).
Proof.
  assert (H1 : Limit DefaultSplitOptions < 0) by (cbn; lia).
  assert (H2 : Split ex_unterminated =
               Some ([gs "foo"], Some UnterminatedSingleQuoteError))
    by (vm_compute; reflexivity).
  assert (H3 : Z.of_nat (length [gs "foo"]) + 2 <= 3) by (cbn; lia).
  split; [repeat split; assumption|].
  exact (limit_beyond_words ex_unterminated DefaultSplitOptions 3 _ _ H1 H2 H3).
Defined.

(** Under a limit [n >= 2] the first [n - 1] words are those of the
    split without limit, and an error is the error of that split. *)
Theorem limit_keeps_first_words (input : gostring) (opts : SplitOptions) (n : Z)
    (ws : list gostring) (e : option error) :
  Limit opts < 0 -> 2 <= n -> SplitWithOptions input opts = Some (ws, e) ->
  exists wsN eN,
    SplitWithOptions input (with_Limit opts n) = Some (wsN, eN) /\
    firstn (Z.to_nat (n - 1)) wsN = firstn (Z.to_nat (n - 1)) ws /\
    (eN = e \/ eN = None).
Proof.
  intros Hl Hn. unfold SplitWithOptions. cbn [with_Limit Limit SplitChars].
  destruct (Z.eqb_spec (Limit opts) 0); [lia|].
  destruct (Z.eqb_spec (Limit opts) 1); [lia|].
  destruct (Z.eqb_spec n 0); [lia|]. destruct (Z.eqb_spec n 1); [lia|].
  intros H. destruct (main_loop_limit opts n _ _ Hl _ _ _ _ H)
    as [E|(pre & tlN & tl & Hp & -> & E)]; rewrite E.
  - exists ws, e. auto.
  - exists (pre ++ tlN), None. split; [reflexivity|]. split; [|now right].
    replace (Z.to_nat (n - 1)) with (length pre + 0)%nat by lia.
    now rewrite !firstn_app_2.
Qed.

Lemma limit_keeps_first_words_witness :
  (Limit DefaultSplitOptions < 0 /\ 2 <= 3 /\
   Split ex_abcd = Some ([gs "a"; gs "b"; gs "c"; gs "d"], None)) /\
  exists wsN eN,
    SplitN ex_abcd 3 = Some (wsN, eN) /\
    firstn (Z.to_nat (3 - 1)) wsN =
      firstn (Z.to_nat (3 - 1)) [gs "a"; gs "b"; gs "c"; gs "d"] /\
    (eN = None \/ eN = None).
Proof.
  assert (H1 : Limit DefaultSplitOptions < 0) by (cbn; lia).
  assert (H2 : 2 <= 3) by lia.
  assert (H3 : Split ex_abcd = Some ([gs "a"; gs "b"; gs "c"; gs "d"], None))
    by (vm_compute; reflexivity).
  split; [repeat split; assumption|].
  exact (limit_keeps_first_words ex_abcd DefaultSplitOptions 3 _ _ H1 H2 H3).
Defined.

(* ================================================================= *)
(** * Splitting input put together from parts *)

(** Without a limit, words the main loop starts with are carried
    through. *)
Lemma main_loop_acc (opts : SplitOptions) sc (f : nat) :
  Limit opts < 0 ->
  forall w0 words input,
    main_loop f opts sc (w0 ++ words) input =
    option_map (fun r => (w0 ++ fst r, snd r)) (main_loop f opts sc words input).
Proof.
  intros Hl. induction f as [|f IH]; intros w0 words input.
  - destruct input; reflexivity.
  - cbn [main_loop]. destruct (0 <? length input)%nat; [|reflexivity].
    unfold loop_body, lookahead, word_turn.
    destruct (utf8.DecodeRuneInString input) as [c l].
    destruct (strings.ContainsRune sc c); [apply IH|].
    assert (Hw :
      match option_map (finish_word opts (w0 ++ words)) (splitWord input opts) with
      | Some (Continue ws i) => main_loop f opts sc ws i
      | Some (Return ws e) => Some (ws, e)
      | None => None
      end =
      option_map (fun r => (w0 ++ fst r, snd r))
        match option_map (finish_word opts words) (splitWord input opts) with
        | Some (Continue ws i) => main_loop f opts sc ws i
        | Some (Return ws e) => Some (ws, e)
        | None => None
        end).
    { destruct (splitWord input opts) as [[[w r] [e|]]|]; try reflexivity.
      cbn [option_map]. rewrite !(finish_word_no_limit opts Hl).
      rewrite <- app_assoc. apply IH. }
    destruct (c =? EscapeChar opts); [|exact Hw].
    destruct (length (from l input) =? 0)%nat; [reflexivity|].
    destruct (utf8.DecodeRuneInString (from l input)) as [c2 l2].
    destruct (c2 =? 10); [apply IH|exact Hw].
Qed.

Lemma loop_acc (ws : list gostring) (input : gostring) wb e :
  loop DefaultSplitOptions DefaultSplitChars [] input = Some (wb, e) ->
  loop DefaultSplitOptions DefaultSplitChars ws input = Some (ws ++ wb, e).
Proof.
  intros H. unfold loop in *. rewrite <- (app_nil_r ws) at 1.
  rewrite (main_loop_acc _ _ _ default_no_limit), H. reflexivity.
Qed.

(** Under the default options, when the split of [a] succeeds and a
    non-empty run of split characters follows it, the split of the whole
    is the words of [a] followed by the split of the rest. *)
Theorem split_concatenation (a r b : gostring) (wa wb : list gostring)
    (e : option error) :
  Split a = Some (wa, None) ->
  Forall (fun y => In y DefaultSplitChars) r -> r <> [] ->
  Split b = Some (wb, e) ->
  Split (a ++ r ++ b) = Some (wa ++ wb, e).
Proof.
  intros Ha Hr Hne Hb. rewrite Split_loop in *.
  rewrite (loop_app_seps a [] wa r b Ha Hr Hne). now apply loop_acc.
Qed.

Lemma split_concatenation_witness :
  (Split ex_before = Some ([gs "foo"; gs "a  b"], None) /\
   Forall (fun y => In y DefaultSplitChars) ex_run /\ ex_run <> [] /\
   Split ex_unterminated = Some ([gs "foo"], Some UnterminatedSingleQuoteError)) /\
  Split (ex_before ++ ex_run ++ ex_unterminated) =
  Some ([gs "foo"; gs "a  b"] ++ [gs "foo"], Some UnterminatedSingleQuoteError).
Proof.
  assert (H1 : Split ex_before = Some ([gs "foo"; gs "a  b"], None))
    by (vm_compute; reflexivity).
  assert (H2 : Forall (fun y => In y DefaultSplitChars) ex_run)
    by (repeat constructor; cbn; tauto).
  assert (H3 : ex_run <> []) by discriminate.
  assert (H4 : Split ex_unterminated =
               Some ([gs "foo"], Some UnterminatedSingleQuoteError))
    by (vm_compute; reflexivity).
  split; [repeat split; assumption|].
  exact (split_concatenation ex_before ex_run ex_unterminated _ _ _ H1 H2 H3 H4).
Defined.

(** Literal text is one word. *)
Lemma split_plain_word (w : gostring) :
  w <> [] -> plain DefaultSplitOptions w = true -> Split w = Some ([w], None).
Proof.
  intros Hne Hw. rewrite Split_loop.
  destruct w as [|b w]; [congruence|].
  destruct (utf8.DecodeRuneInString (b :: w)) as [c l] eqn:E.
  assert (Hc : is_special DefaultSplitOptions c = false).
  { apply (plain_head _ b w [] c l); [assumption|apply ascii_head_nil|].
    now rewrite app_nil_r. }
  apply is_special_false in Hc. destruct Hc as (_ & _ & Hesc & Hsep).
  rewrite (loop_turn _ _ _ _ (Continue [b :: w] [])); [reflexivity|discriminate|].
  unfold loop_body. rewrite E. cbn [SplitChars DefaultSplitOptions] in Hsep.
  rewrite Hsep. unfold lookahead. rewrite Hesc. unfold word_turn.
  rewrite splitWord_exec.
  rewrite (exec_word _ _ (b :: w) []); [reflexivity|].
  unfold block; cbn [lbl buf inp]. unfold raw_block.
  rewrite <- (app_nil_r (b :: w)) at 3.
  rewrite raw_loop_plain by (rewrite ?app_nil_r; auto using ascii_head_nil).
  now rewrite raw_loop_nil.
Qed.

(** Under the default options, non-empty words of literal text (no
    quote, backslash or split character in them), joined by single
    spaces, split into the same words. *)
Theorem join_then_split (ws : list gostring) :
  Forall (fun w => w <> [] /\ plain DefaultSplitOptions w = true) ws ->
  Split (join_words ws) = Some (ws, None).
Proof.
  induction 1 as [|w ws [Hne Hw] Hws IH]; [reflexivity|].
  cbn [join_words]. destruct ws as [|w' ws]; [now apply split_plain_word|].
  pose proof (split_plain_word w Hne Hw) as Hs. rewrite Split_loop in *.
  change (w ++ x20 :: join_words (w' :: ws))
    with (w ++ [x20] ++ join_words (w' :: ws)).
  rewrite (loop_app_seps w [] [w] [x20] _ Hs);
    [|repeat constructor|discriminate].
  now apply (loop_acc [w] _ (w' :: ws) None).
Qed.

Lemma join_then_split_witness :
  Forall (fun w => w <> [] /\ plain DefaultSplitOptions w = true)
    [gs "one"; [xc3; xa9]; gs "three"] /\
  Split (join_words [gs "one"; [xc3; xa9]; gs "three"]) =
  Some ([gs "one"; [xc3; xa9]; gs "three"], None).
Proof.
  assert (H : Forall (fun w => w <> [] /\ plain DefaultSplitOptions w = true)
                [gs "one"; [xc3; xa9]; gs "three"])
    by (repeat constructor; discriminate).
  split; [exact H|]. exact (join_then_split _ H).
Defined.

(* ================================================================= *)
(** * Double quotes *)

(** A string without the ASCII byte [q] has no rune of that value. *)
Lemma no_byte_no_rune (q : byte) (s : gostring) c l :
  b2z q < 0x80 -> ~ In q s -> s <> [] ->
  utf8.DecodeRuneInString s = (c, l) -> (c =? b2z q) = false.
Proof.
  intros Hq Hn Hne E. apply Z.eqb_neq. intros Hc.
  destruct s as [|b s]; [congruence|].
  apply decode_ascii_inv in E; [|lia]. destruct E as [Hb _].
  apply Hn. left. apply b2z_inj. congruence.
Qed.

(** The loop of [double] runs over text without quote and backslash. *)
Lemma double_loop_literal (u : gostring) :
  forall (f : nat) (acc input rest : gostring),
    ~ In x22 u -> ~ In x5c u -> ascii_head rest ->
    (length (u ++ rest) <= f)%nat ->
    double_loop f DefaultSplitOptions acc input (u ++ rest) =
    double_loop (length rest) DefaultSplitOptions acc input rest.
Proof.
  remember (length u) as n eqn:Hn. revert u Hn.
  induction n as [n IH] using lt_wf_ind. intros u Hn f acc input rest Hq Hb Hr Hf.
  destruct u as [|b u].
  - cbn [app] in *. apply double_loop_fuel; lia.
  - destruct (utf8.DecodeRuneInString (b :: u)) as [c l] eqn:E.
    assert (Hne : b :: u <> []) by discriminate.
    pose proof (decode_width _ _ _ Hne E) as [Hl _].
    pose proof (no_byte_no_rune x22 _ _ _ ltac:(vm_compute; reflexivity) Hq Hne E) as H1.
    pose proof (no_byte_no_rune x5c _ _ _ ltac:(vm_compute; reflexivity) Hb Hne E) as H2.
    destruct f as [|f]; [cbn in Hf; lia|].
    cbn [double_loop app]. change (b :: u ++ rest) with ((b :: u) ++ rest).
    rewrite (decode_app _ _ Hne Hr), E.
    change (DoubleChar DefaultSplitOptions) with (b2z x22).
    change (EscapeChar DefaultSplitOptions) with (b2z x5c).
    rewrite H1, H2. rewrite from_app_le by lia.
    apply (IH (length (from l (b :: u)))); try assumption; try reflexivity.
    + rewrite from_length. subst n. cbn [length] in *. lia.
    + now apply not_In_from.
    + now apply not_In_from.
    + rewrite length_app, from_length. rewrite length_app in Hf.
      cbn [length] in *. lia.
Qed.

(** The closing quote ends the block [double]. *)
Lemma double_loop_closing (f : nat) (acc p rest : gostring) :
  double_loop (S f) DefaultSplitOptions acc (p ++ x22 :: rest) (x22 :: rest) =
  Some (Goto (mkW Lraw (acc ++ p) rest)).
Proof.
  cbn [double_loop]. rewrite decode_ascii by (vm_compute; reflexivity).
  change (b2z x22 =? DoubleChar DefaultSplitOptions) with true. cbv iota.
  rewrite scanned_prefix by (cbn [length]; lia). reflexivity.
Qed.

Lemma raw_block_double_quote (acc rest : gostring) :
  raw_block DefaultSplitOptions acc (x22 :: rest) =
  Some (Goto (mkW Ldouble acc rest)).
Proof.
  unfold raw_block. cbn [length raw_loop].
  rewrite decode_ascii by (vm_compute; reflexivity).
  change (b2z x22 =? SingleChar DefaultSplitOptions) with false.
  change (b2z x22 =? DoubleChar DefaultSplitOptions) with true. cbv iota.
  unfold from. cbn [skipn length].
  replace (S (length rest) - length rest - 1)%nat with 0%nat by lia.
  unfold upto. cbn [firstn]. now rewrite app_nil_r.
Qed.

(** A turn of the main loop at a word that begins with a double quote. *)
Lemma loop_at_double_quote (ws : list gostring) (rest : gostring) (r : wresult) :
  exec DefaultSplitOptions (mkW Ldouble [] rest) = Some r ->
  loop DefaultSplitOptions DefaultSplitChars ws (x22 :: rest) =
  after DefaultSplitOptions DefaultSplitChars (finish_word DefaultSplitOptions ws r).
Proof.
  intros H. apply loop_turn; [discriminate|].
  unfold loop_body. rewrite decode_ascii by (vm_compute; reflexivity).
  change (strings.ContainsRune DefaultSplitChars (b2z x22)) with false.
  change (lookahead DefaultSplitOptions ws (x22 :: rest) (b2z x22) 1)
    with (@None turn).
  cbv iota. unfold word_turn. rewrite splitWord_exec.
  rewrite (exec_goto DefaultSplitOptions (mkW Lraw [] (x22 :: rest))
             (mkW Ldouble [] rest) (raw_block_double_quote [] rest)), H.
  reflexivity.
Qed.

Lemma exec_raw_end (w : gostring) :
  exec DefaultSplitOptions (mkW Lraw w []) = Some (w, [], None).
Proof. reflexivity. Qed.

(** Under the default options a double-quoted body without double
    quote and backslash comes back as the one word, byte for byte. *)
Theorem double_quote_transparency (b : gostring) :
  ~ In x22 b -> ~ In x5c b -> Split ([x22] ++ b ++ [x22]) = Some ([b], None).
Proof.
  intros Hq Hb. rewrite Split_loop. cbn [app].
  rewrite (loop_at_double_quote [] _ (b, [], None)); [reflexivity|].
  rewrite (exec_goto _ _ (mkW Lraw b [])); [apply exec_raw_end|].
  unfold block; cbn [lbl buf inp]. unfold double_block.
  rewrite double_loop_literal;
    [|assumption|assumption|apply ascii_head_cons; vm_compute; reflexivity|lia].
  apply (double_loop_closing 0 [] b []).
Qed.

Lemma double_quote_transparency_witness :
  (~ In x22 (gs "it's  $HOME") /\ ~ In x5c (gs "it's  $HOME")) /\
  Split ([x22] ++ gs "it's  $HOME" ++ [x22]) = Some ([gs "it's  $HOME"], None).
Proof.
  assert (H1 : ~ In x22 (gs "it's  $HOME")) by (cbn; intuition discriminate).
  assert (H2 : ~ In x5c (gs "it's  $HOME")) by (cbn; intuition discriminate).
  split; [split; assumption|].
  exact (double_quote_transparency (gs "it's  $HOME") H1 H2).
Defined.

Lemma b2z_eqb (b c : byte) : (b2z b =? b2z c) = Byte.eqb c b.
Proof.
  destruct (Z.eqb_spec (b2z b) (b2z c)) as [H|H].
  - apply b2z_inj in H. subst. symmetry. now apply Byte.byte_dec_lb.
  - destruct (Byte.eqb c b) eqn:E; [|reflexivity].
    apply Byte.byte_dec_bl in E. subst. congruence.
Qed.

Lemma IndexByte_found (s : gostring) (c : byte) :
  (0 <=? strings.IndexByte s (b2z c)) = existsb (Byte.eqb c) s.
Proof.
  induction s as [|b s IH]; [reflexivity|].
  cbn [strings.IndexByte existsb]. rewrite b2z_eqb.
  destruct (Byte.eqb c b); [reflexivity|]. cbn [orb]. rewrite <- IH.
  destruct (IndexByte_range s (b2z c)) as [H|[_ H]];
    destruct (Z.ltb_spec (strings.IndexByte s (b2z c)) 0);
    destruct (Z.leb_spec 0 (strings.IndexByte s (b2z c))); try lia;
    symmetry; (apply Z.leb_le || apply Z.leb_gt); lia.
Qed.

(** [ContainsRune] at an ASCII byte is membership of the byte. *)
Lemma ContainsRune_ascii (s : gostring) (c : byte) :
  b2z c < 0x80 -> strings.ContainsRune s (b2z c) = existsb (Byte.eqb c) s.
Proof.
  intros Hc. pose proof (b2z_range c). unfold strings.ContainsRune, strings.IndexRune.
  replace ((0 <=? b2z c) && (b2z c <? utf8.RuneSelf)) with true
    by (unfold utf8.RuneSelf; symmetry; apply andb_true_iff; lia).
  apply IndexByte_found.
Qed.

Lemma byte_of_b2z (c : byte) : utf8.byte_of (b2z c) = c.
Proof.
  pose proof (b2z_range c). unfold utf8.byte_of.
  rewrite Z.mod_small by lia. unfold b2z. rewrite N2Z.id.
  now rewrite Byte.of_to_N.
Qed.

Lemma EncodeRune_ascii (c : byte) : b2z c < 0x80 -> utf8.EncodeRune (b2z c) = [c].
Proof.
  intros Hc. pose proof (b2z_range c). unfold utf8.EncodeRune.
  replace ((0 <=? b2z c) && (b2z c <=? 127)) with true
    by (symmetry; apply andb_true_iff; lia).
  now rewrite byte_of_b2z.
Qed.

(** The loop of [double] at a backslash before an ASCII byte. *)
Lemma double_loop_at_escape (f : nat) (acc p rest : gostring) (c : byte) :
  b2z c < 0x80 ->
  double_loop (S f) DefaultSplitOptions acc (p ++ x5c :: c :: rest)
    (x5c :: c :: rest) =
  if existsb (Byte.eqb c) DefaultDoubleEscapeChars then
    double_loop f DefaultSplitOptions
      ((acc ++ p) ++ (if b2z c =? 10 then [] else [c])) rest rest
  else double_loop f DefaultSplitOptions acc (p ++ x5c :: c :: rest) rest.
Proof.
  intros Hc. cbn [double_loop].
  rewrite decode_ascii by (vm_compute; reflexivity).
  change (b2z x5c =? DoubleChar DefaultSplitOptions) with false.
  change (b2z x5c =? EscapeChar DefaultSplitOptions) with true. cbv iota.
  cbn [from skipn]. rewrite decode_ascii by assumption. cbn [skipn].
  cbn [DoubleEscapeChars DefaultSplitOptions].
  rewrite (ContainsRune_ascii _ c Hc).
  change (from 1 (c :: rest)) with rest.
  destruct (existsb (Byte.eqb c) DefaultDoubleEscapeChars); [|reflexivity].
  replace (length (p ++ x5c :: c :: rest) - length rest - 1 - 1)%nat
    with (length p) by (rewrite length_app; cbn [length]; lia).
  rewrite upto_app, EncodeRune_ascii by assumption.
  destruct (b2z c =? 10); now rewrite ?app_nil_r.
Qed.

(** Under the default options, in a double-quoted string, a backslash
    before a newline is dropped with the newline; before one of the
    characters dollar, backquote, double quote and backslash it is dropped
    and the character kept; before another ASCII character both are kept.
    The text [u] and [v] around is without double quote and backslash. *)
Theorem double_quote_escape (u v : gostring) (c : byte) :
  ~ In x22 u -> ~ In x5c u -> ~ In x22 v -> ~ In x5c v -> b2z c < 0x80 ->
  Split ([x22] ++ u ++ [x5c; c] ++ v ++ [x22]) =
  Some ([u ++ (if Byte.eqb c x0a then []
               else if existsb (Byte.eqb c) DefaultDoubleEscapeChars then [c]
               else [x5c; c]) ++ v], None).
Proof.
  intros Hqu Hbu Hqv Hbv Hc. rewrite Split_loop. cbn [app].
  assert (Hn : Byte.eqb c x0a = (b2z c =? 10))
    by (rewrite <- (b2z_eqb x0a c); apply Z.eqb_sym).
  rewrite Hn.
  set (e := if b2z c =? 10 then [] else _).
  rewrite (loop_at_double_quote [] _ (u ++ e ++ v, [], None)); [reflexivity|].
  rewrite (exec_goto _ _ (mkW Lraw (u ++ e ++ v) [])); [apply exec_raw_end|].
  unfold block; cbn [lbl buf inp]. unfold double_block.
  assert (Hq : ascii_head [x22]) by (apply ascii_head_cons; vm_compute; reflexivity).
  rewrite double_loop_literal;
    [|assumption|assumption|apply ascii_head_cons; vm_compute; reflexivity|lia].
  change (length (x5c :: c :: v ++ [x22])) with (S (S (length (v ++ [x22])))).
  rewrite (double_loop_at_escape _ [] u (v ++ [x22]) c Hc). subst e.
  assert (Hx : (b2z c =? 10) = true ->
               existsb (Byte.eqb c) DefaultDoubleEscapeChars = true).
  { intros H. apply Z.eqb_eq in H. change 10 with (b2z x0a) in H.
    apply b2z_inj in H. now subst. }
  destruct (existsb (Byte.eqb c) DefaultDoubleEscapeChars).
  - rewrite double_loop_literal; [|assumption|assumption|exact Hq|lia].
    rewrite (double_loop_closing 0 _ v []).
    destruct (b2z c =? 10); now rewrite <- ?app_assoc.
  - destruct (b2z c =? 10); [now discriminate Hx|].
    rewrite double_loop_literal; [|assumption|assumption|exact Hq|lia].
    replace (u ++ x5c :: c :: v ++ [x22])
      with ((u ++ [x5c; c] ++ v) ++ x22 :: [])
      by (now rewrite <- !app_assoc).
    apply (double_loop_closing 0 [] (u ++ [x5c; c] ++ v) []).
Qed.

Lemma double_quote_escape_witness :
  (~ In x22 (gs "a") /\ ~ In x5c (gs "a") /\ ~ In x22 (gs "b") /\
   ~ In x5c (gs "b") /\ b2z x78 < 0x80) /\
  Split ([x22] ++ gs "a" ++ [x5c; x78] ++ gs "b" ++ [x22]) = Some ([gs "a\xb"], None).
Proof.
  assert (H1 : ~ In x22 (gs "a")) by (cbn; intuition discriminate).
  assert (H2 : ~ In x5c (gs "a")) by (cbn; intuition discriminate).
  assert (H3 : ~ In x22 (gs "b")) by (cbn; intuition discriminate).
  assert (H4 : ~ In x5c (gs "b")) by (cbn; intuition discriminate).
  assert (H5 : b2z x78 < 0x80) by (vm_compute; reflexivity).
  split; [repeat split; assumption|].
  exact (double_quote_escape (gs "a") (gs "b") x78 H1 H2 H3 H4 H5).
Defined.

(** Without a closing quote the loop of [double] fails, whatever the
    backslashes. *)
Lemma double_loop_no_quote (f : nat) :
  forall (cur acc input : gostring),
    ~ In x22 cur -> (length cur <= f)%nat ->
    double_loop f DefaultSplitOptions acc input cur =
    Some (Fail UnterminatedDoubleQuoteError).
Proof.
  induction f as [|f IH]; intros cur acc input Hq Hf.
  - destruct cur; [reflexivity|cbn in Hf; lia].
  - destruct cur as [|b cur]; [reflexivity|].
    assert (Hne : b :: cur <> []) by discriminate.
    destruct (utf8.DecodeRuneInString (b :: cur)) as [c l] eqn:E.
    pose proof (decode_step _ _ _ Hne E) as Hs.
    pose proof (no_byte_no_rune x22 _ _ _ ltac:(vm_compute; reflexivity) Hq Hne E) as H1.
    cbn [double_loop]. rewrite E.
    change (DoubleChar DefaultSplitOptions) with (b2z x22). rewrite H1.
    destruct (utf8.DecodeRuneInString (from l (b :: cur))) as [c2 l2].
    assert (length (from l2 (from l (b :: cur))) <= f)%nat
      by (rewrite (from_length l2); cbn [length] in *; lia).
    if_goal; apply IH; try assumption; try (cbn [length] in *; lia);
      repeat apply not_In_from; assumption.
Qed.

Lemma exec_raw_double_quote (w q : gostring) :
  ~ In x22 q ->
  exec DefaultSplitOptions (mkW Lraw w (x22 :: q)) =
  Some ([], [], Some UnterminatedDoubleQuoteError).
Proof.
  intros Hq.
  rewrite (exec_goto DefaultSplitOptions (mkW Lraw w (x22 :: q))
             (mkW Ldouble w q) (raw_block_double_quote w q)).
  apply exec_fail. unfold block; cbn [lbl buf inp].
  now apply double_loop_no_quote.
Qed.

(** Under the default options, when the part [p] of the input before a
    double quote splits without error, so that the quote opens a quoted
    span, and no double quote follows, the split ends with
    [UnterminatedDoubleQuoteError]; the words returned with it are those
    of [p], but for a last word of [p] that the quote continues. *)
Theorem unterminated_double_quote (p q : gostring) (ws : list gostring) :
  Split p = Some (ws, None) -> ~ In x22 q ->
  exists ws',
    Split (p ++ [x22] ++ q) = Some (ws', Some UnterminatedDoubleQuoteError) /\
    (ws' = ws \/ exists w, ws = ws' ++ [w]).
Proof.
  intros H Hq. rewrite Split_loop in *.
  assert (Ha : ascii_head ([x22] ++ q))
    by (apply ascii_head_cons; vm_compute; reflexivity).
  destruct (loop_app DefaultSplitOptions ([x22] ++ q) Ha default_single_ascii
              default_no_limit DefaultSplitChars (length p) p [] ws
              (Nat.le_refl _) H) as [->|(ws0 & w & -> & ->)].
  - exists ws. split; [|now left]. cbn [app].
    rewrite (loop_at_double_quote ws q ([], [], Some UnterminatedDoubleQuoteError));
      [reflexivity|].
    apply exec_fail. unfold block; cbn [lbl buf inp].
    now apply double_loop_no_quote.
  - exists ws0. split; [|right; eauto]. cbn [app].
    now rewrite exec_raw_double_quote.
Qed.

Lemma unterminated_double_quote_witness :
  (Split (gs "foo bar") = Some ([gs "foo"; gs "bar"], None) /\
   ~ In x22 (gs "baz\ ")) /\
  exists ws',
    Split (gs "foo bar" ++ [x22] ++ gs "baz\ ") =
      Some (ws', Some UnterminatedDoubleQuoteError) /\
    (ws' = [gs "foo"; gs "bar"] \/ exists w, [gs "foo"; gs "bar"] = ws' ++ [w]).
Proof.
  assert (H : Split (gs "foo bar") = Some ([gs "foo"; gs "bar"], None))
    by (vm_compute; reflexivity).
  assert (Hq : ~ In x22 (gs "baz\ ")) by (cbn; intuition discriminate).
  split; [split; assumption|].
  exact (unterminated_double_quote (gs "foo bar") (gs "baz\ ") _ H Hq).
Defined.

(** Under the default options a backslash at the very end, after a
    part [p] that splits without error, gives
    [UnterminatedEscapeError], in the main loop as in a word. *)
Theorem trailing_backslash (p : gostring) (ws : list gostring) :
  Split p = Some (ws, None) ->
  exists ws',
    Split (p ++ [x5c]) = Some (ws', Some UnterminatedEscapeError) /\
    (ws' = ws \/ exists w, ws = ws' ++ [w]).
Proof.
  intros H. rewrite Split_loop in *.
  assert (Ha : ascii_head [x5c]) by (apply ascii_head_cons; vm_compute; reflexivity).
  destruct (loop_app DefaultSplitOptions [x5c] Ha default_single_ascii
              default_no_limit DefaultSplitChars (length p) p [] ws
              (Nat.le_refl _) H) as [->|(ws0 & w & -> & ->)].
  - exists ws. split; [reflexivity|now left].
  - exists ws0. split; [reflexivity|right; eauto].
Qed.

Lemma trailing_backslash_witness :
  Split (gs "foo bar") = Some ([gs "foo"; gs "bar"], None) /\
  exists ws',
    Split (gs "foo bar" ++ [x5c]) = Some (ws', Some UnterminatedEscapeError) /\
    (ws' = [gs "foo"; gs "bar"] \/ exists w, [gs "foo"; gs "bar"] = ws' ++ [w]).
Proof.
  assert (H : Split (gs "foo bar") = Some ([gs "foo"; gs "bar"], None))
    by (vm_compute; reflexivity).
  split; [exact H|]. exact (trailing_backslash (gs "foo bar") _ H).
Defined.

(* ================================================================= *)
(** * Input without quotes and escapes *)

Lemma loop_body_unquoted_turn (opts : SplitOptions) (words : list gostring)
    (input : gostring) :
  input <> [] -> unquoted opts input = true ->
  exists t,
    loop_body opts (resolved opts) words input = Some t /\
    match t with
    | Continue _ i => unquoted opts i = true
    | Return _ e => e = None
    end.
Proof.
  intros Hne Hu. unfold loop_body.
  destruct (utf8.DecodeRuneInString input) as [c l] eqn:E.
  destruct (unquoted_cons _ _ _ _ Hne E Hu) as [Hc Hu'].
  destruct (is_quote_false _ _ Hc) as (_ & _ & H3).
  destruct (strings.ContainsRune (resolved opts) c) eqn:Hsep; [eauto|].
  unfold lookahead. rewrite H3. unfold word_turn.
  destruct (splitWord_unquoted opts input c l Hne E Hu
              (resolved_contains _ _ Hsep)) as (w & r & -> & Hwn & Hr).
  cbn [option_map finish_word]. eexists. split; [reflexivity|].
  if_goal; auto.
Qed.

Lemma main_loop_unquoted_ok (opts : SplitOptions) (f : nat) :
  forall (words : list gostring) (input : gostring) ws e,
    unquoted opts input = true ->
    main_loop f opts (resolved opts) words input = Some (ws, e) -> e = None.
Proof.
  induction f as [|f IH]; intros words input ws e Hu.
  - destruct input; cbn; [|discriminate]. now intros [= _ <-].
  - cbn [main_loop]. destruct input as [|b input]; [now intros [= _ <-]|].
    cbn [length Nat.ltb Nat.leb].
    destruct (loop_body_unquoted_turn opts words (b :: input)
                ltac:(discriminate) Hu) as (t & -> & Ht).
    destruct t as [ws' i|ws' e']; [now apply IH|]. now intros [= _ <-].
Qed.

(** Under every configuration, an input in which no code point is the
    single quote, the double quote or the escape character splits
    without error. *)
Theorem unquoted_never_fails (input : gostring) (opts : SplitOptions) :
  unquoted opts input = true ->
  exists words, SplitWithOptions input opts = Some (words, None).
Proof.
  intros Hu. destruct (SplitWithOptions_returns input opts) as (ws & e & H).
  exists ws. rewrite H. do 2 f_equal. revert H.
  unfold SplitWithOptions. fold (resolved opts).
  destruct (Limit opts =? 0); [now intros [= _ <-]|].
  destruct (Limit opts =? 1).
  - destruct (0 <? length _)%nat; now intros [= _ <-].
  - now apply main_loop_unquoted_ok.
Qed.

Lemma unquoted_never_fails_witness :
  unquoted DefaultSplitOptions ex_foo_bar_baz = true /\
  exists words, SplitWithOptions ex_foo_bar_baz DefaultSplitOptions = Some (words, None).
Proof.
  split; [reflexivity|].
  exact (unquoted_never_fails ex_foo_bar_baz DefaultSplitOptions eq_refl).
Defined.

(* ================================================================= *)
(** * What [splitWord] leaves *)

(** [splitWord] returns on every input; on a non-empty input it
    consumes at least one byte, and the remainder it returns without
    error is a suffix of the input.  The main loop ends for that. *)
Theorem splitWord_progress (input : gostring) (opts : SplitOptions) :
  input <> [] ->
  exists w r e,
    splitWord input opts = Some (w, r, e) /\
    (length r < length input)%nat /\
    (e = None -> exists n, r = from n input).
Proof.
  intros Hne. pose proof (splitWord_some input opts) as Hs.
  destruct (splitWord input opts) as [[[w r] e]|] eqn:E; [|congruence].
  exists w, r, e. split; [reflexivity|]. split.
  - eapply splitWord_remainder; eassumption.
  - intros ->. apply run_from in E. exact E.
Qed.

Lemma splitWord_progress_witness :
  ex_quoted <> [] /\
  exists w r e,
    splitWord ex_quoted DefaultSplitOptions = Some (w, r, e) /\
    (length r < length ex_quoted)%nat /\
    (e = None -> exists n, r = from n ex_quoted).
Proof.
  assert (H : ex_quoted <> []) by discriminate.
  split; [exact H|]. exact (splitWord_progress ex_quoted DefaultSplitOptions H).
Defined.

(* ================================================================= *)
(** * The limits 0 and 1 *)

Lemma trimLeftUnicode_from (f : nat) (s cutset : gostring) :
  exists n, strings.trimLeftUnicode f s cutset = from n s.
Proof.
  revert s. induction f as [|f IH]; intros s; [now exists 0%nat|].
  cbn [strings.trimLeftUnicode]. destruct s as [|b s]; [now exists 0%nat|].
  destruct (if utf8.RuneSelf <=? b2z b then _ else _) as [r n].
  destruct (negb (strings.ContainsRune cutset r)); [now exists 0%nat|].
  destruct (IH (from n (b :: s))) as [m ->]. rewrite from_from. eauto.
Qed.

Lemma upto_upto (n m : nat) (s : gostring) : upto n (upto m s) = upto (Nat.min n m) s.
Proof. unfold upto. apply firstn_firstn. Qed.

Lemma upto_all (s : gostring) : upto (length s) s = s.
Proof. apply firstn_all. Qed.

Lemma trimRightUnicode_upto (f : nat) (s cutset : gostring) :
  exists n, strings.trimRightUnicode f s cutset = upto n s.
Proof.
  revert s. induction f as [|f IH]; intros s;
    [exists (length s); now rewrite upto_all|].
  cbn [strings.trimRightUnicode].
  destruct s as [|b s]; [now exists 0%nat|].
  destruct (if utf8.RuneSelf <=? _ then _ else _) as [r n].
  destruct (negb (strings.ContainsRune cutset r));
    [exists (length (b :: s)); now rewrite upto_all|].
  destruct (IH (upto (length (b :: s) - n) (b :: s))) as [m ->].
  rewrite upto_upto. eauto.
Qed.

Lemma TrimLeft_from (s cutset : gostring) :
  exists n, strings.TrimLeft s cutset = from n s.
Proof.
  unfold strings.TrimLeft. destruct s; [now exists 0%nat|].
  destruct cutset; [now exists 0%nat|]. apply trimLeftUnicode_from.
Qed.

Lemma TrimRight_upto (s cutset : gostring) :
  exists n, strings.TrimRight s cutset = upto n s.
Proof.
  unfold strings.TrimRight. destruct s; [now exists 0%nat|].
  destruct cutset; [exists (length (b :: s)); now rewrite upto_all|].
  apply trimRightUnicode_upto.
Qed.

(** Under every configuration with limit 0 or 1 the call returns no
    error, whatever quotes the input opens: limit 0 gives no word, and
    limit 1 gives no word or one word that is a piece of the input as it
    stands, quotes and backslashes included. *)
Theorem limit_zero_one_verbatim (input : gostring) (opts : SplitOptions) :
  Limit opts = 0 \/ Limit opts = 1 ->
  exists pre t post,
    input = pre ++ t ++ post /\
    SplitWithOptions input opts =
      Some (match t with [] => [] | _ :: _ => [t] end, None) /\
    (Limit opts = 0 -> t = []).
Proof.
  intros [H|H]; unfold SplitWithOptions; rewrite H; cbn [Z.eqb].
  - exists [], [], input. auto.
  - fold (resolved opts).
    destruct (TrimRight_upto input (resolved opts)) as [n ->].
    destruct (TrimLeft_from (upto n input) (resolved opts)) as [m ->].
    exists (upto m (upto n input)), (from m (upto n input)), (from n input).
    split; [now rewrite app_assoc, !upto_from|]. split; [|lia].
    destruct (from m (upto n input)); reflexivity.
Qed.

Lemma limit_zero_one_verbatim_witness :
  (Limit (with_Limit DefaultSplitOptions 1) = 0 \/
   Limit (with_Limit DefaultSplitOptions 1) = 1) /\
  exists pre t post,
    gs "  'a b" = pre ++ t ++ post /\
    SplitN (gs "  'a b") 1 = Some (match t with [] => [] | _ :: _ => [t] end, None) /\
    (Limit (with_Limit DefaultSplitOptions 1) = 0 -> t = []).
Proof.
  assert (H : Limit (with_Limit DefaultSplitOptions 1) = 0 \/
              Limit (with_Limit DefaultSplitOptions 1) = 1) by (right; reflexivity).
  split; [exact H|].
  exact (limit_zero_one_verbatim (gs "  'a b") (with_Limit DefaultSplitOptions 1) H).
Defined.

(** ** Stripping the default split characters *)

Lemma b2z_byte_of (z : Z) : b2z (utf8.byte_of z) = z mod 256.
Proof.
  unfold utf8.byte_of, b2z.
  assert (H : 0 <= z mod 256 < 256) by (apply Z.mod_pos_bound; lia).
  destruct (Byte.of_N (Z.to_N (z mod 256))) as [b|] eqn:E.
  - apply Byte.to_of_N in E. rewrite E. lia.
  - apply Byte.of_N_None_iff in E. lia.
Qed.

Lemma byte_of_high (a x : Z) :
  Z.testbit a 7 = true -> Z.testbit (b2z (utf8.byte_of (Z.lor a x))) 7 = true.
Proof.
  intros Ha. rewrite b2z_byte_of. change 256 with (2 ^ 8).
  rewrite Z.mod_pow2_bits_low by lia. rewrite Z.lor_spec, Ha. reflexivity.
Qed.

(** The encoding of a rune from [RuneSelf] on begins with a byte that
    has its high bit set. *)
Lemma EncodeRune_high (r : rune) :
  0x80 <= r ->
  exists b t, utf8.EncodeRune r = b :: t /\ Z.testbit (b2z b) 7 = true.
Proof.
  intros Hr. unfold utf8.EncodeRune.
  destruct ((0 <=? r) && (r <=? 127)) eqn:E1;
    [apply andb_true_iff in E1; lia|].
  if_goal; eexists; eexists; (split; [reflexivity|]);
    try (apply byte_of_high; reflexivity); reflexivity.
Qed.

Lemma Index_head_absent (s t : gostring) (b : byte) :
  ~ In b s -> strings.Index s (b :: t) = -1.
Proof.
  induction s as [|y s IH]; intros Hn; [reflexivity|].
  cbn [strings.Index strings.HasPrefix].
  destruct (Byte.eqb b y) eqn:E.
  - apply Byte.byte_dec_bl in E. subst. exfalso. apply Hn. now left.
  - cbn [andb]. rewrite IH by (intros Hi; apply Hn; now right). reflexivity.
Qed.

(** No rune from [RuneSelf] on is a default split character. *)
Lemma ContainsRune_default_high (r : rune) :
  0x80 <= r -> strings.ContainsRune DefaultSplitChars r = false.
Proof.
  intros Hr. unfold strings.ContainsRune, strings.IndexRune.
  destruct ((0 <=? r) && (r <? utf8.RuneSelf)) eqn:E1;
    [apply andb_true_iff in E1; unfold utf8.RuneSelf in E1; lia|].
  destruct (r =? utf8.RuneError); [reflexivity|].
  destruct (negb (utf8.ValidRune r)); [reflexivity|].
  destruct (EncodeRune_high r Hr) as (b & t & -> & Hb).
  rewrite Index_head_absent; [reflexivity|].
  intros [<-|[<-|[<-|[]]]]; vm_compute in Hb; discriminate.
Qed.

Lemma default_member (b : byte) :
  b2z b < 0x80 ->
  strings.ContainsRune DefaultSplitChars (b2z b) = true <-> In b DefaultSplitChars.
Proof.
  intros Hb. rewrite ContainsRune_ascii by assumption.
  rewrite existsb_exists. split.
  - intros (y & Hy & E). apply Byte.byte_dec_bl in E. now subst.
  - intros H. exists b. split; [assumption|]. now apply Byte.byte_dec_lb.
Qed.

Lemma default_high_absent (b : byte) : 0x80 <= b2z b -> ~ In b DefaultSplitChars.
Proof. intros Hb [<-|[<-|[<-|[]]]]; vm_compute in Hb; congruence. Qed.

(** [trimLeftUnicode] with the default split characters takes off the
    leading ones and stops at the first byte that is none. *)
Lemma trimLeft_default (f : nat) :
  forall s : gostring,
    (length s <= f)%nat ->
    exists pre t,
      s = pre ++ t /\ strings.trimLeftUnicode f s DefaultSplitChars = t /\
      Forall (fun y => In y DefaultSplitChars) pre /\
      (forall b t', t = b :: t' -> ~ In b DefaultSplitChars).
Proof.
  induction f as [|f IH]; intros s Hf.
  - destruct s; [|cbn in Hf; lia]. exists [], []. repeat split; auto. discriminate.
  - destruct s as [|b s]; [exists [], []; repeat split; auto; discriminate|].
    cbn [strings.trimLeftUnicode]. unfold utf8.RuneSelf.
    destruct (Z.leb_spec 0x80 (b2z b)) as [Hb|Hb].
    + destruct (utf8.DecodeRuneInString (b :: s)) as [r n] eqn:E.
      apply decode_nonascii in E; [|assumption].
      rewrite ContainsRune_default_high by assumption. cbn [negb].
      exists [], (b :: s). repeat split; auto.
      intros b' t' [= <- _]. now apply default_high_absent.
    + destruct (strings.ContainsRune DefaultSplitChars (b2z b)) eqn:Ec; cbn [negb].
      * apply default_member in Ec; [|assumption].
        destruct (IH s) as (pre & t & -> & Ht & Hp & Hh);
          [cbn [length] in Hf; lia|].
        exists (b :: pre), t. cbn [from skipn]. repeat split; auto.
      * exists [], (b :: s). repeat split; auto.
        intros b' t' [= <- _] Hi. apply default_member in Hi; congruence.
Qed.

(** The rune [DecodeLastRuneInString] returns for a string that ends
    in a byte from [RuneSelf] on. *)
Lemma decode_last_high (s : gostring) (b : byte) r n :
  0x80 <= b2z b -> utf8.DecodeLastRuneInString (s ++ [b]) = (r, n) -> 0x80 <= r.
Proof.
  intros Hb. unfold utf8.DecodeLastRuneInString.
  assert (Hlen : Z.of_nat (length (s ++ [b])) = Z.of_nat (length s) + 1)
    by (rewrite length_app; cbn [length]; lia).
  destruct (Z.eqb_spec (Z.of_nat (length (s ++ [b]))) 0); [lia|].
  assert (Hlast : utf8.at_ (s ++ [b]) (Z.to_nat (Z.of_nat (length (s ++ [b])) - 1))
                  = b2z b).
  { unfold utf8.at_. replace (Z.to_nat _) with (length s) by lia.
    now rewrite nth_middle. }
  rewrite Hlast. unfold utf8.RuneSelf.
  destruct (Z.ltb_spec (b2z b) 0x80); [lia|].
  match goal with
  | |- context [utf8.lastStart ?a ?b ?c ?d] =>
      pose proof (lastStart_le a b c d) as Hls
  end.
  set (start := Z.max 0 (utf8.lastStart _ _ _ _)) in *.
  destruct (utf8.DecodeRuneInString (from (Z.to_nat start) (s ++ [b])))
    as [r' n'] eqn:E.
  destruct (Z.eqb_spec (start + Z.of_nat n') (Z.of_nat (length (s ++ [b]))))
    as [He|He]; cbn [negb]; intros Hp; apply pair_equal_spec in Hp;
    destruct Hp as [<- _]; [|unfold utf8.RuneError; lia].
  assert (Hst : 0 <= start < Z.of_nat (length s) + 1) by (unfold start; lia).
  destruct (from (Z.to_nat start) (s ++ [b])) as [|y t] eqn:Ef.
  - apply (f_equal (@length byte)) in Ef. rewrite from_length in Ef.
    cbn [length] in Ef. lia.
  - destruct (Z.ltb_spec (b2z y) 0x80) as [Hy|Hy];
      [|now apply decode_nonascii in E].
    rewrite decode_ascii in E by assumption. injection E as <- <-.
    (* the suffix is the last byte alone *)
    assert (Z.to_nat start = length s) as Hs by lia.
    rewrite Hs in Ef. rewrite from_app in Ef. injection Ef as <- _. lia.
Qed.

Lemma trimRight_default (f : nat) :
  forall s : gostring,
    (length s <= f)%nat ->
    exists t post,
      s = t ++ post /\ strings.trimRightUnicode f s DefaultSplitChars = t /\
      Forall (fun y => In y DefaultSplitChars) post /\
      (forall t' b, t = t' ++ [b] -> ~ In b DefaultSplitChars).
Proof.
  assert (Hnil : forall (t' : gostring) (b : byte), [] = t' ++ [b] -> False)
    by (intros t' b H; now destruct t').
  induction f as [|f IH]; intros s Hf.
  - destruct s; [|cbn in Hf; lia]. exists [], []. repeat split; auto.
    intros t' b H. now apply Hnil in H.
  - destruct s as [|x s1] eqn:Es.
    { exists [], []. repeat split; auto. intros t' b H. now apply Hnil in H. }
    cbn [strings.trimRightUnicode].
    assert (Hne : x :: s1 <> []) by discriminate.
    destruct (exists_last Hne) as (s0 & b & Hs). rewrite Hs in *. clear Hs Hne.
    assert (Hlen : (length (s0 ++ [b]) - 1)%nat = length s0)
      by (rewrite length_app; cbn [length]; lia).
    assert (Hat : utf8.at_ (s0 ++ [b]) (length s0) = b2z b)
      by (unfold utf8.at_; now rewrite nth_middle).
    rewrite ?Hlen, !Hat.
    unfold utf8.RuneSelf.
    assert (Hlast : forall t' b', s0 ++ [b] = t' ++ [b'] -> b' = b)
      by (intros t' b' H; apply app_inj_tail in H; now destruct H).
    destruct (Z.leb_spec 0x80 (b2z b)) as [Hb|Hb].
    + destruct (utf8.DecodeLastRuneInString (s0 ++ [b])) as [r n] eqn:E.
      apply decode_last_high in E; [|assumption].
      rewrite ContainsRune_default_high by assumption. cbn [negb].
      exists (s0 ++ [b]), []. rewrite app_nil_r. repeat split; auto.
      intros t' b' H. apply Hlast in H. subst. now apply default_high_absent.
    + cbv beta iota.
      destruct (strings.ContainsRune DefaultSplitChars (b2z b)) eqn:Ec; cbn [negb].
      * apply default_member in Ec; [|assumption].
        rewrite ?Hlen, upto_app.
        destruct (IH s0) as (t & post & -> & Ht & Hp & Hh).
        { rewrite length_app in Hf. cbn [length] in Hf. lia. }
        exists t, (post ++ [b]). rewrite app_assoc. repeat split; auto.
        apply Forall_app. split; [assumption|now constructor].
      * exists (s0 ++ [b]), []. rewrite app_nil_r. repeat split; auto.
        intros t' b' H Hi. apply Hlast in H. subst.
        apply default_member in Hi; congruence.
Qed.

(** Under the default options, limit 1 returns the input without the
    split characters at its two ends, as it stands (quotes and
    backslashes are not read), and nothing when nothing is left. *)
Theorem limit_one_strips (input : gostring) :
  exists pre t post,
    input = pre ++ t ++ post /\
    Forall (fun y => In y DefaultSplitChars) pre /\
    Forall (fun y => In y DefaultSplitChars) post /\
    (forall b t', t = b :: t' -> ~ In b DefaultSplitChars) /\
    (forall t' b, t = t' ++ [b] -> ~ In b DefaultSplitChars) /\
    SplitN input 1 = Some (match t with [] => [] | _ :: _ => [t] end, None).
Proof.
  unfold SplitN, SplitWithOptions. cbn [with_Limit Limit SplitChars DefaultSplitOptions].
  cbn [Z.eqb length Nat.eqb DefaultSplitChars]. fold DefaultSplitChars.
  destruct (trimRight_default (length input) input (Nat.le_refl _))
    as (t1 & post & Hi & Ht1 & Hpost & Hlast).
  assert (Hr : strings.TrimRight input DefaultSplitChars = t1).
  { unfold strings.TrimRight. destruct input as [|b input]; [|exact Ht1].
    symmetry in Hi. apply app_eq_nil in Hi. now destruct Hi. }
  rewrite Hr.
  destruct (trimLeft_default (length t1) t1 (Nat.le_refl _))
    as (pre & t & Hi' & Ht & Hpre & Hhead).
  assert (Hl : strings.TrimLeft t1 DefaultSplitChars = t).
  { unfold strings.TrimLeft. destruct t1 as [|b t1]; [|exact Ht].
    symmetry in Hi'. apply app_eq_nil in Hi'. now destruct Hi'. }
  rewrite Hl. exists pre, t, post. clear Ht1 Ht Hr Hl. subst t1 input.
  rewrite <- app_assoc. repeat split; try assumption.
  - intros t' b H. destruct t as [|y t0]; [now destruct t'|].
    apply (Hlast (pre ++ t') b). rewrite H. now rewrite app_assoc.
  - destruct t; reflexivity.
Qed.

(* ================================================================= *)
(** * Input without words *)

Lemma main_loop_seps (n : Z) (f : nat) :
  forall (r : gostring) (words : list gostring),
    Forall (fun y => In y DefaultSplitChars) r -> (length r <= f)%nat ->
    main_loop f (with_Limit DefaultSplitOptions n) DefaultSplitChars words r =
    Some (words, None).
Proof.
  induction f as [|f IH]; intros r words Hr Hf.
  - destruct r; [reflexivity|cbn in Hf; lia].
  - destruct Hr as [|s r Hs Hr]; [reflexivity|].
    cbn [main_loop length Nat.ltb Nat.leb]. unfold loop_body.
    destruct (default_sep s r Hs) as (_ & -> & -> & _).
    apply IH; [assumption|cbn [length] in Hf; cbn [from skipn]; lia].
Qed.

(** Under the default options, with every limit, an input of split
    characters only, the empty input among them, gives no word and no
    error. *)
Theorem only_separators (r : gostring) (n : Z) :
  Forall (fun y => In y DefaultSplitChars) r -> SplitN r n = Some ([], None).
Proof.
  intros Hr. destruct (Z.eq_dec n 1) as [->|H1].
  - unfold SplitN, SplitWithOptions.
    cbn [with_Limit Limit SplitChars DefaultSplitOptions].
    cbn [Z.eqb length Nat.eqb DefaultSplitChars]. fold DefaultSplitChars.
    assert (Ht : strings.TrimRight r DefaultSplitChars = []).
    { destruct (trimRight_default (length r) r (Nat.le_refl _))
        as (t & post & Hi & Ht & _ & Hlast).
      assert (Hnil : t = []).
      { destruct t as [|y t0]; [reflexivity|].
        destruct (@exists_last _ (y :: t0)) as (t' & b & Hb); [discriminate|].
        exfalso. apply (Hlast t' b Hb). rewrite Hi, Hb in Hr.
        apply Forall_app in Hr. destruct Hr as [Hr _].
        apply Forall_app in Hr. destruct Hr as [_ Hr]. now inversion Hr. }
      rewrite Hnil in Ht. unfold strings.TrimRight.
      destruct r; [reflexivity|exact Ht]. }
    rewrite Ht. reflexivity.
  - unfold SplitN, SplitWithOptions.
    cbn [with_Limit Limit SplitChars DefaultSplitOptions].
    destruct (n =? 0); [reflexivity|].
    apply Z.eqb_neq in H1. rewrite H1.
    apply (main_loop_seps n (length r) r [] Hr (Nat.le_refl _)).
Qed.

Lemma only_separators_witness :
  Forall (fun y => In y DefaultSplitChars) ex_run /\
  SplitN ex_run 2 = Some ([], None).
Proof.
  assert (H : Forall (fun y => In y DefaultSplitChars) ex_run)
    by (repeat constructor; cbn; tauto).
  split; [exact H|]. exact (only_separators ex_run 2 H).
Defined.

(** Under the default options a backslash and a newline where a word
    would begin are passed over like split characters: at the start of
    the input, and after a run of split characters that follows a part
    [a] whose split succeeds. *)
Theorem escaped_newline_between_words (a r b : gostring) (ws : list gostring) :
  Split a = Some (ws, None) ->
  Forall (fun y => In y DefaultSplitChars) r -> r <> [] ->
  Split ([x5c; x0a] ++ b) = Split b /\
  Split (a ++ r ++ [x5c; x0a] ++ b) = Split (a ++ r ++ b).
Proof.
  intros Ha Hr Hne.
  assert (H : forall words,
             loop DefaultSplitOptions DefaultSplitChars words ([x5c; x0a] ++ b) =
             loop DefaultSplitOptions DefaultSplitChars words b).
  { intros words. apply (loop_turn _ _ _ _ (Continue words b)); [discriminate|].
    reflexivity. }
  rewrite !Split_loop in *. split; [apply H|].
  rewrite (loop_app_seps a [] ws r _ Ha Hr Hne).
  rewrite (loop_app_seps a [] ws r _ Ha Hr Hne). apply H.
Qed.

Lemma escaped_newline_between_words_witness :
  (Split (gs "foo") = Some ([gs "foo"], None) /\
   Forall (fun y => In y DefaultSplitChars) ex_run /\ ex_run <> []) /\
  Split ([x5c; x0a] ++ gs "bar") = Split (gs "bar") /\
  Split (gs "foo" ++ ex_run ++ [x5c; x0a] ++ gs "bar") =
  Split (gs "foo" ++ ex_run ++ gs "bar").
Proof.
  assert (H1 : Split (gs "foo") = Some ([gs "foo"], None))
    by (vm_compute; reflexivity).
  assert (H2 : Forall (fun y => In y DefaultSplitChars) ex_run)
    by (repeat constructor; cbn; tauto).
  assert (H3 : ex_run <> []) by discriminate.
  split; [repeat split; assumption|].
  exact (escaped_newline_between_words (gs "foo") ex_run (gs "bar") _ H1 H2 H3).
Defined.

(* ================================================================= *)
(** * The words of input without quotes and escapes *)

(** The bytes a rune takes after its first one are not ASCII. *)
Lemma decode_tail_high (b : byte) (s : gostring) c l :
  utf8.DecodeRuneInString (b :: s) = (c, l) ->
  Forall (fun y => 0x80 <= b2z y) (upto (l - 1) s).
Proof.
  decode_open b.
  all: cbn [Nat.leb]; if_split; bool_hyps.
  all: pair_inv; cbn [Nat.sub upto firstn]; try constructor.
  all: cbn [fst snd] in *.
  all: destruct s as [|b1 [|b2 [|b3 s]]]; cbn [length nth firstn] in *;
    try lia; repeat constructor; lia.
Qed.

Lemma is_sep_high (y : byte) : 0x80 <= b2z y -> is_sep y = false.
Proof.
  intros H. unfold is_sep. destruct (existsb _ _) eqn:E; [|reflexivity].
  apply existsb_exists in E. destruct E as (z & Hz & E).
  apply Byte.byte_dec_bl in E. subst z. now apply default_high_absent in Hz.
Qed.

(** The bytes of a rune that is no split character are no split
    characters. *)
Lemma decode_consumed_nonsep (input : gostring) c l :
  input <> [] -> utf8.DecodeRuneInString input = (c, l) ->
  strings.ContainsRune DefaultSplitChars c = false ->
  forallb (fun y => negb (is_sep y)) (upto l input) = true.
Proof.
  intros Hne E Hc. destruct input as [|b s]; [congruence|].
  pose proof (decode_width _ _ _ Hne E) as [Hl _].
  pose proof (decode_tail_high _ _ _ _ E) as Ht.
  destruct l as [|l]; [lia|]. cbn [upto firstn forallb].
  cbn [Nat.sub] in Ht. rewrite Nat.sub_0_r in Ht.
  apply andb_true_iff. split.
  - apply negb_true_iff. destruct (Z.ltb_spec (b2z b) 0x80) as [Hb|Hb].
    + rewrite decode_ascii in E by assumption. injection E as <- _.
      now rewrite ContainsRune_ascii in Hc.
    + now apply is_sep_high.
  - apply forallb_forall. intros y Hy. apply negb_true_iff, is_sep_high.
    rewrite Forall_forall in Ht. now apply Ht.
Qed.

(** A rune that is a split character is one byte, a split character. *)
Lemma decode_sep (b : byte) (s : gostring) c l :
  utf8.DecodeRuneInString (b :: s) = (c, l) ->
  strings.ContainsRune DefaultSplitChars c = true ->
  l = 1%nat /\ is_sep b = true.
Proof.
  intros E Hc. destruct (Z.ltb_spec c 0x80) as [Hlt|Hge].
  - apply decode_ascii_inv in E; [|assumption]. destruct E as [<- ->].
    split; [reflexivity|]. pose proof (b2z_range b).
    now rewrite ContainsRune_ascii in Hc.
  - rewrite ContainsRune_default_high in Hc by assumption. discriminate.
Qed.

Lemma filter_all (f : byte -> bool) (s : gostring) :
  forallb f s = true -> filter f s = s.
Proof.
  induction s as [|y s IH]; [reflexivity|]. cbn [forallb filter].
  intros H. apply andb_true_iff in H. destruct H as [-> H]. now rewrite IH.
Qed.

(** On text without quotes and escapes the loop of [raw] returns the
    bytes up to the first split character, which it takes off. *)
Lemma raw_loop_filter (f : nat) :
  forall (cur acc p : gostring),
    unquoted DefaultSplitOptions cur = true -> (length cur <= f)%nat ->
    exists q r,
      raw_loop f DefaultSplitOptions acc (p ++ cur) cur =
        Some (Word (acc ++ p ++ q) r) /\
      unquoted DefaultSplitOptions r = true /\
      forallb (fun y => negb (is_sep y)) q = true /\
      filter (fun y => negb (is_sep y)) cur =
        q ++ filter (fun y => negb (is_sep y)) r.
Proof.
  induction f as [|f IH]; intros cur acc p Hu Hf.
  - destruct cur; [|cbn in Hf; lia]. exists [], []. now rewrite raw_loop_nil.
  - destruct cur as [|b cur]; [exists [], []; now rewrite raw_loop_nil|].
    destruct (utf8.DecodeRuneInString (b :: cur)) as [c l] eqn:E.
    assert (Hne : b :: cur <> []) by discriminate.
    pose proof (decode_width _ _ _ Hne E) as [Hl _].
    pose proof (decode_step _ _ _ Hne E) as Hs.
    destruct (unquoted_cons _ _ _ _ Hne E Hu) as [Hc Hu'].
    destruct (is_quote_false _ _ Hc) as (H1 & H2 & H3).
    cbn [raw_loop]. rewrite E, H1, H2, H3. cbn [SplitChars DefaultSplitOptions].
    destruct (strings.ContainsRune DefaultSplitChars c) eqn:Hsep.
    + destruct (decode_sep _ _ _ _ E Hsep) as [-> Hb].
      exists [], (from 1 (b :: cur)). rewrite scanned_prefix by lia.
      rewrite app_nil_r. repeat split; try assumption.
      cbn [filter from skipn app]. now rewrite Hb.
    + destruct (IH (from l (b :: cur)) acc (p ++ upto l (b :: cur)) Hu')
        as (q & r & Hq & Hr & Hqn & Hfl); [cbn [length] in *; lia|].
      rewrite <- app_assoc, upto_from in Hq. rewrite Hq.
      pose proof (decode_consumed_nonsep _ _ _ Hne E Hsep) as Hk.
      exists (upto l (b :: cur) ++ q), r. rewrite <- !app_assoc.
      repeat split; try assumption.
      * rewrite forallb_app, Hk, Hqn. reflexivity.
      * rewrite <- (upto_from l (b :: cur)) at 1.
        rewrite filter_app, Hfl, filter_all by assumption. reflexivity.
Qed.

Lemma main_loop_filter (f : nat) :
  forall (words : list gostring) (input : gostring),
    unquoted DefaultSplitOptions input = true -> (length input <= f)%nat ->
    exists ws,
      main_loop f DefaultSplitOptions DefaultSplitChars words input =
        Some (words ++ ws, None) /\
      concat ws = filter (fun y => negb (is_sep y)) input /\
      Forall (fun w => forallb (fun y => negb (is_sep y)) w = true) ws.
Proof.
  induction f as [|f IH]; intros words input Hu Hf.
  - destruct input; [|cbn in Hf; lia]. exists []. now rewrite app_nil_r.
  - destruct input as [|b input]; [exists []; now rewrite app_nil_r|].
    cbn [main_loop length Nat.ltb Nat.leb]. unfold loop_body.
    assert (Hne : b :: input <> []) by discriminate.
    destruct (utf8.DecodeRuneInString (b :: input)) as [c l] eqn:E.
    pose proof (decode_step _ _ _ Hne E) as Hs.
    destruct (unquoted_cons _ _ _ _ Hne E Hu) as [Hc Hu'].
    destruct (is_quote_false _ _ Hc) as (_ & _ & H3).
    destruct (strings.ContainsRune DefaultSplitChars c) eqn:Hsep.
    + destruct (decode_sep _ _ _ _ E Hsep) as [-> Hb].
      destruct (IH words (from 1 (b :: input)) Hu') as (ws & -> & Hcat & Hall);
        [cbn [length] in *; lia|].
      exists ws. repeat split; try assumption.
      rewrite Hcat. cbn [filter from skipn]. now rewrite Hb.
    + unfold lookahead. rewrite H3. unfold word_turn.
      destruct (raw_loop_filter (length (b :: input)) (b :: input) [] [] Hu
                  (Nat.le_refl _)) as (q & r & Hq & Hr & Hqn & Hfl).
      assert (Hw : splitWord (b :: input) DefaultSplitOptions = Some (q, r, None))
        by (rewrite splitWord_exec; now apply exec_word).
      rewrite Hw. cbn [option_map].
      rewrite (finish_word_no_limit _ default_no_limit).
      pose proof (splitWord_remainder _ _ _ _ _ Hne Hw) as Hlr.
      destruct (IH (words ++ [q]) r Hr) as (ws & Hm & Hcat & Hall);
        [cbn [length] in *; lia|].
      exists (q :: ws). split; [|split].
      * etransitivity; [exact Hm|]. now rewrite <- app_assoc.
      * cbn [concat]. now rewrite Hcat, Hfl.
      * now constructor.
Qed.

(** Under the default options, for an input without quote and
    backslash code points, the split succeeds, no word has a split
    character in it, and the words put end to end are the input without
    its split characters: nothing else is lost or added. *)
Theorem unquoted_words_are_the_input (input : gostring) :
  unquoted DefaultSplitOptions input = true ->
  exists ws,
    Split input = Some (ws, None) /\
    concat ws = filter (fun y => negb (is_sep y)) input /\
    Forall (fun w => forallb (fun y => negb (is_sep y)) w = true) ws.
Proof.
  intros Hu.
  destruct (main_loop_filter (length input) [] input Hu (Nat.le_refl _))
    as (ws & H & Hcat & Hall).
  exists ws. auto.
Qed.

Lemma unquoted_words_are_the_input_witness :
  unquoted DefaultSplitOptions ex_foo_bar_baz = true /\
  exists ws,
    Split ex_foo_bar_baz = Some (ws, None) /\
    concat ws = filter (fun y => negb (is_sep y)) ex_foo_bar_baz /\
    Forall (fun w => forallb (fun y => negb (is_sep y)) w = true) ws.
Proof.
  split; [reflexivity|].
  exact (unquoted_words_are_the_input ex_foo_bar_baz eq_refl).
Defined.

(* ================================================================= *)
(** * Quoted spans and literal text side by side *)

Lemma raw_loop_at_single (f : nat) (acc p rest : gostring) :
  raw_loop (S f) DefaultSplitOptions acc (p ++ x27 :: rest) (x27 :: rest) =
  Some (Goto (mkW Lsingle (acc ++ p) rest)).
Proof.
  cbn [raw_loop]. rewrite decode_ascii by (vm_compute; reflexivity).
  change (b2z x27 =? SingleChar DefaultSplitOptions) with true. cbv iota.
  rewrite scanned_prefix by (cbn [length]; lia). reflexivity.
Qed.

(** Literal text before a single quote goes to the buffer, and the
    block [single] is next. *)
Lemma exec_raw_plain_single (acc u rest : gostring) :
  plain DefaultSplitOptions u = true ->
  exec DefaultSplitOptions (mkW Lraw acc (u ++ x27 :: rest)) =
  exec DefaultSplitOptions (mkW Lsingle (acc ++ u) rest).
Proof.
  intros Hu. apply exec_goto. unfold block; cbn [lbl buf inp]. unfold raw_block.
  rewrite raw_loop_plain;
    [|assumption|apply ascii_head_cons; vm_compute; reflexivity|lia].
  cbn [length]. apply raw_loop_at_single.
Qed.

Lemma exec_single_span (acc b rest : gostring) :
  ~ In x27 b ->
  exec DefaultSplitOptions (mkW Lsingle acc (b ++ x27 :: rest)) =
  exec DefaultSplitOptions (mkW Lraw (acc ++ b) rest).
Proof.
  intros Hb. apply exec_goto. unfold block; cbn [lbl buf inp].
  now apply single_block_default.
Qed.

Lemma exec_double_span (acc b rest : gostring) :
  ~ In x22 b -> ~ In x5c b ->
  exec DefaultSplitOptions (mkW Ldouble acc (b ++ x22 :: rest)) =
  exec DefaultSplitOptions (mkW Lraw (acc ++ b) rest).
Proof.
  intros Hq Hb. apply exec_goto. unfold block; cbn [lbl buf inp].
  unfold double_block.
  rewrite double_loop_literal;
    [|assumption|assumption|apply ascii_head_cons; vm_compute; reflexivity|lia].
  cbn [length]. apply double_loop_closing.
Qed.

(** Literal text up to the end of the input ends the word. *)
Lemma exec_raw_plain_end (acc v : gostring) :
  plain DefaultSplitOptions v = true ->
  exec DefaultSplitOptions (mkW Lraw acc v) = Some (acc ++ v, [], None).
Proof.
  intros Hv. apply exec_word. unfold block; cbn [lbl buf inp]. unfold raw_block.
  rewrite <- (app_nil_r v) at 3.
  rewrite raw_loop_plain by (rewrite ?app_nil_r; auto using ascii_head_nil).
  apply raw_loop_nil.
Qed.

(** A turn of the main loop where a word begins. *)
Lemma loop_at_word (ws : list gostring) (input : gostring) c l (r : wresult) :
  input <> [] -> utf8.DecodeRuneInString input = (c, l) ->
  strings.ContainsRune DefaultSplitChars c = false ->
  (c =? EscapeChar DefaultSplitOptions) = false ->
  splitWord input DefaultSplitOptions = Some r ->
  loop DefaultSplitOptions DefaultSplitChars ws input =
  after DefaultSplitOptions DefaultSplitChars (finish_word DefaultSplitOptions ws r).
Proof.
  intros Hne E Hsep Hesc Hw. apply loop_turn; [assumption|].
  unfold loop_body. rewrite E, Hsep. unfold lookahead. rewrite Hesc.
  unfold word_turn. now rewrite Hw.
Qed.

(** Under the default options literal text, a single-quoted span, a
    double-quoted span and literal text that follow one another without a
    split character between them are one word: the texts and the bodies
    of the spans end to end.  The bodies may hold split characters; [u]
    and [v] may be empty. *)
Theorem adjacent_spans_one_word (u b1 b2 v : gostring) :
  plain DefaultSplitOptions u = true -> ~ In x27 b1 ->
  ~ In x22 b2 -> ~ In x5c b2 -> plain DefaultSplitOptions v = true ->
  Split (u ++ [x27] ++ b1 ++ [x27] ++ [x22] ++ b2 ++ [x22] ++ v) =
  Some ([u ++ b1 ++ b2 ++ v], None).
Proof.
  intros Hu H1 H2 H2' Hv. rewrite Split_loop. cbn [app].
  set (rest := b1 ++ x27 :: x22 :: b2 ++ x22 :: v).
  assert (Hw : splitWord (u ++ x27 :: rest) DefaultSplitOptions =
               Some (u ++ b1 ++ b2 ++ v, [], None)).
  { rewrite splitWord_exec, exec_raw_plain_single by assumption.
    unfold rest. rewrite exec_single_span by assumption.
    rewrite (exec_goto DefaultSplitOptions (mkW Lraw _ (x22 :: _))
               (mkW Ldouble _ _) (raw_block_double_quote _ _)).
    rewrite exec_double_span by assumption.
    rewrite exec_raw_plain_end by assumption.
    cbn [app buf]. now rewrite <- !app_assoc. }
  destruct (utf8.DecodeRuneInString (u ++ x27 :: rest)) as [c l] eqn:E.
  assert (Hc : strings.ContainsRune DefaultSplitChars c = false /\
               (c =? EscapeChar DefaultSplitOptions) = false).
  { destruct u as [|y u].
    - cbn [app] in E. rewrite decode_ascii in E by (vm_compute; reflexivity).
      injection E as <- _. split; reflexivity.
    - assert (Ha : ascii_head (x27 :: rest))
        by (apply ascii_head_cons; vm_compute; reflexivity).
      pose proof (plain_head _ _ _ _ _ _ Hu Ha E) as Hc.
      apply is_special_false in Hc. tauto. }
  destruct Hc as [Hsep Hesc].
  assert (Hne : u ++ x27 :: rest <> []) by (destruct u; discriminate).
  rewrite (loop_at_word [] _ c l _ Hne E Hsep Hesc Hw).
  reflexivity.
Qed.

Lemma adjacent_spans_one_word_witness :
  (plain DefaultSplitOptions (gs "a") = true /\ ~ In x27 (gs "b c") /\
   ~ In x22 (gs "d  e") /\ ~ In x5c (gs "d  e") /\
   plain DefaultSplitOptions (gs "f") = true) /\
  Split (gs "a" ++ [x27] ++ gs "b c" ++ [x27] ++ [x22] ++ gs "d  e" ++ [x22] ++ gs "f") =
  Some ([gs "a" ++ gs "b c" ++ gs "d  e" ++ gs "f"], None).
Proof.
  assert (H1 : ~ In x27 (gs "b c")) by (cbn; intuition discriminate).
  assert (H2 : ~ In x22 (gs "d  e")) by (cbn; intuition discriminate).
  assert (H3 : ~ In x5c (gs "d  e")) by (cbn; intuition discriminate).
  split; [repeat split; assumption|].
  exact (adjacent_spans_one_word (gs "a") (gs "b c") (gs "d  e") (gs "f")
           eq_refl H1 H2 H3 eq_refl).
Defined.
